(** * SQL Whisperer: query validator and engine adapters

    A shallow embedding of the pure parts of the TypeScript sources
    ([validators/query-validator.ts], [clients/base-client.ts],
    [clients/mysql-client.ts], [clients/sqlite-client.ts],
    [clients/postgresql-client.ts]) and the properties checked on them.

    Conventions of the embedding:
    - a JavaScript string is a [string]; its code units are [ascii]
      characters.  The string primitives below are exact on the ASCII range
      (codes below 128); codes from 128 up are treated as caseless symbols
      that are neither letters nor white space, which is not what
      JavaScript does for all of them (U+00A0 is white space, U+00DF
      upper-cases to [SS]).  A property that compares [trim] or
      [toUpperCase] of a text with the text itself is therefore stated for
      ASCII texts ([StrFacts.isAscii]); the other properties of the
      validator are about ASCII texts given in full, or speak of a text
      through its normalized form only and are proved without any fact
      about [trim], [toUpperCase] or the character classes;
    - a JavaScript number is a [number]: a rational, one of the two
      infinities, or NaN;
    - [undefined]/[null] is [None];
    - a [Map] is an association list in insertion order ([JSMap]);
    - the database engine is not modelled: every adapter function takes the
      rows the driver returned as an argument. *)

From Stdlib Require Import String Ascii List Bool Arith ZArith QArith Lia.
From Stdlib Require Import Permutation.
From Stdlib Require Qround DecimalString.
Import ListNotations.
Close Scope Q_scope.
Open Scope string_scope.
Open Scope list_scope.

Set Implicit Arguments.

(* ------------------------------------------------------------------ *)
(** ** String primitives *)

Module Str.

Definition code (c : ascii) : nat := nat_of_ascii c.

Definition between (lo hi : nat) (c : ascii) : bool :=
  (lo <=? code c)%nat && (code c <=? hi)%nat.

Definition isUpper : ascii -> bool := between 65 90.
Definition isLower : ascii -> bool := between 97 122.
Definition isDigit : ascii -> bool := between 48 57.
Definition isLetter (c : ascii) : bool := isUpper c || isLower c.

(** [\w]: letters, digits and the underscore. *)
Definition isWordChar (c : ascii) : bool :=
  isLetter c || isDigit c || (code c =? 95)%nat.

(** White space and line terminators: TAB, LF, VT, FF, CR and the space. *)
Definition isWhiteSpace (c : ascii) : bool :=
  between 9 13 c || (code c =? 32)%nat.

(** [.] matches everything but a line terminator. *)
Definition isLineTerminator (c : ascii) : bool :=
  (code c =? 10)%nat || (code c =? 13)%nat.

Definition upperChar (c : ascii) : ascii :=
  if isLower c then ascii_of_nat (code c - 32) else c.

Fixpoint toUpperCase (s : string) : string :=
  match s with
  | EmptyString => EmptyString
  | String c s' => String (upperChar c) (toUpperCase s')
  end.

Fixpoint trimStart (s : string) : string :=
  match s with
  | EmptyString => EmptyString
  | String c s' => if isWhiteSpace c then trimStart s' else s
  end.

(** [trimEnd] keeps a character when it is not white space or when something
    is left after it. *)
Fixpoint trimEnd (s : string) : string :=
  match s with
  | EmptyString => EmptyString
  | String c s' =>
      match trimEnd s' with
      | EmptyString => if isWhiteSpace c then EmptyString else String c EmptyString
      | t => String c t
      end
  end.

Definition trim (s : string) : string := trimEnd (trimStart s).

Fixpoint startsWith (s p : string) : bool :=
  match p, s with
  | EmptyString, _ => true
  | String a p', String b s' => Ascii.eqb a b && startsWith s' p'
  | String _ _, EmptyString => false
  end.

Fixpoint includes (s needle : string) : bool :=
  startsWith s needle
  || match s with
     | EmptyString => false
     | String _ s' => includes s' needle
     end.

(** [s.split(sep)] for a one-character separator: the pieces between the
    separators, always at least one piece. *)
Fixpoint split (sep : ascii) (s : string) : list string :=
  match s with
  | EmptyString => [EmptyString]
  | String c s' =>
      if Ascii.eqb c sep then EmptyString :: split sep s'
      else match split sep s' with
           | [] => [String c EmptyString]
           | p :: ps => String c p :: ps
           end
  end.

Definition chars (s : string) : list ascii := list_ascii_of_string s.
Definition ofChars (l : list ascii) : string := string_of_list_ascii l.

End Str.

(* ------------------------------------------------------------------ *)
(** ** Regular expressions

    A backtracking matcher for the constructs the validator's patterns are
    written with.  Every pattern of the validator carries the [i] flag, so
    a literal character is compared after upper-casing both sides; none
    carries [m], [s], [u] or [y]. *)

Module Regex.

Inductive regex : Type :=
| Empty                                  (* matches the empty string *)
| Class (p : ascii -> bool)              (* one character satisfying [p] *)
| Seq (r1 r2 : regex)                    (* r1 r2 *)
| Alt (r1 r2 : regex)                    (* r1|r2, left tried first *)
| Star (r : regex)                       (* r*, greedy *)
| Plus (r : regex)                       (* r+, greedy *)
| Opt (r : regex)                        (* r?, greedy *)
| WordBoundary                           (* \b *)
| EndOfInput                             (* $ *)
| Group (r : regex).                     (* ( r ), capture group 1 *)

(** The matcher state: the character before the current position, the rest of
    the input, the current index, and what group 1 captured so far. *)
Record state : Type := mkState {
  prev : option ascii;
  rest : list ascii;
  pos : nat;
  cap : option (list ascii)
}.

Definition isWordAt (o : option ascii) : bool :=
  match o with Some c => Str.isWordChar c | None => false end.

Definition orElse {A} (a b : option A) : option A :=
  match a with Some x => Some x | None => b end.

(** [run r st k]: match [r] at [st], then continue with [k]; [None] is
    failure and makes the caller backtrack.  For [Star], one more iteration is
    tried before leaving the loop (greedy), and an iteration that consumed
    nothing is rejected.  Every accepted iteration consumes a character, so
    the counter [n], which starts at the length of the remaining input, is
    never smaller than the number of characters left: it reaches [0] only at
    the end of the input, where no further iteration can consume anything
    (a larger counter gives the same result, [RegexFacts.iterate_enough]). *)
Fixpoint run (r : regex) (st : state) (k : state -> option state)
  {struct r} : option state :=
  match r with
  | Empty => k st
  | Class p =>
      match rest st with
      | c :: s' =>
          if p c then k (mkState (Some c) s' (S (pos st)) (cap st)) else None
      | [] => None
      end
  | Seq r1 r2 => run r1 st (fun st' => run r2 st' k)
  | Alt r1 r2 => orElse (run r1 st k) (run r2 st k)
  | Star r1 =>
      (fix loop (n : nat) (st : state) {struct n} : option state :=
         match n with
         | O => k st
         | S n' =>
             orElse
               (run r1 st (fun st' =>
                  if (length (rest st') <? length (rest st))%nat
                  then loop n' st' else None))
               (k st)
         end) (length (rest st)) st
  | Plus r1 =>
      run r1 st (fun st1 =>
        (fix loop (n : nat) (st : state) {struct n} : option state :=
           match n with
           | O => k st
           | S n' =>
               orElse
                 (run r1 st (fun st' =>
                    if (length (rest st') <? length (rest st))%nat
                    then loop n' st' else None))
                 (k st)
           end) (length (rest st1)) st1)
  | Opt r1 => orElse (run r1 st k) (k st)
  | WordBoundary =>
      if xorb (isWordAt (prev st)) (isWordAt (hd_error (rest st)))
      then k st else None
  | EndOfInput =>
      match rest st with [] => k st | _ :: _ => None end
  | Group r1 =>
      run r1 st (fun st' =>
        k (mkState (prev st') (rest st') (pos st')
             (Some (firstn (pos st' - pos st) (rest st)))))
  end.

(** One match: where it starts, the matched text and group 1. *)
Record Match : Type := mkMatch {
  index : nat;
  text : string;
  group1 : option string
}.

(** A match anchored at the current position. *)
Definition matchAt (r : regex) (p : option ascii) (i : nat) (s : list ascii)
  : option Match :=
  match run r (mkState p s i None) (fun st' => Some st') with
  | Some st' =>
      Some (mkMatch i (Str.ofChars (firstn (pos st' - i) s))
              (option_map Str.ofChars (cap st')))
  | None => None
  end.

(** The leftmost match: start positions are tried from left to right, the
    end of the input included. *)
Fixpoint search (r : regex) (p : option ascii) (i : nat) (s : list ascii)
  : option Match :=
  match matchAt r p i s with
  | Some m => Some m
  | None =>
      match s with
      | [] => None
      | c :: s' => search r (Some c) (S i) s'
      end
  end.

(** [str.match(re)] and [re.exec(str)] without the [g] flag. *)
Definition exec (r : regex) (s : string) : option Match :=
  search r None 0 (Str.chars s).

(** [re.test(str)] without the [g] flag. *)
Definition test (r : regex) (s : string) : bool :=
  match exec r s with Some _ => true | None => false end.

(** All matches with the [g] flag.  After a match of length [L] the next
    search starts at its end, so the [L - 1] positions inside it are skipped
    ([skip]); after an empty match the search moves one position on. *)
Fixpoint scan (r : regex) (p : option ascii) (i : nat) (s : list ascii)
  (skip : nat) : list Match :=
  match skip with
  | S skip' =>
      match s with
      | [] => []
      | c :: s' => scan r (Some c) (S i) s' skip'
      end
  | O =>
      match matchAt r p i s with
      | Some m =>
          m :: match s with
               | [] => []
               | c :: s' =>
                   scan r (Some c) (S i) s' (String.length (text m) - 1)
               end
      | None =>
          match s with
          | [] => []
          | c :: s' => scan r (Some c) (S i) s' 0
          end
      end
  end.

(** [str.matchAll(re)] with the [g] flag. *)
Definition matchAll (r : regex) (s : string) : list Match :=
  scan r None 0 (Str.chars s) 0.

(** [str.match(re)] with the [g] flag: [null] when nothing matches, the
    list of matched texts otherwise. *)
Definition matchGlobal (r : regex) (s : string) : option (list string) :=
  match matchAll r s with
  | [] => None
  | ms => Some (map text ms)
  end.

(** *** Pattern syntax *)

Definition chr (c : ascii) : regex :=
  Class (fun x => Ascii.eqb (Str.upperChar x) (Str.upperChar c)).

Fixpoint lit (s : string) : regex :=
  match s with
  | EmptyString => Empty
  | String c EmptyString => chr c
  | String c s' => Seq (chr c) (lit s')
  end.

Definition b : regex := WordBoundary.
Definition s : regex := Class Str.isWhiteSpace.
Definition w : regex := Class Str.isWordChar.
Definition d : regex := Class Str.isDigit.
Definition dot : regex := Class (fun c => negb (Str.isLineTerminator c)).
Definition az : regex := Class Str.isLetter.

Fixpoint seq (rs : list regex) : regex :=
  match rs with
  | [] => Empty
  | [r] => r
  | r :: rs' => Seq r (seq rs')
  end.

Fixpoint alt (rs : list regex) : regex :=
  match rs with
  | [] => Class (fun _ => false)
  | [r] => r
  | r :: rs' => Alt r (alt rs')
  end.

End Regex.

(* ------------------------------------------------------------------ *)
(** ** The query validator ([QueryValidator]) *)

Module QueryValidator.
Import Regex.

Inductive Severity : Type := info | warning | error | critical.

(** [ValidationError] and [ValidationWarning] have the same fields. *)
Record Finding : Type := mkFinding {
  code : string;
  message : string;
  severity : Severity;
  suggestion : string
}.

Inductive QueryType : Type :=
| SELECT | INSERT | UPDATE | DELETE | DDL | TRANSACTION | OTHER.

Inductive Complexity : Type := low | medium | high.

Record QueryMetadata : Type := mkMetadata {
  queryType : QueryType;
  isMutation : bool;
  tablesAccessed : list string;
  estimatedComplexity : Complexity;
  requiresConfirmation : bool
}.

Record ValidationResult : Type := mkResult {
  isValid : bool;
  errors : list Finding;
  warnings : list Finding;
  metadata : QueryMetadata
}.

Definition QueryType_eqb (a c : QueryType) : bool :=
  match a, c with
  | SELECT, SELECT | INSERT, INSERT | UPDATE, UPDATE | DELETE, DELETE
  | DDL, DDL | TRANSACTION, TRANSACTION | OTHER, OTHER => true
  | _, _ => false
  end.

Definition detectQueryType (query : string) : QueryType :=
  let normalized := Str.toUpperCase (Str.trim query) in
  if Str.startsWith normalized "SELECT" then SELECT
  else if Str.startsWith normalized "INSERT" then INSERT
  else if Str.startsWith normalized "UPDATE" then UPDATE
  else if Str.startsWith normalized "DELETE" then DELETE
  else if Str.startsWith normalized "CREATE"
       || Str.startsWith normalized "ALTER"
       || Str.startsWith normalized "DROP"
       || Str.startsWith normalized "TRUNCATE" then DDL
  else if Str.startsWith normalized "BEGIN"
       || Str.startsWith normalized "COMMIT"
       || Str.startsWith normalized "ROLLBACK" then TRANSACTION
  else OTHER.

Definition isMutationQuery (t : QueryType) : bool :=
  existsb (QueryType_eqb t) [INSERT; UPDATE; DELETE; DDL].

Definition semi : regex := chr ";".
Definition quote : regex := chr "'".

Definition dangerousPatterns : list (regex * string) :=
  [ (seq [b; lit "DROP"; Plus s; lit "TABLE"; b], "DROP TABLE");
    (seq [b; lit "DROP"; Plus s; lit "DATABASE"; b], "DROP DATABASE");
    (seq [b; lit "TRUNCATE"; b], "TRUNCATE");
    (seq [b; lit "DELETE"; Plus s; lit "FROM"; Plus s; Plus w; Star s;
          Opt semi; Star s; EndOfInput], "DELETE ALL ROWS");
    (seq [b; lit "ALTER"; Plus s; lit "TABLE"; b], "ALTER TABLE");
    (seq [b; lit "DROP"; Plus s; lit "COLUMN"; b], "DROP COLUMN");
    (Alt (seq [b; lit "EXEC"; b]) (seq [b; lit "EXECUTE"; b]), "EXECUTE");
    (seq [semi; Star s; lit "DROP"; b], "SQL INJECTION (DROP)");
    (seq [semi; Star s; lit "DELETE"; b], "SQL INJECTION (DELETE)") ].

Definition detectDangerousOperations (query : string) : list string :=
  map snd (filter (fun pn => test (fst pn) query) dangerousPatterns).

Definition injectionPatterns : list (regex * string) :=
  [ (seq [quote; Star s; lit "OR"; Plus s; Opt quote; Plus d; Opt quote;
          Star s; chr "="; Star s; Opt quote; Plus d; Opt quote],
     "OR 1=1 pattern detected");
    (seq [quote; Star s; lit "OR"; Plus s; Opt quote; Plus az; Opt quote;
          Star s; chr "="; Star s; Opt quote; Plus az; Opt quote],
     "OR 'x'='x' pattern detected");
    (seq [quote; Star s; semi; Star dot; lit "--"],
     "SQL comment injection pattern detected");
    (seq [lit "UNION"; Plus s; lit "SELECT"],
     "UNION SELECT pattern detected");
    (seq [quote; Star s; chr ")"; Star s; lit "OR"; Star s; chr "("],
     "Parentheses OR pattern detected") ].

Definition detectInjectionPatterns (query : string) : list Finding :=
  map (fun pm =>
         mkFinding "POTENTIAL_INJECTION" (snd pm) warning
           "Use parameterized queries to prevent SQL injection.")
      (filter (fun pm => test (fst pm) query) injectionPatterns).

Definition fromClause : regex :=
  seq [lit "FROM"; Plus s;
       Group (Plus (Class (fun c =>
          Str.isWordChar c || Ascii.eqb c "," || Str.isWhiteSpace c)));
       alt [lit "WHERE"; lit "GROUP"; lit "ORDER"; lit "LIMIT"; EndOfInput]].

Definition hasCartesianProduct (query : string) : bool :=
  match exec fromClause query with
  | None => false
  | Some fromMatch =>
      let tables :=
        map Str.trim
          (Str.split ","
             (match group1 fromMatch with Some g => g | None => "" end)) in
      if (1 <? length tables)%nat && negb (Str.includes query "JOIN")
      then true else false
  end.

Record ExpensivePattern : Type := mkExpensive {
  pattern : regex;
  global : bool;
  name : string;
  minMatches : option nat
}.

Definition expensivePatterns : list ExpensivePattern :=
  [ mkExpensive
      (seq [b; lit "LIKE"; Plus s; lit "'%"; Star dot; lit "%'"]) false
      "LIKE with leading wildcard" None;
    mkExpensive
      (seq [b; lit "NOT"; Plus s; lit "IN"; Star s; chr "("]) false
      "NOT IN subquery" None;
    mkExpensive (seq [b; lit "OR"; b]) true "Multiple OR conditions" (Some 3);
    mkExpensive (seq [b; lit "UNION"; b]) false "UNION operation" None;
    mkExpensive (seq [b; lit "DISTINCT"; b]) false "DISTINCT operation" None;
    mkExpensive
      (seq [b; alt [lit "SUBSTRING"; lit "LOWER"; lit "UPPER"; lit "CONCAT"];
            Star s; chr "("]) true
      "Function on column" (Some 2) ].

(** [query.match(pattern)]: with [g] all the matched texts, without it the
    first match alone (none of the patterns here has a capture group); [null]
    when nothing matches. *)
Definition strMatch (e : ExpensivePattern) (query : string)
  : option (list string) :=
  if global e then matchGlobal (pattern e) query
  else option_map (fun m => [text m]) (exec (pattern e) query).

Definition isExpensive (query : string) (e : ExpensivePattern) : bool :=
  match strMatch e query with
  | None => false
  | Some matches =>
      match minMatches e with
      | None | Some O => true
      | Some n => (n <=? length matches)%nat
      end
  end.

Definition detectExpensiveOperations (query : string) : list string :=
  map name (filter (isExpensive query) expensivePatterns).

(** [Set.add]: a value already present keeps its place. *)
Definition setAdd (tables : list string) (t : string) : list string :=
  if existsb (String.eqb t) tables then tables else tables ++ [t].

Definition addMatches (r : regex) (query : string) (tables : list string)
  : list string :=
  fold_left
    (fun acc m => match group1 m with Some t => setAdd acc t | None => acc end)
    (matchAll r query) tables.

Definition tableName : regex :=
  Group (Plus (Class (fun c => Str.isWordChar c || Ascii.eqb c "."))).

Definition extractTableNames (query : string) : list string :=
  let tables := [] in
  let tables := addMatches (seq [lit "FROM"; Plus s; tableName]) query tables in
  let tables := addMatches (seq [lit "JOIN"; Plus s; tableName]) query tables in
  let tables :=
    addMatches (seq [lit "INSERT"; Plus s; lit "INTO"; Plus s; tableName])
      query tables in
  let tables := addMatches (seq [lit "UPDATE"; Plus s; tableName]) query tables in
  let tables :=
    addMatches (seq [lit "DELETE"; Plus s; lit "FROM"; Plus s; tableName])
      query tables in
  tables.

Definition indicators : list (regex * nat) :=
  [ (seq [b; lit "JOIN"; b], 2);
    (Alt (seq [b; lit "SUBSELECT"; b]) (seq [chr "("; Star s; lit "SELECT"]), 3);
    (seq [b; lit "UNION"; b], 2);
    (seq [b; lit "GROUP BY"; b], 1);
    (seq [b; lit "HAVING"; b], 1);
    (seq [b; lit "ORDER BY"; b], 1);
    (seq [b; lit "DISTINCT"; b], 1);
    (seq [b; lit "WINDOW"; b], 3);
    (Alt (seq [b; lit "CTE"; b])
         (seq [b; lit "WITH"; Plus s; Plus w; Plus s; lit "AS"]), 2) ]%nat.

Definition complexityScore (query : string) : nat :=
  fold_left
    (fun score pw =>
       match matchGlobal (fst pw) query with
       | Some matches => score + length matches * snd pw
       | None => score
       end)
    indicators 0%nat.

Definition estimateComplexity (query : string) : Complexity :=
  let score := complexityScore query in
  if (score <=? 2)%nat then low
  else if (score <=? 6)%nat then medium
  else high.

Definition dangerousError (op : string) : Finding :=
  mkFinding "DANGEROUS_OPERATION" ("Dangerous operation detected: " ++ op)
    critical "Review this operation carefully before executing.".

Definition deleteWithoutWhere : Finding :=
  mkFinding "DELETE_WITHOUT_WHERE"
    "DELETE statement without WHERE clause will remove all rows"
    critical "Add a WHERE clause to limit the deletion scope.".

Definition updateWithoutWhere : Finding :=
  mkFinding "UPDATE_WITHOUT_WHERE"
    "UPDATE statement without WHERE clause will modify all rows"
    warning "Add a WHERE clause to limit the update scope.".

Definition selectStar : Finding :=
  mkFinding "SELECT_STAR" "Using SELECT * may retrieve unnecessary columns"
    info "Specify only the columns you need for better performance.".

Definition missingLimit : Finding :=
  mkFinding "MISSING_LIMIT"
    "SELECT query without LIMIT may return large result sets"
    info "Consider adding LIMIT clause to control result size.".

Definition cartesianProduct : Finding :=
  mkFinding "CARTESIAN_PRODUCT" "Query may produce cartesian product"
    warning "Ensure proper JOIN conditions between tables.".

Definition expensiveWarning (op : string) : Finding :=
  mkFinding "EXPENSIVE_OPERATION"
    ("Potentially expensive operation detected: " ++ op)
    warning "This operation may impact performance on large tables.".

Definition when {A} (c : bool) (l : list A) : list A := if c then l else [].

(** [validate]: the two arrays [errors] and [warnings] are only ever pushed
    to, so each is the concatenation of what the successive checks push. *)
Definition validate (query : string) : ValidationResult :=
  let normalizedQuery := Str.toUpperCase (Str.trim query) in
  let queryType := detectQueryType query in
  let isMutation := isMutationQuery queryType in
  let dangerousOps := detectDangerousOperations normalizedQuery in
  let noWhere := isMutation && negb (Str.includes normalizedQuery "WHERE") in
  let errors :=
    when (0 <? length dangerousOps)%nat (map dangerousError dangerousOps)
    ++ when (noWhere && QueryType_eqb queryType DELETE) [deleteWithoutWhere] in
  let warnings :=
    detectInjectionPatterns query
    ++ when (noWhere && negb (QueryType_eqb queryType DELETE)
             && QueryType_eqb queryType UPDATE) [updateWithoutWhere]
    ++ when (Str.includes normalizedQuery "SELECT *") [selectStar]
    ++ when (QueryType_eqb queryType SELECT
             && negb (Str.includes normalizedQuery "LIMIT")) [missingLimit]
    ++ when (hasCartesianProduct normalizedQuery) [cartesianProduct]
    ++ map expensiveWarning (detectExpensiveOperations normalizedQuery) in
  let tablesAccessed := extractTableNames query in
  let estimatedComplexity := estimateComplexity normalizedQuery in
  let requiresConfirmation :=
    isMutation || (0 <? length dangerousOps)%nat || (0 <? length errors)%nat in
  mkResult
    ((length errors =? 0)%nat)
    errors
    warnings
    (mkMetadata queryType isMutation tablesAccessed estimatedComplexity
       requiresConfirmation).

End QueryValidator.

(* ------------------------------------------------------------------ *)
(** ** Numbers and arrays *)

Module Num.

Inductive number : Type :=
| NaN
| PosInf
| NegInf
| Fin (q : Q).

Definition ofZ (z : Z) : number := Fin (inject_Z z).
Definition ofNat (n : nat) : number := ofZ (Z.of_nat n).

(** [!x] is [negb (truthy x)]: zero and NaN are falsy. *)
Definition truthy (x : number) : bool :=
  match x with
  | NaN => false
  | Fin q => negb (Qeq_bool q 0)
  | PosInf | NegInf => true
  end.

(** [x < y]; every comparison with NaN is false. *)
Definition ltb (x y : number) : bool :=
  match x, y with
  | NaN, _ | _, NaN => false
  | _, NegInf => false
  | NegInf, _ => true
  | PosInf, _ => false
  | Fin _, PosInf => true
  | Fin a, Fin c => negb (Qle_bool c a)
  end.

Definition gtb (x y : number) : bool := ltb y x.

(** [x <= y]. *)
Definition leb (x y : number) : bool :=
  match x, y with
  | NaN, _ | _, NaN => false
  | NegInf, _ => true
  | _, PosInf => true
  | _, NegInf => false
  | PosInf, _ => false
  | Fin a, Fin c => Qle_bool a c
  end.

(** Rounding towards zero. *)
Definition truncate (q : Q) : Z :=
  if Qle_bool 0 q then Qround.Qfloor q else Qround.Qceiling q.

(** [Some z] when the number is the integer [z]. *)
Definition asInteger (x : number) : option Z :=
  match x with
  | Fin q =>
      if Qeq_bool q (inject_Z (Qround.Qfloor q)) then Some (Qround.Qfloor q)
      else None
  | _ => None
  end.

End Num.

Module Arr.
Import Num.

(** [arr.slice(0, stop)]: [stop] is rounded towards zero (NaN counts as 0),
    a negative [stop] counts from the end, and the result is clamped to
    the array. *)
Definition slice0 {A} (arr : list A) (stop : number) : list A :=
  let len := Z.of_nat (length arr) in
  let final :=
    match stop with
    | NaN => 0%Z
    | NegInf => 0%Z
    | PosInf => len
    | Fin q =>
        let relativeEnd := truncate q in
        if (relativeEnd <? 0)%Z then Z.max (len + relativeEnd) 0
        else Z.min relativeEnd len
    end in
  firstn (Z.to_nat final) arr.

End Arr.

(** [a || b] on strings that may be undefined: the empty string is falsy. *)
Definition orString (a : option string) (dflt : string) : string :=
  match a with
  | Some EmptyString | None => dflt
  | Some v => v
  end.

(** [a || b] on numbers that may be null. *)
Definition orNumber (a : option Num.number) (dflt : Num.number) : Num.number :=
  match a with
  | Some v => if Num.truthy v then v else dflt
  | None => dflt
  end.

(** A template literal prints an undefined value as [undefined]. *)
Definition showString (a : option string) : string :=
  match a with Some v => v | None => "undefined" end.

(** A record with integer keys, indexed by a number: the key of a number
    that is not an integer is not among them. *)
Fixpoint assocZ (table : list (Z * string)) (z : Z) : option string :=
  match table with
  | [] => None
  | (k, v) :: table' => if (k =? z)%Z then Some v else assocZ table' z
  end.

Definition lookupType (table : list (Z * string)) (x : Num.number)
  : option string :=
  match Num.asInteger x with
  | Some z => assocZ table z
  | None => None
  end.

(* ------------------------------------------------------------------ *)
(** ** Maps in insertion order *)

Module JSMap.
Section Map.
Variables K V : Type.
Variable eqb : K -> K -> bool.

Definition t : Type := list (K * V).

Definition empty : t := [].

Definition has (m : t) (k : K) : bool :=
  existsb (fun kv => eqb (fst kv) k) m.

Definition get (m : t) (k : K) : option V :=
  option_map snd (find (fun kv => eqb (fst kv) k) m).

(** [m.set(k, v)]: a new key goes to the end, an old one keeps its place. *)
Definition set (m : t) (k : K) (v : V) : t :=
  if has m k
  then map (fun kv => if eqb (fst kv) k then (fst kv, v) else kv) m
  else m ++ [(k, v)].

(** [m.get(k)] hands out the stored object itself, so an update of that
    object is an update of the entry. *)
Definition modify (m : t) (k : K) (f : V -> V) : t :=
  map (fun kv => if eqb (fst kv) k then (fst kv, f (snd kv)) else kv) m.

Definition keys (m : t) : list K := map fst m.
Definition values (m : t) : list V := map snd m.

(** The loop shared by the introspection functions:
<<
    for (const row of rows) {
      if (!m.has(key(row))) m.set(key(row), init(row));
      const e = m.get(key(row))!;  push(row, e);
    }
>> *)
Section Group.
Variable R : Type.
Variable key : R -> K.
Variable init : R -> V.
Variable push : R -> V -> V.

Definition groupStep (m : t) (row : R) : t :=
  let m := if negb (has m (key row)) then set m (key row) (init row) else m in
  modify m (key row) (push row).

Definition group (rows : list R) : t := fold_left groupStep rows empty.

End Group.
End Map.
End JSMap.

(* ------------------------------------------------------------------ *)
(** ** The canonical schema and result types ([types.ts]) *)

Inductive Order : Type := ASC | DESC.

Record IndexColumn : Type := mkIndexColumn {
  ic_name : string;
  ic_order : Order
}.

Record IndexSchema : Type := mkIndexSchema {
  ix_name : string;
  ix_columns : list IndexColumn;
  ix_isUnique : bool;
  ix_isPrimary : bool;
  ix_type : string
}.

Record ForeignKeyConstraint : Type := mkForeignKey {
  fk_name : string;
  fk_columns : list string;
  fk_referencedTable : string;
  fk_referencedSchema : string;
  fk_referencedColumns : list string;
  fk_onDelete : string;
  fk_onUpdate : string
}.

Record FieldInfo : Type := mkFieldInfo {
  fi_name : string;
  fi_dataType : string
}.

(** [QueryResult] without the elapsed time and the optional plan. *)
Record QueryResult (Row : Type) : Type := mkQueryResult {
  rows : list Row;
  rowCount : Num.number;
  fields : list FieldInfo
}.

Record TableStatistics : Type := mkTableStatistics {
  ts_tableName : string;
  ts_rowCount : Num.number;
  ts_sizeBytes : Num.number;
  ts_indexSizeBytes : Num.number
}.

Record DatabaseConfig : Type := mkConfig {
  cfg_host : option string;
  cfg_database : option string;
  cfg_user : option string
}.

(** A call either returns or throws an [Error] with a message. *)
Inductive Outcome (A : Type) : Type :=
| Returns (a : A)
| Throws (msg : string).
Arguments Returns {A} a.
Arguments Throws {A} msg.

(* ------------------------------------------------------------------ *)
(** ** The validator with its run-time errors

    [QueryValidator] above is written as if no value were ever missing.
    Here [validate] is written again with what JavaScript does when one is:
    reading [split] of a capture group that took no part in the match throws
    a [TypeError], [matchAll] throws one for a pattern without the [g] flag,
    and [tables.add(match[1])] adds [undefined] when the group is undefined.
    Everything else in [validate] is string tests, pushes to arrays and loops
    over arrays of literals, none of which can throw. *)

Module ValidatorRuntime.
Module QV := QueryValidator.
Import Regex.

Definition bind {A B} (o : Outcome A) (f : A -> Outcome B) : Outcome B :=
  match o with
  | Returns a => f a
  | Throws msg => Throws msg
  end.

(** [QueryMetadata] and [ValidationResult] as the run-time values they are:
    an entry of [tablesAccessed] may be [undefined]. *)
Record QueryMetadata : Type := mkMetadata {
  queryType : QV.QueryType;
  isMutation : bool;
  tablesAccessed : list (option string);
  estimatedComplexity : QV.Complexity;
  requiresConfirmation : bool
}.

Record ValidationResult : Type := mkResult {
  isValid : bool;
  errors : list QV.Finding;
  warnings : list QV.Finding;
  metadata : QueryMetadata
}.

(** [fromMatch[1].split(',')] reads a property of [fromMatch[1]]. *)
Definition hasCartesianProduct (query : string) : Outcome bool :=
  match exec QV.fromClause query with
  | None => Returns false
  | Some fromMatch =>
      match group1 fromMatch with
      | None => Throws "Cannot read properties of undefined (reading 'split')"
      | Some group =>
          let tables := map Str.trim (Str.split "," group) in
          if (1 <? length tables)%nat && negb (Str.includes query "JOIN")
          then Returns true else Returns false
      end
  end.

(** [str.matchAll(re)]. *)
Definition matchAll (global : bool) (r : regex) (str : string)
  : Outcome (list Match) :=
  if global then Returns (Regex.matchAll r str)
  else
    Throws "String.prototype.matchAll called with a non-global RegExp argument".

(** Equality of set elements. *)
Definition sameValue (a c : option string) : bool :=
  match a, c with
  | Some x, Some y => String.eqb x y
  | None, None => true
  | _, _ => false
  end.

Definition setAdd (tables : list (option string)) (t : option string)
  : list (option string) :=
  if existsb (sameValue t) tables then tables else tables ++ [t].

(** One loop of [extractTableNames]; the five patterns all carry [gi]. *)
Definition addMatches (r : regex) (query : string)
  (tables : list (option string)) : Outcome (list (option string)) :=
  bind (matchAll true r query) (fun matches =>
  Returns (fold_left (fun acc m => setAdd acc (group1 m)) matches tables)).

Definition extractTableNames (query : string) : Outcome (list (option string)) :=
  bind (addMatches (seq [lit "FROM"; Plus s; QV.tableName]) query [])
    (fun tables =>
  bind (addMatches (seq [lit "JOIN"; Plus s; QV.tableName]) query tables)
    (fun tables =>
  bind (addMatches
          (seq [lit "INSERT"; Plus s; lit "INTO"; Plus s; QV.tableName])
          query tables)
    (fun tables =>
  bind (addMatches (seq [lit "UPDATE"; Plus s; QV.tableName]) query tables)
    (fun tables =>
  bind (addMatches
          (seq [lit "DELETE"; Plus s; lit "FROM"; Plus s; QV.tableName])
          query tables)
    (fun tables =>
  Returns tables))))).

Definition validate (query : string) : Outcome ValidationResult :=
  let normalizedQuery := Str.toUpperCase (Str.trim query) in
  let queryType := QV.detectQueryType query in
  let isMutation := QV.isMutationQuery queryType in
  let dangerousOps := QV.detectDangerousOperations normalizedQuery in
  let noWhere := isMutation && negb (Str.includes normalizedQuery "WHERE") in
  let errors :=
    QV.when (0 <? length dangerousOps)%nat (map QV.dangerousError dangerousOps)
    ++ QV.when (noWhere && QV.QueryType_eqb queryType QV.DELETE)
         [QV.deleteWithoutWhere] in
  bind (hasCartesianProduct normalizedQuery) (fun cartesian =>
  let warnings :=
    QV.detectInjectionPatterns query
    ++ QV.when (noWhere && negb (QV.QueryType_eqb queryType QV.DELETE)
                && QV.QueryType_eqb queryType QV.UPDATE) [QV.updateWithoutWhere]
    ++ QV.when (Str.includes normalizedQuery "SELECT *") [QV.selectStar]
    ++ QV.when (QV.QueryType_eqb queryType QV.SELECT
                && negb (Str.includes normalizedQuery "LIMIT")) [QV.missingLimit]
    ++ QV.when cartesian [QV.cartesianProduct]
    ++ map QV.expensiveWarning (QV.detectExpensiveOperations normalizedQuery) in
  bind (extractTableNames query) (fun tablesAccessed =>
  let estimatedComplexity := QV.estimateComplexity normalizedQuery in
  let requiresConfirmation :=
    isMutation || (0 <? length dangerousOps)%nat || (0 <? length errors)%nat in
  Returns
    (mkResult
       ((length errors =? 0)%nat)
       errors
       warnings
       (mkMetadata queryType isMutation tablesAccessed estimatedComplexity
          requiresConfirmation)))).

(** A result in which every table name is defined. *)
Definition ofResult (r : QV.ValidationResult) : ValidationResult :=
  mkResult (QV.isValid r) (QV.errors r) (QV.warnings r)
    (mkMetadata (QV.queryType (QV.metadata r)) (QV.isMutation (QV.metadata r))
       (map Some (QV.tablesAccessed (QV.metadata r)))
       (QV.estimatedComplexity (QV.metadata r))
       (QV.requiresConfirmation (QV.metadata r))).

End ValidatorRuntime.

(* ------------------------------------------------------------------ *)
(** ** [BaseDatabaseClient] *)

Module BaseDatabaseClient.
Import Num.

Definition normalizeMaxRows (maxRows : option number) : number :=
  let defaultMaxRows := ofZ 1000 in
  let absoluteMaxRows := ofZ 10000 in
  match maxRows with
  | None => defaultMaxRows
  | Some maxRows =>
      if negb (truthy maxRows) then defaultMaxRows
      else if ltb maxRows (ofZ 0) then defaultMaxRows
      else if gtb maxRows absoluteMaxRows then absoluteMaxRows
      else maxRows
  end.

Record TableName : Type := mkTableName {
  schema : string;
  table : string
}.

Definition parseTableName (tableName : string) : TableName :=
  let parts := Str.split "." tableName in
  if (length parts =? 2)%nat
  then mkTableName (nth 0 parts "") (nth 1 parts "")
  else mkTableName "public" (nth 0 parts "").

End BaseDatabaseClient.

(* ------------------------------------------------------------------ *)
(** ** [MySQLClient] *)

Module MySQLClient.
Import Num BaseDatabaseClient.

(** MySQL type constants from mysql2. *)
Definition typeMap : list (Z * string) :=
  [ (0, "decimal"); (1, "tiny"); (2, "short"); (3, "long"); (4, "float");
    (5, "double"); (7, "timestamp"); (8, "longlong"); (9, "int24");
    (10, "date"); (11, "time"); (12, "datetime"); (13, "year");
    (15, "varchar"); (16, "bit"); (245, "json"); (246, "decimal");
    (247, "enum"); (248, "set"); (249, "tiny_blob"); (250, "medium_blob");
    (251, "long_blob"); (252, "blob"); (253, "var_string"); (254, "string");
    (255, "geometry") ]%Z.

Definition mapMySQLType (type : option number) : string :=
  match type with
  | None => "unknown"
  | Some type => orString (lookupType typeMap type) "unknown"
  end.

Record FieldPacket : Type := mkFieldPacket {
  f_name : string;
  f_type : option number
}.

(** [query], after the driver answered with [rows] and [fields]. *)
Definition query {Row} (maxRows : option number)
  (rows : list Row) (fields : list FieldPacket) : QueryResult Row :=
  let maxRows := normalizeMaxRows maxRows in
  let limitedRows := Arr.slice0 rows maxRows in
  mkQueryResult limitedRows (ofNat (length rows))
    (map (fun f => mkFieldInfo (f_name f) (mapMySQLType (f_type f))) fields).

(** A row of [information_schema.STATISTICS]. *)
Record IndexRow : Type := mkIndexRow {
  INDEX_NAME : string;
  NON_UNIQUE : Z;
  COLUMN_NAME : string;
  SEQ_IN_INDEX : Z;
  COLLATION : option string;
  INDEX_TYPE : string;
  is_primary : Z
}.

Definition newIndex (row : IndexRow) : IndexSchema :=
  mkIndexSchema (INDEX_NAME row) [] (NON_UNIQUE row =? 0)%Z
    (is_primary row =? 1)%Z (INDEX_TYPE row).

Definition indexColumn (row : IndexRow) : IndexColumn :=
  mkIndexColumn (COLUMN_NAME row)
    (match COLLATION row with
     | Some c => if String.eqb c "A" then ASC else DESC
     | None => DESC
     end).

Definition pushIndexColumn (row : IndexRow) (index : IndexSchema)
  : IndexSchema :=
  mkIndexSchema (ix_name index) (ix_columns index ++ [indexColumn row])
    (ix_isUnique index) (ix_isPrimary index) (ix_type index).

(** [introspectIndexes], after the catalog answered with [rows]. *)
Definition introspectIndexes (rows : list IndexRow) : list IndexSchema :=
  JSMap.values
    (JSMap.group String.eqb INDEX_NAME newIndex pushIndexColumn rows).

(** A row of [KEY_COLUMN_USAGE] joined with [REFERENTIAL_CONSTRAINTS]. *)
Record ForeignKeyRow : Type := mkForeignKeyRow {
  CONSTRAINT_NAME : string;
  FK_COLUMN_NAME : string;
  REFERENCED_TABLE_SCHEMA : string;
  REFERENCED_TABLE_NAME : string;
  REFERENCED_COLUMN_NAME : string;
  UPDATE_RULE : string;
  DELETE_RULE : string
}.

Definition newForeignKey (row : ForeignKeyRow) : ForeignKeyConstraint :=
  mkForeignKey (CONSTRAINT_NAME row) [] (REFERENCED_TABLE_NAME row)
    (REFERENCED_TABLE_SCHEMA row) [] (DELETE_RULE row) (UPDATE_RULE row).

Definition pushForeignKeyColumn (row : ForeignKeyRow)
  (fk : ForeignKeyConstraint) : ForeignKeyConstraint :=
  mkForeignKey (fk_name fk) (fk_columns fk ++ [FK_COLUMN_NAME row])
    (fk_referencedTable fk) (fk_referencedSchema fk)
    (fk_referencedColumns fk ++ [REFERENCED_COLUMN_NAME row])
    (fk_onDelete fk) (fk_onUpdate fk).

(** [introspectForeignKeys], after the catalog answered with [rows]. *)
Definition introspectForeignKeys (rows : list ForeignKeyRow)
  : list ForeignKeyConstraint :=
  JSMap.values
    (JSMap.group String.eqb CONSTRAINT_NAME newForeignKey
       pushForeignKeyColumn rows).

(** A row of [information_schema.TABLES]. *)
Record TableRow : Type := mkTableRow {
  TABLE_NAME : string;
  TABLE_ROWS : number;
  DATA_LENGTH : number;
  INDEX_LENGTH : number;
  DATA_FREE : number
}.

(** The statement of [getTableStatistics] (layout white space dropped). *)
Definition statisticsQuery : string :=
  "SELECT TABLE_NAME, TABLE_ROWS, DATA_LENGTH, INDEX_LENGTH, DATA_FREE FROM information_schema.TABLES WHERE TABLE_SCHEMA = ? AND TABLE_NAME = ?;".

(** The values bound to the two placeholders of [statisticsQuery]. *)
Definition statisticsParams (tableName : string) : list string :=
  let tn := parseTableName tableName in
  [orString (Some (schema tn)) "public"; table tn].

(** [getTableStatistics]: [config] is the configuration of the client and
    [poolQuery] the pool the client is connected through. *)
Definition getTableStatistics (config : DatabaseConfig)
  (poolQuery : string -> list string -> list TableRow)
  (tableName : string) : Outcome TableStatistics :=
  let tn := parseTableName tableName in
  let rows := poolQuery statisticsQuery (statisticsParams tableName) in
  match rows with
  | [] => Throws ("Table " ++ tableName ++ " not found")
  | stats :: _ =>
      Returns (mkTableStatistics (table tn) (TABLE_ROWS stats)
                 (DATA_LENGTH stats) (INDEX_LENGTH stats))
  end.

End MySQLClient.

(* ------------------------------------------------------------------ *)
(** ** [SQLiteClient] *)

Module SQLiteClient.
Import Num BaseDatabaseClient.

Definition normalizeSQLiteType (sqliteType : string) : string :=
  let type := Str.toUpperCase sqliteType in
  if Str.includes type "INT" then "integer"
  else if Str.includes type "CHAR" || Str.includes type "TEXT"
          || Str.includes type "CLOB" then "text"
  else if Str.includes type "REAL" || Str.includes type "FLOA"
          || Str.includes type "DOUB" then "real"
  else if Str.includes type "BLOB" then "blob"
  else if Str.includes type "NUMERIC" || Str.includes type "DECIMAL"
       then "numeric"
  else if Str.includes type "BOOL" then "boolean"
  else if Str.includes type "DATE" || Str.includes type "TIME"
       then "datetime"
  else "blob".

Record ColumnDefinition : Type := mkColumnDefinition {
  col_name : string;
  col_type : option string
}.

(** What the prepared statement answers: [all()], [run().changes] and
    [columns()]. *)
Record Statement (Row : Type) : Type := mkStatement {
  all : list Row;
  changes : number;
  columns : list ColumnDefinition
}.

(** [query], given the prepared statement. *)
Definition query {Row} (queryText : string) (maxRows : option number)
  (stmt : Statement Row) : QueryResult Row :=
  let maxRows := normalizeMaxRows maxRows in
  let isSelect :=
    Str.startsWith (Str.toUpperCase (Str.trim queryText)) "SELECT" in
  let '(rows, rowCount) :=
    if isSelect
    then (Arr.slice0 (all stmt) maxRows, ofNat (length (all stmt)))
    else ([], changes stmt) in
  let columns := if isSelect then columns stmt else [] in
  mkQueryResult rows rowCount
    (map (fun col => mkFieldInfo (col_name col)
                       (orString (col_type col) "unknown")) columns).

(** A row of [PRAGMA foreign_key_list]. *)
Record ForeignKeyRow : Type := mkForeignKeyRow {
  id : Z;
  seq : Z;
  fk_table : string;
  from : string;
  to : string;
  on_update : string;
  on_delete : string;
  fk_match : string
}.

Definition showZ (z : Z) : string :=
  DecimalString.NilZero.string_of_int (Z.to_int z).

Definition newForeignKey (table : string) (fk : ForeignKeyRow)
  : ForeignKeyConstraint :=
  mkForeignKey ("fk_" ++ table ++ "_" ++ showZ (id fk)) [] (fk_table fk)
    "main" [] (on_delete fk) (on_update fk).

Definition pushForeignKeyColumn (fk : ForeignKeyRow)
  (constraint : ForeignKeyConstraint) : ForeignKeyConstraint :=
  mkForeignKey (fk_name constraint) (fk_columns constraint ++ [from fk])
    (fk_referencedTable constraint) (fk_referencedSchema constraint)
    (fk_referencedColumns constraint ++ [to fk])
    (fk_onDelete constraint) (fk_onUpdate constraint).

(** [introspectForeignKeys], after the pragma answered with [fks]. *)
Definition introspectForeignKeys (table : string) (fks : list ForeignKeyRow)
  : list ForeignKeyConstraint :=
  JSMap.values
    (JSMap.group Z.eqb id (newForeignKey table) pushForeignKeyColumn fks).

End SQLiteClient.

(* ------------------------------------------------------------------ *)
(** ** [PostgreSQLClient] *)

Module PostgreSQLClient.
Import Num BaseDatabaseClient.

(** Mapping of PostgreSQL OIDs to type names. *)
Definition typeMap : list (Z * string) :=
  [ (16, "boolean"); (17, "bytea"); (20, "bigint"); (21, "smallint");
    (23, "integer"); (25, "text"); (700, "real"); (701, "double precision");
    (1042, "character"); (1043, "varchar"); (1082, "date"); (1083, "time");
    (1114, "timestamp"); (1184, "timestamptz"); (2950, "uuid");
    (3802, "jsonb") ]%Z.

Definition mapPostgreSQLType (oid : number) : string :=
  orString (lookupType typeMap oid) "unknown".

Record FieldDef : Type := mkFieldDef {
  fd_name : string;
  dataTypeID : number
}.

(** What the driver answers. *)
Record PgQueryResult (Row : Type) : Type := mkPgQueryResult {
  pg_rows : list Row;
  pg_rowCount : option number;
  pg_fields : list FieldDef
}.

(** [query], after the driver answered with [result]. *)
Definition query {Row} (maxRows : option number)
  (result : PgQueryResult Row) : QueryResult Row :=
  let maxRows := normalizeMaxRows maxRows in
  let rows := Arr.slice0 (pg_rows result) maxRows in
  mkQueryResult rows (orNumber (pg_rowCount result) (ofZ 0))
    (map (fun f => mkFieldInfo (fd_name f)
                     (mapPostgreSQLType (dataTypeID f))) (pg_fields result)).

(** A row of the foreign-key catalog query. *)
Record ForeignKeyRow : Type := mkForeignKeyRow {
  constraint_name : string;
  column_name : string;
  foreign_table_schema : string;
  foreign_table_name : string;
  foreign_column_name : string;
  update_rule : string;
  delete_rule : string
}.

Definition newForeignKey (row : ForeignKeyRow) : ForeignKeyConstraint :=
  mkForeignKey (constraint_name row) [] (foreign_table_name row)
    (foreign_table_schema row) [] (delete_rule row) (update_rule row).

Definition pushForeignKeyColumn (row : ForeignKeyRow)
  (fk : ForeignKeyConstraint) : ForeignKeyConstraint :=
  mkForeignKey (fk_name fk) (fk_columns fk ++ [column_name row])
    (fk_referencedTable fk) (fk_referencedSchema fk)
    (fk_referencedColumns fk ++ [foreign_column_name row])
    (fk_onDelete fk) (fk_onUpdate fk).

(** [introspectForeignKeys], after the catalog answered with [rows]. *)
Definition introspectForeignKeys (rows : list ForeignKeyRow)
  : list ForeignKeyConstraint :=
  JSMap.values
    (JSMap.group String.eqb constraint_name newForeignKey
       pushForeignKeyColumn rows).

(** A node of the JSON plan: the properties the recommendation pass reads.
    A node without [Plans] has no children. *)
#[local] Unset Elimination Schemes.
Inductive Plan : Type :=
| PlanNode (nodeType : string) (planRows : number)
    (relationName : option string) (plans : list Plan).
#[local] Set Elimination Schemes.

Definition NodeType (p : Plan) : string :=
  match p with PlanNode t _ _ _ => t end.
Definition PlanRows (p : Plan) : number :=
  match p with PlanNode _ r _ _ => r end.
Definition RelationName (p : Plan) : option string :=
  match p with PlanNode _ _ n _ => n end.
Definition Plans (p : Plan) : list Plan :=
  match p with PlanNode _ _ _ ps => ps end.

Definition indexRecommendation (relation : option string) : string :=
  "Consider adding an index on " ++ showString relation
  ++ " to avoid sequential scan".

Definition nestedLoopRecommendation : string :=
  "Nested loop with high row count detected. Consider using a hash join instead.".

Definition isLargeSeqScan (p : Plan) : bool :=
  String.eqb (NodeType p) "Seq Scan" && gtb (PlanRows p) (ofZ 1000).

Definition isLargeNestedLoop (p : Plan) : bool :=
  String.eqb (NodeType p) "Nested Loop" && gtb (PlanRows p) (ofZ 10000).

Fixpoint generateRecommendations (plan : Plan) : list string :=
  match plan with
  | PlanNode _ _ _ children =>
      (if isLargeSeqScan plan
       then [indexRecommendation (RelationName plan)] else [])
      ++ (if isLargeNestedLoop plan then [nestedLoopRecommendation] else [])
      ++ flat_map generateRecommendations children
  end.

End PostgreSQLClient.

(* ================================================================== *)
(** * Properties *)

(* ------------------------------------------------------------------ *)
(** ** The matcher *)

Module RegexFacts.
Import Regex.

(** The loop of [Star] and [Plus] with the counter as an argument. *)
Definition iterate (r : regex) (k : state -> option state)
  : nat -> state -> option state :=
  fix loop (n : nat) (st : state) {struct n} : option state :=
    match n with
    | O => k st
    | S n' =>
        orElse
          (run r st (fun st' =>
             if (length (rest st') <? length (rest st))%nat
             then loop n' st' else None))
          (k st)
    end.

Lemma iterate_O (r : regex) (k : state -> option state) (st : state) :
  iterate r k 0 st = k st.
Proof. reflexivity. Qed.

Lemma iterate_S (r : regex) (k : state -> option state) (n : nat)
  (st : state) :
  iterate r k (S n) st
  = orElse
      (run r st (fun st' =>
         if (length (rest st') <? length (rest st))%nat
         then iterate r k n st' else None))
      (k st).
Proof. reflexivity. Qed.

Lemma run_Star (r : regex) (st : state) (k : state -> option state) :
  run (Star r) st k = iterate r k (length (rest st)) st.
Proof. reflexivity. Qed.

Lemma run_Plus (r : regex) (st : state) (k : state -> option state) :
  run (Plus r) st k
  = run r st (fun st1 => iterate r k (length (rest st1)) st1).
Proof. reflexivity. Qed.

Lemma iterate_ext (r : regex) (k1 k2 : state -> option state) :
  (forall k k' st, (forall st', k st' = k' st') -> run r st k = run r st k') ->
  (forall st, k1 st = k2 st) ->
  forall n st, iterate r k1 n st = iterate r k2 n st.
Proof.
  intros Hr Hk n. induction n as [|n IH]; intros st.
  - rewrite !iterate_O. apply Hk.
  - rewrite !iterate_S, Hk. f_equal. apply Hr. intros st'.
    destruct (_ <? _)%nat; [apply IH | reflexivity].
Qed.

(** The result depends on the continuation through its values only. *)
Lemma run_ext (r : regex) :
  forall k k' st, (forall st', k st' = k' st') -> run r st k = run r st k'.
Proof.
  induction r as [|p|r1 IH1 r2 IH2|r1 IH1 r2 IH2|r IH|r IH|r IH| | |r IH];
    intros k k' st Hk; cbn [run].
  - apply Hk.
  - destruct (rest st) as [|c s']; [reflexivity|].
    destruct (p c); [apply Hk | reflexivity].
  - apply IH1. intros st'. apply IH2, Hk.
  - rewrite (IH1 k k' st Hk), (IH2 k k' st Hk). reflexivity.
  - change (iterate r k (length (rest st)) st
            = iterate r k' (length (rest st)) st).
    apply iterate_ext; assumption.
  - apply IH. intros st1.
    change (iterate r k (length (rest st1)) st1
            = iterate r k' (length (rest st1)) st1).
    apply iterate_ext; assumption.
  - rewrite (IH k k' st Hk), Hk. reflexivity.
  - rewrite Hk. reflexivity.
  - destruct (rest st); [apply Hk | reflexivity].
  - apply IH. intros st'. apply Hk.
Qed.

(** A continuation that always fails makes the match fail. *)
Lemma run_fail (r : regex) :
  forall k st, (forall st', k st' = None) -> run r st k = None.
Proof.
  induction r as [|p|r1 IH1 r2 IH2|r1 IH1 r2 IH2|r IH|r IH|r IH| | |r IH];
    intros k st Hk; cbn [run].
  - apply Hk.
  - destruct (rest st) as [|c s']; [reflexivity|].
    destruct (p c); [apply Hk | reflexivity].
  - apply IH1. intros st'. apply IH2, Hk.
  - rewrite (IH1 k st Hk), (IH2 k st Hk). reflexivity.
  - change (iterate r k (length (rest st)) st = None).
    generalize (length (rest st)) as n. intros n. revert st.
    induction n as [|n IHn]; intros st; [rewrite iterate_O; apply Hk|].
    rewrite iterate_S, Hk, IH; [reflexivity|].
    intros st'. destruct (_ <? _)%nat; [apply IHn | reflexivity].
  - apply IH. intros st1.
    change (iterate r k (length (rest st1)) st1 = None).
    generalize (length (rest st1)) as n. intros n. revert st1.
    induction n as [|n IHn]; intros st1; [rewrite iterate_O; apply Hk|].
    rewrite iterate_S, Hk, IH; [reflexivity|].
    intros st'. destruct (_ <? _)%nat; [apply IHn | reflexivity].
  - rewrite (IH k st Hk), Hk. reflexivity.
  - rewrite Hk. destruct (xorb _ _); reflexivity.
  - destruct (rest st); [apply Hk | reflexivity].
  - apply IH. intros st'. apply Hk.
Qed.

(** The counter of the loop never cuts an iteration short: any counter that
    is at least the length of the remaining input gives the same result. *)
Lemma iterate_enough (r : regex) (k : state -> option state) (n : nat) :
  forall m st, (m <= n)%nat -> (length (rest st) <= m)%nat ->
    iterate r k m st = iterate r k (length (rest st)) st.
Proof.
  induction n as [|n IH]; intros m st Hm Hlen.
  - assert (m = 0%nat) as -> by lia.
    assert (length (rest st) = 0%nat) as -> by lia. reflexivity.
  - destruct m as [|m].
    { assert (length (rest st) = 0%nat) as -> by lia. reflexivity. }
    rewrite iterate_S.
    destruct (length (rest st)) as [|l] eqn:El.
    + rewrite iterate_O, run_fail; [reflexivity|]. intros st'. reflexivity.
    + rewrite iterate_S, El. f_equal. apply run_ext. intros st'.
      destruct (Nat.ltb_spec (length (rest st')) (S l)) as [Hlt|_];
        [|reflexivity].
      rewrite (IH m st') by lia. rewrite (IH l st') by lia. reflexivity.
Qed.

(** Greedy repetition gives back what the rest of the pattern needs. *)
Example star_backtracks :
  option_map text (exec (seq [Star (chr "a"); lit "ab"]) "xaaab")
  = Some "aaab".
Proof. reflexivity. Qed.

Example word_boundary :
  test (seq [b; lit "OR"; b]) "A OR B" = true
  /\ test (seq [b; lit "OR"; b]) "ORDER" = false.
Proof. split; reflexivity. Qed.

Example global_matches_do_not_overlap :
  map index (matchAll (lit "aa") "aaaaa") = [0; 2]%nat.
Proof. reflexivity. Qed.

Example capture_group :
  option_map group1
    (exec QueryValidator.fromClause "SELECT A FROM T1, T2 WHERE X = 1")
  = Some (Some "T1, T2 ")
  /\ option_map group1
       (exec QueryValidator.fromClause "SELECT A FROM T1, T2 WHERE X")
     = Some (Some "T1, T2 WHERE X").
Proof. split; reflexivity. Qed.

(** *** Capture groups that always take part

    A pattern [captures] when the group lies on every path through it: in a
    sequence one part is enough, in an alternation both sides are needed, and
    what may be skipped ([*], [?]) does not count. *)
Fixpoint captures (r : regex) : bool :=
  match r with
  | Group _ => true
  | Seq r1 r2 => captures r1 || captures r2
  | Alt r1 r2 => captures r1 && captures r2
  | Plus r1 => captures r1
  | Empty | Class _ | Star _ | Opt _ | WordBoundary | EndOfInput => false
  end.

Definition captured (st : state) : Prop := cap st <> None.

(** Where a successful run handed over to its continuation. *)
Definition reaches (k : state -> option state) (res : state)
  (wasCaptured : Prop) : Prop :=
  exists st', k st' = Some res /\ (wasCaptured -> captured st').

Lemma orElse_Some {A} (a c : option A) (x : A) :
  orElse a c = Some x -> a = Some x \/ c = Some x.
Proof. destruct a; cbn; intros H; [left | right]; exact H. Qed.

Lemma iterate_reaches (r : regex) (k : state -> option state) (res : state) :
  (forall st k', run r st k' = Some res -> reaches k' res (captured st)) ->
  forall n st, iterate r k n st = Some res -> reaches k res (captured st).
Proof.
  intros Hr n. induction n as [|n IH]; intros st H.
  - exists st. rewrite iterate_O in H. split; [exact H | auto].
  - rewrite iterate_S in H. apply orElse_Some in H. destruct H as [H | H].
    + apply Hr in H. destruct H as [st1 [H C1]].
      destruct (_ <? _)%nat; [|discriminate].
      apply IH in H. destruct H as [st2 [H C2]].
      exists st2. split; [exact H | auto].
    + exists st. split; [exact H | auto].
Qed.

(** A successful run calls its continuation, and the group is set by then
    if it was set before or if the pattern captures. *)
Lemma run_reaches (r : regex) :
  forall st k res, run r st k = Some res ->
    reaches k res (captured st \/ captures r = true).
Proof.
  induction r as [|p|r1 IH1 r2 IH2|r1 IH1 r2 IH2|r IH|r IH|r IH| | |r IH];
    intros st k res H; unfold reaches in *.
  - exists st. split; [exact H|]. intros [C | C]; [exact C | discriminate].
  - cbn [run] in H. destruct (rest st) as [|c s']; [discriminate|].
    destruct (p c); [|discriminate].
    eexists. split; [exact H|]. intros [C | C]; [exact C | discriminate].
  - cbn [run] in H. apply IH1 in H. destruct H as [st1 [H C1]].
    apply IH2 in H. destruct H as [st2 [H C2]].
    exists st2. split; [exact H|]. cbn [captures]. rewrite orb_true_iff.
    intros [C | [C | C]]; auto.
  - cbn [run] in H. cbn [captures].
    apply orElse_Some in H. destruct H as [H | H].
    + apply IH1 in H. destruct H as [st1 [H C1]].
      exists st1. split; [exact H|]. rewrite andb_true_iff.
      intros [C | [C _]]; auto.
    + apply IH2 in H. destruct H as [st2 [H C2]].
      exists st2. split; [exact H|]. rewrite andb_true_iff.
      intros [C | [_ C]]; auto.
  - rewrite run_Star in H. apply iterate_reaches in H.
    + destruct H as [st1 [H C1]]. exists st1. split; [exact H|].
      intros [C | C]; [auto | discriminate].
    + intros st0 k' H0. apply IH in H0. destruct H0 as [st1 [H0 C1]].
      exists st1. split; [exact H0 | auto].
  - rewrite run_Plus in H. apply IH in H. destruct H as [st1 [H C1]].
    apply iterate_reaches in H.
    + destruct H as [st2 [H C2]]. exists st2. split; [exact H|].
      cbn [captures]. auto.
    + intros st0 k' H0. apply IH in H0. destruct H0 as [st2 [H0 C2]].
      exists st2. split; [exact H0 | auto].
  - cbn [run] in H. apply orElse_Some in H. destruct H as [H | H].
    + apply IH in H. destruct H as [st1 [H C1]].
      exists st1. split; [exact H|]. intros [C | C]; [auto | discriminate].
    + exists st. split; [exact H|]. intros [C | C]; [auto | discriminate].
  - cbn [run] in H. destruct (xorb _ _); [|discriminate].
    exists st. split; [exact H|]. intros [C | C]; [auto | discriminate].
  - cbn [run] in H. destruct (rest st); [|discriminate].
    exists st. split; [exact H|]. intros [C | C]; [auto | discriminate].
  - cbn [run] in H. apply IH in H. destruct H as [st1 [H _]].
    eexists. split; [exact H|]. intros _. unfold captured. cbn. discriminate.
Qed.

Lemma matchAt_group (r : regex) (p : option ascii) (i : nat) (s : list ascii)
  (m : Match) :
  captures r = true -> matchAt r p i s = Some m -> group1 m <> None.
Proof.
  intros Hr H. unfold matchAt in H.
  destruct (run r _ _) as [st'|] eqn:E; [|discriminate].
  apply run_reaches in E. destruct E as [st1 [E C]].
  injection E as <-. injection H as <-. cbn [group1].
  specialize (C (or_intror Hr)). unfold captured in C.
  destruct (cap st1); [discriminate | congruence].
Qed.

Lemma search_group (r : regex) (s : list ascii) :
  captures r = true ->
  forall p i m, search r p i s = Some m -> group1 m <> None.
Proof.
  intros Hr. induction s as [|c s IH]; intros p i m H; cbn [search] in H.
  - destruct (matchAt r p i []) eqn:E; [|discriminate].
    injection H as <-. exact (matchAt_group _ _ _ _ Hr E).
  - destruct (matchAt r p i (c :: s)) eqn:E.
    + injection H as <-. exact (matchAt_group _ _ _ _ Hr E).
    + exact (IH _ _ _ H).
Qed.

Lemma exec_group (r : regex) (str : string) (m : Match) :
  captures r = true -> exec r str = Some m -> group1 m <> None.
Proof. intros Hr H. eapply search_group; [exact Hr | exact H]. Qed.

Lemma scan_group (r : regex) (s : list ascii) :
  captures r = true ->
  forall p i skip, Forall (fun m => group1 m <> None) (scan r p i s skip).
Proof.
  intros Hr. induction s as [|c s IH]; intros p i skip.
  - destruct skip; cbn [scan]; [|constructor].
    destruct (matchAt r p i []) eqn:E; constructor;
      [exact (matchAt_group _ _ _ _ Hr E) | constructor].
  - destruct skip; cbn [scan]; [|apply IH].
    destruct (matchAt r p i (c :: s)) eqn:E; [|apply IH].
    constructor; [exact (matchAt_group _ _ _ _ Hr E) | apply IH].
Qed.

Lemma matchAll_group (r : regex) (str : string) :
  captures r = true ->
  Forall (fun m => group1 m <> None) (matchAll r str).
Proof. intros Hr. apply scan_group, Hr. Qed.

(** Without its group the same pattern matches and leaves group 1 undefined:
    the lemmas above are about where the group stands. *)
Example optional_group_may_be_undefined :
  option_map group1 (exec (seq [lit "FROM"; Opt (Group (Plus w))]) "FROM ")
  = Some None.
Proof. reflexivity. Qed.

End RegexFacts.

(* ------------------------------------------------------------------ *)
(** ** The query validator *)

Module ValidatorFacts.
Import QueryValidator.

(** The query [validate] hands to the pattern checks. *)
Definition normalize (query : string) : string :=
  Str.toUpperCase (Str.trim query).

Definition isErrorSeverity (f : Finding) : Prop :=
  severity f = error \/ severity f = critical.

Definition isWarningSeverity (f : Finding) : Prop :=
  severity f = warning \/ severity f = info.

Lemma when_Forall {A} (P : A -> Prop) (c : bool) (l : list A) :
  Forall P l -> Forall P (when c l).
Proof. destruct c; cbn; auto. Qed.

Lemma errors_critical (query : string) :
  Forall (fun f => severity f = critical) (errors (validate query)).
Proof.
  unfold validate; cbn [errors].
  apply Forall_app; split; apply when_Forall.
  - rewrite Forall_map. apply Forall_forall; intros; reflexivity.
  - constructor; [reflexivity | constructor].
Qed.

Lemma injection_warning_severity (query : string) :
  Forall isWarningSeverity (detectInjectionPatterns query).
Proof.
  unfold detectInjectionPatterns.
  rewrite Forall_map. apply Forall_forall; intros; left; reflexivity.
Qed.

Lemma single_warning (c : bool) (f : Finding) :
  isWarningSeverity f -> Forall isWarningSeverity (when c [f]).
Proof. intros; apply when_Forall; constructor; [assumption | constructor]. Qed.

Lemma warnings_not_errors (query : string) :
  Forall isWarningSeverity (warnings (validate query)).
Proof.
  unfold validate; cbn [warnings].
  apply Forall_app; split; [apply injection_warning_severity|].
  apply Forall_app; split; [apply single_warning; left; reflexivity|].
  apply Forall_app; split; [apply single_warning; right; reflexivity|].
  apply Forall_app; split; [apply single_warning; right; reflexivity|].
  apply Forall_app; split; [apply single_warning; left; reflexivity|].
  rewrite Forall_map. apply Forall_forall; intros; left; reflexivity.
Qed.

Lemma requiresConfirmation_eq (query : string) :
  requiresConfirmation (metadata (validate query))
  = isMutation (metadata (validate query))
    || (0 <? length (detectDangerousOperations (normalize query)))%nat
    || (0 <? length (errors (validate query)))%nat.
Proof. reflexivity. Qed.

Lemma length_pos_iff {A} (l : list A) : (0 <? length l)%nat = true <-> l <> [].
Proof.
  destruct l; cbn; split; intros; try congruence; try discriminate; auto.
Qed.

(** C8: for [UPDATE users SET active=false] the verdict is valid, there is no
    error, and the only warning is [UPDATE_WITHOUT_WHERE]. *)
Theorem validate_update_without_where :
  let r := validate "UPDATE users SET active=false" in
  isValid r = true
  /\ errors r = []
  /\ warnings r = [updateWithoutWhere]
  /\ map code (warnings r) = ["UPDATE_WITHOUT_WHERE"].
Proof. vm_compute. repeat split. Qed.

(** C1, evaluated: for [DELETE FROM users] the verdict is invalid, but the
    errors are two, both critical: [DANGEROUS_OPERATION] (the pattern
    [DELETE ALL ROWS]) first and [DELETE_WITHOUT_WHERE] second. *)
Theorem validate_delete_from_users :
  let r := validate "DELETE FROM users" in
  isValid r = false
  /\ detectDangerousOperations (normalize "DELETE FROM users")
     = ["DELETE ALL ROWS"]
  /\ errors r = [dangerousError "DELETE ALL ROWS"; deleteWithoutWhere]
  /\ map code (errors r) = ["DANGEROUS_OPERATION"; "DELETE_WITHOUT_WHERE"]
  /\ map severity (errors r) = [critical; critical]
  /\ length (errors r) = 2%nat
  /\ warnings r = [].
Proof. vm_compute. repeat split. Qed.

(** *** What the claim about confirmation speaks of

    Stated on the text of the query, not on the fields of the verdict: a
    mutation is a statement whose trimmed, upper-cased text begins with the
    keyword of a statement kind that changes data or schema; a dangerous
    pattern matched when one of the patterns of the catalogue is found in
    that text. *)
Definition mutationKeywords : list string :=
  ["INSERT"; "UPDATE"; "DELETE"; "CREATE"; "ALTER"; "DROP"; "TRUNCATE"].

Definition beginsWith (text keyword : string) : Prop :=
  exists tail : string, text = (keyword ++ tail)%string.

Definition IsMutationStatement (query : string) : Prop :=
  exists keyword,
    In keyword mutationKeywords /\ beginsWith (normalize query) keyword.

Definition DangerousPatternMatches (query : string) : Prop :=
  exists pattern name,
    In (pattern, name) dangerousPatterns
    /\ Regex.test pattern (normalize query) = true.

Definition ErrorFindingProduced (query : string) : Prop :=
  exists f, In f (errors (validate query) ++ warnings (validate query))
            /\ isErrorSeverity f.

Lemma startsWith_beginsWith (text keyword : string) :
  Str.startsWith text keyword = true <-> beginsWith text keyword.
Proof.
  unfold beginsWith. revert text.
  induction keyword as [|a p IH]; intros text.
  - split; [intros _; exists text; reflexivity|].
    intros _. destruct text; reflexivity.
  - destruct text as [|c text]; cbn [Str.startsWith append].
    + split; [discriminate | intros [tail H]; discriminate].
    + rewrite andb_true_iff, Ascii.eqb_eq, IH. split.
      * intros [-> [tail ->]]. exists tail. reflexivity.
      * intros [tail H]. injection H as -> ->. split; [reflexivity|].
        exists tail. reflexivity.
Qed.

Lemma startsWith_empty (text : string) :
  Str.startsWith text EmptyString = true.
Proof. destruct text; reflexivity. Qed.

Ltac keyword_found E :=
  intros _; eexists; split;
  [|apply startsWith_beginsWith; exact E]; cbn; tauto.

(** The statement kinds [isMutationQuery] accepts are those of the seven
    keywords: no text begins with [SELECT] and with one of them. *)
Lemma isMutation_keyword (query : string) :
  isMutationQuery (detectQueryType query) = true <-> IsMutationStatement query.
Proof.
  unfold IsMutationStatement, detectQueryType. fold (normalize query).
  split.
  - destruct (Str.startsWith (normalize query) "SELECT"); [discriminate|].
    destruct (Str.startsWith (normalize query) "INSERT") eqn:E1;
      [keyword_found E1|].
    destruct (Str.startsWith (normalize query) "UPDATE") eqn:E2;
      [keyword_found E2|].
    destruct (Str.startsWith (normalize query) "DELETE") eqn:E3;
      [keyword_found E3|].
    destruct (Str.startsWith (normalize query) "CREATE") eqn:E4;
      [keyword_found E4|].
    destruct (Str.startsWith (normalize query) "ALTER") eqn:E5;
      [keyword_found E5|].
    destruct (Str.startsWith (normalize query) "DROP") eqn:E6;
      [keyword_found E6|].
    destruct (Str.startsWith (normalize query) "TRUNCATE") eqn:E7;
      [keyword_found E7|].
    cbn [orb].
    destruct (_ || _ || _); discriminate.
  - intros [keyword [Hin [tail ->]]]. cbn [mutationKeywords In] in Hin.
    repeat (destruct Hin as [<- | Hin];
            [cbn; rewrite ?startsWith_empty; reflexivity|]).
    destruct Hin.
Qed.

Lemma dangerous_pattern (query : string) :
  detectDangerousOperations (normalize query) <> []
  <-> DangerousPatternMatches query.
Proof.
  unfold detectDangerousOperations, DangerousPatternMatches.
  generalize (normalize query) as text. intros text.
  generalize dangerousPatterns as catalogue. intros catalogue.
  induction catalogue as [|[pattern name] catalogue IH]; cbn [filter map fst].
  - split; [congruence | intros [? [? [[] _]]]].
  - destruct (Regex.test pattern text) eqn:E.
    + split; [|cbn; congruence]. intros _. exists pattern, name.
      split; [left; reflexivity | exact E].
    + rewrite IH. split.
      * intros [p [n [Hin Ht]]]. exists p, n. split; [right|]; assumption.
      * intros [p [n [[Heq | Hin] Ht]]].
        -- injection Heq as <- <-. congruence.
        -- exists p, n. split; assumption.
Qed.

(** C5: [requiresConfirmation] is true exactly when the text of the query
    is a mutation (it begins, trimmed and upper-cased, with [INSERT],
    [UPDATE], [DELETE], [CREATE], [ALTER], [DROP] or [TRUNCATE]), or a
    pattern of the dangerous-operation catalogue is found in it, or some
    finding of the verdict has severity [error] or [critical]. *)
Theorem requiresConfirmation_iff (query : string) :
  requiresConfirmation (metadata (validate query)) = true
  <-> (IsMutationStatement query
       \/ DangerousPatternMatches query
       \/ ErrorFindingProduced query).
Proof.
  rewrite requiresConfirmation_eq, !orb_true_iff, !length_pos_iff.
  rewrite <- isMutation_keyword, <- dangerous_pattern.
  change (isMutation (metadata (validate query)))
    with (isMutationQuery (detectQueryType query)).
  unfold ErrorFindingProduced.
  pose proof (errors_critical query) as He.
  pose proof (warnings_not_errors query) as Hw.
  rewrite Forall_forall in He, Hw.
  split.
  - intros [[H | H] | H]; auto.
    right; right.
    destruct (errors (validate query)) as [|f l] eqn:E; [congruence|].
    exists f; split; [apply in_or_app; left; left; reflexivity|].
    right; apply He; left; reflexivity.
  - intros [H | [H | [f [Hin Hsev]]]]; auto.
    right. apply in_app_or in Hin. destruct Hin as [Hin | Hin].
    + intro E; rewrite E in Hin; exact Hin.
    + exfalso. specialize (Hw f Hin).
      destruct Hsev as [Hs | Hs], Hw as [Hw | Hw]; congruence.
Qed.

(** Each pattern of the catalogue on a query that shows it, and a query with
    [dropped] and [executed] as column names, which shows none. *)
Example dangerous_catalogue_samples :
  map (fun q => detectDangerousOperations (normalize q))
    ["drop table t"; "drop database d"; "truncate t"; "delete from t ;";
     "alter table t drop column c"; "exec p"; "execute p";
     "select 1; drop x"; "select 1;delete x";
     "select dropped, executed from t"]
  = [["DROP TABLE"]; ["DROP DATABASE"]; ["TRUNCATE"]; ["DELETE ALL ROWS"];
     ["ALTER TABLE"; "DROP COLUMN"]; ["EXECUTE"]; ["EXECUTE"];
     ["SQL INJECTION (DROP)"]; ["SQL INJECTION (DELETE)"]; []].
Proof. vm_compute. reflexivity. Qed.

(** A keyword after a [SELECT] does not make a mutation, and white space and
    letter case before the keyword do not hide one. *)
Example confirmation_of_three_queries :
  requiresConfirmation (metadata (validate "select 1")) = false
  /\ requiresConfirmation (metadata (validate "  insert into t values (1)"))
     = true
  /\ requiresConfirmation (metadata (validate "SELECT 'DROP' FROM t")) = false.
Proof. vm_compute. repeat split. Qed.

(** What a complete verdict is: the validity flag says whether there are
    errors, every error carries one of the two error codes and an error
    severity, every warning one of the six warning codes and a warning
    severity, the mutation flag agrees with the statement kind, and the
    accessed tables form a set. *)
Definition errorCodes : list string :=
  ["DANGEROUS_OPERATION"; "DELETE_WITHOUT_WHERE"].

Definition warningCodes : list string :=
  ["POTENTIAL_INJECTION"; "UPDATE_WITHOUT_WHERE"; "SELECT_STAR";
   "MISSING_LIMIT"; "CARTESIAN_PRODUCT"; "EXPENSIVE_OPERATION"].

Definition errorOK (f : Finding) : Prop :=
  In (code f) errorCodes /\ isErrorSeverity f.

Definition warningOK (f : Finding) : Prop :=
  In (code f) warningCodes /\ isWarningSeverity f.

Record Complete (r : ValidationResult) : Prop := mkComplete {
  complete_valid : isValid r = true <-> errors r = [];
  complete_errors : Forall errorOK (errors r);
  complete_warnings : Forall warningOK (warnings r);
  complete_mutation :
    isMutation (metadata r) = isMutationQuery (queryType (metadata r));
  complete_tables : NoDup (tablesAccessed (metadata r))
}.

Lemma errors_ok (query : string) : Forall errorOK (errors (validate query)).
Proof.
  unfold validate; cbn [errors].
  apply Forall_app; split; apply when_Forall.
  - rewrite Forall_map. apply Forall_forall; intros.
    split; [left; reflexivity | right; reflexivity].
  - constructor; [|constructor].
    split; [right; left; reflexivity | right; reflexivity].
Qed.

Lemma single_warning_ok (c : bool) (f : Finding) :
  In (code f) warningCodes -> isWarningSeverity f ->
  Forall warningOK (when c [f]).
Proof.
  intros; apply when_Forall; constructor; [split; assumption | constructor].
Qed.

Lemma warnings_ok (query : string) :
  Forall warningOK (warnings (validate query)).
Proof.
  unfold validate; cbn [warnings].
  apply Forall_app; split.
  { unfold detectInjectionPatterns. rewrite Forall_map.
    apply Forall_forall; intros; split; [left|left]; reflexivity. }
  apply Forall_app; split.
  { apply single_warning_ok; [cbn; tauto | left; reflexivity]. }
  apply Forall_app; split.
  { apply single_warning_ok; [cbn; tauto | right; reflexivity]. }
  apply Forall_app; split.
  { apply single_warning_ok; [cbn; tauto | right; reflexivity]. }
  apply Forall_app; split.
  { apply single_warning_ok; [cbn; tauto | left; reflexivity]. }
  rewrite Forall_map. apply Forall_forall; intros; split.
  - cbn; tauto.
  - left; reflexivity.
Qed.

Lemma setAdd_NoDup (tables : list string) (t : string) :
  NoDup tables -> NoDup (setAdd tables t).
Proof.
  intros H. unfold setAdd.
  destruct (existsb (String.eqb t) tables) eqn:E; [assumption|].
  apply NoDup_rev in H. rewrite <- (rev_involutive (tables ++ [t])).
  apply NoDup_rev. rewrite rev_app_distr. cbn.
  constructor; [|assumption].
  rewrite <- in_rev. intro Hin.
  assert (existsb (String.eqb t) tables = true) as E'.
  { apply existsb_exists. exists t. split; [assumption | apply String.eqb_refl]. }
  congruence.
Qed.

Lemma addMatches_NoDup (r : Regex.regex) (query : string)
  (tables : list string) :
  NoDup tables -> NoDup (addMatches r query tables).
Proof.
  unfold addMatches. generalize (Regex.matchAll r query) as ms.
  intros ms; revert tables.
  induction ms as [|m ms IH]; intros tables H; cbn [fold_left]; [assumption|].
  apply IH. destruct (Regex.group1 m); [apply setAdd_NoDup|]; assumption.
Qed.

Lemma extractTableNames_NoDup (query : string) :
  NoDup (extractTableNames query).
Proof.
  unfold extractTableNames.
  repeat apply addMatches_NoDup. constructor.
Qed.

(** *** No step of [validate] throws

    The capture group of each pattern that [validate] reads a group of lies
    on every path through the pattern. *)
Lemma fromClause_captures : RegexFacts.captures fromClause = true.
Proof. reflexivity. Qed.

Lemma hasCartesianProduct_returns (query : string) :
  ValidatorRuntime.hasCartesianProduct query
  = Returns (hasCartesianProduct query).
Proof.
  unfold ValidatorRuntime.hasCartesianProduct, hasCartesianProduct.
  destruct (Regex.exec fromClause query) as [fromMatch|] eqn:E; [|reflexivity].
  destruct (Regex.group1 fromMatch) eqn:G.
  - destruct (_ && _); reflexivity.
  - exfalso. eapply RegexFacts.exec_group; [exact fromClause_captures | exact E | exact G].
Qed.

Lemma sameValue_defined (t : string) (tables : list string) :
  existsb (ValidatorRuntime.sameValue (Some t)) (map Some tables)
  = existsb (String.eqb t) tables.
Proof.
  induction tables as [|x tables IH]; cbn; [|rewrite IH]; reflexivity.
Qed.

Lemma setAdd_defined (tables : list string) (t : string) :
  ValidatorRuntime.setAdd (map Some tables) (Some t)
  = map Some (setAdd tables t).
Proof.
  unfold ValidatorRuntime.setAdd, setAdd. rewrite sameValue_defined.
  destruct (existsb _ _); [reflexivity|]. rewrite map_app. reflexivity.
Qed.

Lemma addMatches_returns (r : Regex.regex) (query : string)
  (tables : list string) :
  RegexFacts.captures r = true ->
  ValidatorRuntime.addMatches r query (map Some tables)
  = Returns (map Some (addMatches r query tables)).
Proof.
  intros Hr. unfold ValidatorRuntime.addMatches, addMatches.
  cbn [ValidatorRuntime.matchAll ValidatorRuntime.bind]. f_equal.
  pose proof (@RegexFacts.matchAll_group r query Hr) as Hall.
  revert tables.
  induction Hall as [|m ms Hm _ IH]; intros tables; cbn [fold_left];
    [reflexivity|].
  destruct (Regex.group1 m) as [t|]; [|congruence].
  rewrite setAdd_defined. apply IH.
Qed.

Lemma extractTableNames_returns (query : string) :
  ValidatorRuntime.extractTableNames query
  = Returns (map Some (extractTableNames query)).
Proof.
  unfold ValidatorRuntime.extractTableNames, extractTableNames.
  change (@nil (option string)) with (map (@Some string) []).
  repeat (rewrite addMatches_returns by reflexivity;
          cbn [ValidatorRuntime.bind]).
  reflexivity.
Qed.

Lemma validate_returns (query : string) :
  ValidatorRuntime.validate query
  = Returns (ValidatorRuntime.ofResult (validate query)).
Proof.
  unfold ValidatorRuntime.validate.
  rewrite hasCartesianProduct_returns, extractTableNames_returns.
  reflexivity.
Qed.

(** C6: for every query text, [validate] with its run-time errors written
    out returns and does not throw; what it returns has every field
    populated (no table name is undefined), it is the result of
    [QueryValidator.validate], and it is a complete verdict.  The loops of
    the matcher are given as many rounds as characters are left, which
    [RegexFacts.iterate_enough] shows to be enough. *)
Theorem validate_total (query : string) :
  exists r : ValidatorRuntime.ValidationResult,
    ValidatorRuntime.validate query = Returns r
    /\ Forall (fun table => table <> None)
         (ValidatorRuntime.tablesAccessed (ValidatorRuntime.metadata r))
    /\ r = ValidatorRuntime.ofResult (validate query)
    /\ Complete (validate query).
Proof.
  exists (ValidatorRuntime.ofResult (validate query)).
  split; [apply validate_returns|]. split.
  { cbn [ValidatorRuntime.ofResult ValidatorRuntime.metadata
         ValidatorRuntime.tablesAccessed].
    rewrite Forall_map. apply Forall_forall. intros; discriminate. }
  split; [reflexivity|].
  constructor.
  - change (isValid (validate query))
      with ((length (errors (validate query)) =? 0)%nat).
    rewrite Nat.eqb_eq. split.
    + apply length_zero_iff_nil.
    + intros ->; reflexivity.
  - apply errors_ok.
  - apply warnings_ok.
  - reflexivity.
  - apply extractTableNames_NoDup.
Qed.

(** The empty text, and text that is no SQL at all. *)
Example validate_returns_on_malformed_text :
  let junk := ")(*&^ from ,, where" in
  ValidatorRuntime.validate EmptyString
  = Returns (ValidatorRuntime.ofResult (validate EmptyString))
  /\ warnings (validate EmptyString) = []
  /\ ValidatorRuntime.validate junk
     = Returns (ValidatorRuntime.ofResult (validate junk))
  /\ warnings (validate junk) = [cartesianProduct]
  /\ isValid (validate junk) = true.
Proof. vm_compute. repeat split. Qed.

End ValidatorFacts.

(* ------------------------------------------------------------------ *)
(** ** Column type mapping *)

Module TypeMapping.
Import Num.

(** A native type as one of the three adapters receives it. *)
Inductive NativeType : Type :=
| MySQLType (type : option number)
| SQLiteType (sqliteType : string)
| PostgreSQLType (oid : number).

Definition mapType (t : NativeType) : string :=
  match t with
  | MySQLType type => MySQLClient.mapMySQLType type
  | SQLiteType sqliteType => SQLiteClient.normalizeSQLiteType sqliteType
  | PostgreSQLType oid => PostgreSQLClient.mapPostgreSQLType oid
  end.

Definition hasKey (table : list (Z * string)) (x : number) : bool :=
  match asInteger x with
  | Some z => existsb (fun k => (k =? z)%Z) (map fst table)
  | None => false
  end.

(** The substrings [normalizeSQLiteType] looks for. *)
Definition sqliteKeywords : list string :=
  ["INT"; "CHAR"; "TEXT"; "CLOB"; "REAL"; "FLOA"; "DOUB"; "BLOB";
   "NUMERIC"; "DECIMAL"; "BOOL"; "DATE"; "TIME"].

(** A native type is recognized when the adapter's table has an entry for
    it (MySQL, PostgreSQL) or when it contains one of the keywords (SQLite). *)
Definition recognized (t : NativeType) : bool :=
  match t with
  | MySQLType None => false
  | MySQLType (Some type) => hasKey MySQLClient.typeMap type
  | SQLiteType sqliteType =>
      existsb (Str.includes (Str.toUpperCase sqliteType)) sqliteKeywords
  | PostgreSQLType oid => hasKey PostgreSQLClient.typeMap oid
  end.

(** What an adapter answers for a type it does not recognize. *)
Definition fallback (t : NativeType) : string :=
  match t with
  | SQLiteType _ => "blob"
  | MySQLType _ | PostgreSQLType _ => "unknown"
  end.

(** The categories an adapter can answer with. *)
Definition categories (t : NativeType) : list string :=
  match t with
  | MySQLType _ => "unknown" :: map snd MySQLClient.typeMap
  | SQLiteType _ =>
      ["integer"; "text"; "real"; "blob"; "numeric"; "boolean"; "datetime"]
  | PostgreSQLType _ => "unknown" :: map snd PostgreSQLClient.typeMap
  end.

Lemma assocZ_None (table : list (Z * string)) (z : Z) :
  existsb (fun k => (k =? z)%Z) (map fst table) = false ->
  assocZ table z = None.
Proof.
  induction table as [|[k v] table IH]; cbn; [reflexivity|].
  destruct (k =? z)%Z; cbn; [discriminate | exact IH].
Qed.

Lemma assocZ_Some (table : list (Z * string)) (z : Z) (v : string) :
  assocZ table z = Some v -> In v (map snd table).
Proof.
  induction table as [|[k w] table IH]; cbn; [discriminate|].
  destruct (k =? z)%Z; [intros [= ->]; left; reflexivity | right; auto].
Qed.

Lemma lookup_unrecognized (table : list (Z * string)) (x : number) :
  hasKey table x = false -> orString (lookupType table x) "unknown" = "unknown".
Proof.
  unfold hasKey, lookupType. destruct (asInteger x) as [z|]; [|reflexivity].
  intros H. rewrite (assocZ_None _ _ H). reflexivity.
Qed.

Lemma lookup_category (table : list (Z * string)) (x : number) :
  In (orString (lookupType table x) "unknown") ("unknown" :: map snd table).
Proof.
  unfold lookupType. destruct (asInteger x) as [z|]; [|left; reflexivity].
  destruct (assocZ table z) as [v|] eqn:E; [|left; reflexivity].
  destruct v as [|c v]; [left; reflexivity|].
  right. apply (assocZ_Some _ _ E).
Qed.

Lemma sqlite_unrecognized (sqliteType : string) :
  recognized (SQLiteType sqliteType) = false ->
  SQLiteClient.normalizeSQLiteType sqliteType = "blob".
Proof.
  unfold recognized, SQLiteClient.normalizeSQLiteType, sqliteKeywords.
  cbn [existsb]. generalize (Str.toUpperCase sqliteType) as type.
  intros type H.
  repeat (apply orb_false_iff in H; destruct H as [?H H]).
  repeat match goal with E : Str.includes type _ = false |- _ =>
    rewrite E; clear E end.
  reflexivity.
Qed.

Lemma sqlite_category (sqliteType : string) :
  In (SQLiteClient.normalizeSQLiteType sqliteType)
     (categories (SQLiteType sqliteType)).
Proof.
  unfold SQLiteClient.normalizeSQLiteType.
  repeat match goal with
  | |- context [if ?c then _ else _] => destruct c
  end; cbn; tauto.
Qed.

(** C2 as stated fails for SQLite: [JSON] has none of the keywords, and it
    is mapped to [blob], not to [unknown]. *)
Lemma sqlite_unrecognized_is_blob :
  ~ (forall t : NativeType, recognized t = false -> mapType t = "unknown").
Proof.
  intros H. specialize (H (SQLiteType "JSON") eq_refl).
  vm_compute in H. discriminate H.
Qed.

(** C2, amended: the type mapping of each adapter is a function into the
    adapter's fixed list of categories, and a native type the adapter does not
    recognize is mapped to [unknown] by the MySQL and PostgreSQL adapters and
    to [blob] by the SQLite adapter. *)
Theorem mapType_total (t : NativeType) :
  In (mapType t) (categories t)
  /\ (recognized t = false -> mapType t = fallback t).
Proof.
  destruct t as [[type|] | sqliteType | oid]; cbn [mapType fallback recognized].
  - split; [apply lookup_category | apply lookup_unrecognized].
  - split; [left; reflexivity | reflexivity].
  - split; [apply sqlite_category | apply sqlite_unrecognized].
  - split; [apply lookup_category | apply lookup_unrecognized].
Qed.

Lemma mapType_total_witness :
  recognized (SQLiteType "JSON") = false
  /\ mapType (SQLiteType "JSON") = "blob"
  /\ recognized (MySQLType (Some (ofZ 999))) = false
  /\ mapType (MySQLType (Some (ofZ 999))) = "unknown"
  /\ recognized (PostgreSQLType (ofZ 600)) = false
  /\ mapType (PostgreSQLType (ofZ 600)) = "unknown".
Proof.
  split; [reflexivity|].
  split; [apply (proj2 (mapType_total (SQLiteType "JSON"))); reflexivity|].
  split; [reflexivity|].
  split; [apply (proj2 (mapType_total (MySQLType (Some (ofZ 999)))));
          reflexivity|].
  split; [reflexivity|].
  apply (proj2 (mapType_total (PostgreSQLType (ofZ 600)))); reflexivity.
Defined.

End TypeMapping.

(* ------------------------------------------------------------------ *)
(** ** The row limit *)

Module RowLimit.
Import Num BaseDatabaseClient.

Lemma ltb_zero_pos (q : Q) : ltb (ofZ 0) (Fin q) = true -> (0 < q)%Q.
Proof.
  cbn. intros H. apply negb_true_iff in H.
  apply Qnot_le_lt. intros Hle. apply Qle_bool_iff in Hle.
  change (inject_Z 0) with 0%Q in H. congruence.
Qed.

(** A positive request is kept when it is at most 10000 and cut to 10000
    otherwise. *)
Lemma normalizeMaxRows_positive (q : Q) :
  (0 < q)%Q ->
  exists q', normalizeMaxRows (Some (Fin q)) = Fin q'
             /\ (0 < q')%Q /\ (q' <= q)%Q /\ (q' <= inject_Z 10000)%Q.
Proof.
  intros Hq. unfold normalizeMaxRows. cbn [truthy ltb gtb ofZ].
  assert (Qeq_bool q 0 = false) as E0.
  { destruct (Qeq_bool q 0) eqn:E; [|reflexivity].
    apply Qeq_bool_iff in E. rewrite E in Hq. exfalso.
    exact (Qlt_irrefl _ Hq). }
  rewrite E0. cbn [negb].
  assert (Qle_bool (inject_Z 0) q = true) as E1.
  { apply Qle_bool_iff. apply Qlt_le_weak. exact Hq. }
  rewrite E1. cbn [negb].
  destruct (Qle_bool q (inject_Z 10000)) eqn:E2; cbn [negb].
  - exists q. split; [reflexivity|]. split; [assumption|].
    split; [apply Qle_refl|]. apply Qle_bool_iff; assumption.
  - exists (inject_Z 10000). split; [reflexivity|]. split; [reflexivity|].
    split; [|apply Qle_refl].
    apply Qlt_le_weak, Qnot_le_lt. intros Hle.
    apply Qle_bool_iff in Hle. congruence.
Qed.

(** Without a usable request (absent, zero, NaN or negative) the limit is
    the default of 1000 rows. *)
Lemma normalizeMaxRows_default (maxRows : option number) :
  match maxRows with
  | None => True
  | Some x => truthy x = false \/ ltb x (ofZ 0) = true
  end ->
  normalizeMaxRows maxRows = ofZ 1000.
Proof.
  destruct maxRows as [x|]; [|reflexivity].
  unfold normalizeMaxRows. intros [H | H].
  - rewrite H. reflexivity.
  - destruct (truthy x); cbn [negb]; [rewrite H|]; reflexivity.
Qed.

Lemma slice0_length {A} (arr : list A) (q : Q) :
  (0 <= q)%Q ->
  (inject_Z (Z.of_nat (length (Arr.slice0 arr (Fin q)))) <= q)%Q.
Proof.
  intros Hq. unfold Arr.slice0, truncate.
  assert (Qle_bool 0 q = true) as E by (apply Qle_bool_iff; exact Hq).
  rewrite E.
  assert (0 <= Qround.Qfloor q)%Z as Hf.
  { change 0%Z with (Qround.Qfloor 0). apply Qround.Qfloor_resp_le. exact Hq. }
  destruct (Z.ltb_spec (Qround.Qfloor q) 0) as [Hlt | _]; [lia|].
  apply Qle_trans with (inject_Z (Qround.Qfloor q)); [|apply Qround.Qfloor_le].
  rewrite <- Zle_Qle. rewrite length_firstn. lia.
Qed.

Lemma slice0_limit {A} (arr : list A) (N : number) :
  ltb (ofZ 0) N = true ->
  leb (ofNat (length (Arr.slice0 arr (normalizeMaxRows (Some N))))) N = true.
Proof.
  destruct N as [| | |q]; cbn [ltb]; try discriminate.
  - intros _. reflexivity.
  - intros H. apply ltb_zero_pos in H.
    destruct (normalizeMaxRows_positive H) as (q' & -> & Hpos & Hle & _).
    cbn [leb ofNat ofZ]. apply Qle_bool_iff.
    apply Qle_trans with q'; [|exact Hle].
    apply slice0_length. apply Qlt_le_weak. exact Hpos.
Qed.

Lemma slice0_at_most {A} (arr : list A) (maxRows : option number) :
  (Z.of_nat (length (Arr.slice0 arr (normalizeMaxRows maxRows))) <= 10000)%Z.
Proof.
  assert (forall q, (0 <= q)%Q -> (q <= inject_Z 10000)%Q ->
            (Z.of_nat (length (Arr.slice0 arr (Fin q))) <= 10000)%Z) as Hfin.
  { intros q H0 H1. pose proof (slice0_length arr H0) as H.
    pose proof (Qle_trans _ _ _ H H1) as H'. rewrite <- Zle_Qle in H'.
    exact H'. }
  assert (Z.of_nat (length (Arr.slice0 arr (ofZ 1000))) <= 10000)%Z as Hdef.
  { apply Hfin; [discriminate|]. unfold ofZ.
    rewrite <- Zle_Qle. lia. }
  assert (Z.of_nat (length (Arr.slice0 arr (ofZ 10000))) <= 10000)%Z as Hmax.
  { apply Hfin; [discriminate | apply Qle_refl]. }
  destruct maxRows as [x|]; [|exact Hdef].
  unfold normalizeMaxRows.
  destruct (truthy x); cbn [negb]; [|exact Hdef].
  destruct (ltb x (ofZ 0)) eqn:E0; [exact Hdef|].
  destruct (gtb x (ofZ 10000)) eqn:E1; [exact Hmax|].
  destruct x as [| | |q]; cbn in E0, E1; try discriminate.
  apply negb_false_iff in E0, E1.
  apply Hfin; apply Qle_bool_iff; assumption.
Qed.

(** C3 as stated fails at [maxRows = 0]: the request counts as absent, the
    default of 1000 applies, and a row comes back. *)
Lemma maxRows_zero_returns_rows :
  ~ (forall (maxRows : number) (engineRows : list nat),
       leb (ofNat (length (rows (MySQLClient.query (Some maxRows)
                                   engineRows []))))
           maxRows = true).
Proof.
  intros H. specialize (H (ofZ 0) [7%nat]).
  vm_compute in H. discriminate H.
Qed.

(** C3, amended: for a positive [maxRows = N] each adapter returns at most
    [N] rows, and never more than 10000, whatever the engine produced;
    [rowCount] is the number of rows the engine produced (MySQL, SQLite
    SELECT), the engine's count of changes (SQLite otherwise) or the
    driver's [rowCount], 0 when it has none (PostgreSQL). *)
Theorem query_row_limit (Row : Type) (N : number)
  (mysqlRows : list Row) (mysqlFields : list MySQLClient.FieldPacket)
  (queryText : string) (stmt : SQLiteClient.Statement Row)
  (result : PostgreSQLClient.PgQueryResult Row) :
  ltb (ofZ 0) N = true ->
  let my := MySQLClient.query (Some N) mysqlRows mysqlFields in
  let lite := SQLiteClient.query queryText (Some N) stmt in
  let pg := PostgreSQLClient.query (Some N) result in
  (leb (ofNat (length (rows my))) N = true
   /\ (Z.of_nat (length (rows my)) <= 10000)%Z
   /\ rowCount my = ofNat (length mysqlRows))
  /\ (leb (ofNat (length (rows lite))) N = true
      /\ (Z.of_nat (length (rows lite)) <= 10000)%Z
      /\ rowCount lite
         = if Str.startsWith (Str.toUpperCase (Str.trim queryText)) "SELECT"
           then ofNat (length (SQLiteClient.all stmt))
           else SQLiteClient.changes stmt)
  /\ (leb (ofNat (length (rows pg))) N = true
      /\ (Z.of_nat (length (rows pg)) <= 10000)%Z
      /\ rowCount pg
         = orNumber (PostgreSQLClient.pg_rowCount result) (ofZ 0)).
Proof.
  intros HN my lite pg.
  split; [|split].
  - subst my. unfold MySQLClient.query. cbn [rows rowCount].
    split; [apply slice0_limit; exact HN|].
    split; [apply slice0_at_most | reflexivity].
  - subst lite. unfold SQLiteClient.query.
    destruct (Str.startsWith _ "SELECT"); cbn [rows rowCount].
    + split; [apply slice0_limit; exact HN|].
      split; [apply slice0_at_most | reflexivity].
    + split; [|split; [cbn; lia | reflexivity]].
      destruct N as [| | |q]; cbn in HN; try discriminate; [reflexivity|].
      cbn. apply Qle_bool_iff. apply Qlt_le_weak.
      apply ltb_zero_pos. exact HN.
  - subst pg. unfold PostgreSQLClient.query. cbn [rows rowCount].
    split; [apply slice0_limit; exact HN|].
    split; [apply slice0_at_most | reflexivity].
Qed.

Lemma query_row_limit_witness :
  ltb (ofZ 0) (ofZ 2) = true
  /\ length (rows (MySQLClient.query (Some (ofZ 2)) [1; 2; 3]%nat [])) = 2%nat
  /\ leb (ofNat (length (rows (MySQLClient.query (Some (ofZ 2))
                                 [1; 2; 3]%nat []))))
         (ofZ 2) = true.
Proof.
  split; [reflexivity|].
  split; [reflexivity|].
  exact (proj1 (proj1 (query_row_limit (ofZ 2) [1; 2; 3]%nat []
                         "SELECT 1"
                         (SQLiteClient.mkStatement [1; 2; 3]%nat (ofZ 0) [])
                         (PostgreSQLClient.mkPgQueryResult [1; 2; 3]%nat
                            None [])
                         eq_refl))).
Defined.

End RowLimit.

(* ------------------------------------------------------------------ *)
(** ** Table names *)

Module TableNames.
Import BaseDatabaseClient.

Lemma includes_dot_cons (c : ascii) (s : string) :
  Str.includes (String c s) "." = false ->
  Ascii.eqb c "." = false /\ Str.includes s "." = false.
Proof.
  cbn [Str.includes Str.startsWith]. intros H.
  apply orb_false_iff in H. destruct H as [H1 H2].
  split; [|exact H2].
  rewrite Ascii.eqb_sym.
  destruct (Ascii.eqb "." c); [|reflexivity].
  destruct s; discriminate H1.
Qed.

Lemma split_without_separator (s : string) :
  Str.includes s "." = false -> Str.split "." s = [s].
Proof.
  induction s as [|c s IH]; intros H; [reflexivity|].
  apply includes_dot_cons in H. destruct H as [Hc Hs].
  cbn [Str.split]. rewrite Hc, (IH Hs). reflexivity.
Qed.

(** C10: a table name without a dot is parsed as table of the schema
    [public], so the MySQL adapter's [getTableStatistics] binds
    [TABLE_SCHEMA] to [public] and [TABLE_NAME] to the whole name, whatever
    database the client is configured for, and answers from the rows the
    catalog has under that schema. *)
Theorem parseTableName_unqualified (tableName : string) :
  Str.includes tableName "." = false ->
  parseTableName tableName = mkTableName "public" tableName
  /\ MySQLClient.statisticsParams tableName = ["public"; tableName]
  /\ forall (config : DatabaseConfig)
       (poolQuery : string -> list string -> list MySQLClient.TableRow),
       MySQLClient.getTableStatistics config poolQuery tableName
       = match poolQuery MySQLClient.statisticsQuery ["public"; tableName] with
         | [] => Throws ("Table " ++ tableName ++ " not found")
         | stats :: _ =>
             Returns (mkTableStatistics tableName
                        (MySQLClient.TABLE_ROWS stats)
                        (MySQLClient.DATA_LENGTH stats)
                        (MySQLClient.INDEX_LENGTH stats))
         end.
Proof.
  intros H.
  assert (parseTableName tableName = mkTableName "public" tableName) as Hp.
  { unfold parseTableName. rewrite (split_without_separator _ H). reflexivity. }
  assert (MySQLClient.statisticsParams tableName = ["public"; tableName]) as Hs.
  { unfold MySQLClient.statisticsParams. rewrite Hp. reflexivity. }
  split; [exact Hp|]. split; [exact Hs|].
  intros config poolQuery. unfold MySQLClient.getTableStatistics.
  rewrite Hs, Hp. reflexivity.
Qed.

Lemma parseTableName_unqualified_witness :
  Str.includes "orders" "." = false
  /\ parseTableName "orders" = mkTableName "public" "orders".
Proof.
  split; [reflexivity|].
  exact (proj1 (parseTableName_unqualified "orders" eq_refl)).
Defined.

(** A catalog that has the table [orders] under the schema [shop] only. *)
Definition shopCatalog (sql : string) (params : list string)
  : list MySQLClient.TableRow :=
  match params with
  | [s; t] =>
      if String.eqb s "shop" && String.eqb t "orders"
      then [MySQLClient.mkTableRow "orders" (Num.ofZ 42) (Num.ofZ 16384)
              (Num.ofZ 0) (Num.ofZ 0)]
      else []
  | _ => []
  end.

(** Connected to the database [shop], the statistics of [orders] are found
    under the qualified name only. *)
Example statistics_of_unqualified_name :
  let config := mkConfig (Some "localhost") (Some "shop") (Some "app") in
  MySQLClient.getTableStatistics config shopCatalog "orders"
  = Throws "Table orders not found"
  /\ MySQLClient.getTableStatistics config shopCatalog "shop.orders"
     = Returns (mkTableStatistics "orders" (Num.ofZ 42) (Num.ofZ 16384)
                  (Num.ofZ 0)).
Proof. split; reflexivity. Qed.

End TableNames.

(* ------------------------------------------------------------------ *)
(** ** Plan recommendations *)

Module Recommendations.
Import Num PostgreSQLClient.

(** Induction on plans with the hypothesis for every child. *)
Fixpoint Plan_ind (P : Plan -> Prop)
  (H : forall t r n ps, Forall P ps -> P (PlanNode t r n ps))
  (p : Plan) {struct p} : P p :=
  match p with
  | PlanNode t r n ps =>
      H t r n ps
        ((fix all (l : list Plan) : Forall P l :=
            match l with
            | [] => Forall_nil P
            | x :: l' => Forall_cons x (Plan_ind H x) (all l')
            end) ps)
  end.

(** The nodes of a plan, parent first, children from left to right. *)
Fixpoint preorder (plan : Plan) : list Plan :=
  match plan with
  | PlanNode _ _ _ children => plan :: flat_map preorder children
  end.

(** What one node contributes. *)
Definition nodeRecommendations (plan : Plan) : list string :=
  (if isLargeSeqScan plan
   then [indexRecommendation (RelationName plan)] else [])
  ++ (if isLargeNestedLoop plan then [nestedLoopRecommendation] else []).

Definition indexPrefix : string := "Consider adding an index on ".

Definition isIndexRecommendation (text : string) : bool :=
  Str.startsWith text indexPrefix.

Lemma startsWith_append (p s : string) : Str.startsWith (p ++ s) p = true.
Proof.
  induction p as [|c p IH]; cbn; [destruct s; reflexivity|].
  rewrite Ascii.eqb_refl. exact IH.
Qed.

Lemma indexRecommendation_is_index (relation : option string) :
  isIndexRecommendation (indexRecommendation relation) = true.
Proof. apply startsWith_append. Qed.

Lemma generateRecommendations_flat (plan : Plan) :
  generateRecommendations plan
  = flat_map nodeRecommendations (preorder plan).
Proof.
  induction plan as [t r n ps IH] using Plan_ind.
  cbn [generateRecommendations preorder flat_map].
  unfold nodeRecommendations at 1. rewrite <- !app_assoc.
  do 2 f_equal.
  induction IH as [|p ps Hp _ IHps]; [reflexivity|].
  cbn [flat_map]. rewrite flat_map_app, Hp, IHps. reflexivity.
Qed.

Lemma filter_nodeRecommendations (plan : Plan) :
  filter isIndexRecommendation (nodeRecommendations plan)
  = if isLargeSeqScan plan
    then [indexRecommendation (RelationName plan)] else [].
Proof.
  unfold nodeRecommendations.
  destruct (isLargeSeqScan plan), (isLargeNestedLoop plan);
    cbn [app filter]; rewrite ?indexRecommendation_is_index; reflexivity.
Qed.

(** *** What the claim about index recommendations speaks of

    Stated on the properties of a node, without the tests and the text
    builder of [generateRecommendations]: a sequential scan above the
    threshold is a node whose type is [Seq Scan] and whose estimated row
    count is a number greater than the threshold, and the advice for a node
    is the sentence that names its relation. *)
Definition rowThreshold : Z := 1000.

Definition exceeds (rows : number) (threshold : Z) : Prop :=
  match rows with
  | Fin q => (inject_Z threshold < q)%Q
  | PosInf => True
  | NegInf | NaN => False
  end.

Definition SequentialScanAbove (threshold : Z) (node : Plan) : Prop :=
  NodeType node = "Seq Scan" /\ exceeds (PlanRows node) threshold.

Definition exceeds_dec (rows : number) (threshold : Z) :
  {exceeds rows threshold} + {~ exceeds rows threshold}.
Proof.
  destruct rows as [| | |q]; cbn [exceeds]; [right | left | right |]; auto.
  destruct (Qlt_le_dec (inject_Z threshold) q) as [H | H]; [left; exact H|].
  right. apply Qle_not_lt, H.
Defined.

Definition SequentialScanAbove_dec (threshold : Z) (node : Plan) :
  {SequentialScanAbove threshold node} + {~ SequentialScanAbove threshold node}.
Proof.
  unfold SequentialScanAbove.
  destruct (string_dec (NodeType node) "Seq Scan") as [Ht | Ht];
    [|right; tauto].
  destruct (exceeds_dec (PlanRows node) threshold) as [Hr | Hr];
    [left | right]; tauto.
Defined.

(** The nodes of the plan, in pre-order, that are sequential scans above
    the threshold. *)
Definition sequentialScansAbove (threshold : Z) (plan : Plan) : list Plan :=
  filter (fun node => if SequentialScanAbove_dec threshold node
                      then true else false)
         (preorder plan).

Definition scannedRelation (node : Plan) : string :=
  match RelationName node with
  | Some relation => relation
  | None => "undefined"
  end.

Definition addIndexAdvice (node : Plan) : string :=
  ("Consider adding an index on " ++ scannedRelation node
   ++ " to avoid sequential scan")%string.

Lemma gtb_exceeds (rows : number) (threshold : Z) :
  gtb rows (ofZ threshold) = true <-> exceeds rows threshold.
Proof.
  destruct rows as [| | |q]; cbn; try (split; [discriminate | tauto]);
    [tauto|].
  rewrite negb_true_iff, <- not_true_iff_false, Qle_bool_iff.
  split; [apply Qnot_le_lt | intros H1 H2; exact (Qlt_not_le _ _ H1 H2)].
Qed.

Lemma isLargeSeqScan_spec (node : Plan) :
  isLargeSeqScan node
  = if SequentialScanAbove_dec rowThreshold node then true else false.
Proof.
  destruct (SequentialScanAbove_dec rowThreshold node) as [[Ht Hr] | Hno].
  - unfold isLargeSeqScan. rewrite Ht. apply andb_true_iff; split;
      [reflexivity | apply gtb_exceeds, Hr].
  - apply not_true_iff_false. intros H. apply Hno.
    unfold isLargeSeqScan in H. apply andb_true_iff in H. destruct H as [Ht Hr].
    split; [apply String.eqb_eq, Ht | apply gtb_exceeds, Hr].
Qed.

Lemma indexRecommendation_advice (node : Plan) :
  indexRecommendation (RelationName node) = addIndexAdvice node.
Proof.
  unfold indexRecommendation, addIndexAdvice, scannedRelation, showString.
  destruct (RelationName node); reflexivity.
Qed.

(** C9: the index recommendations of a plan are, in this order, one per
    node of the pre-order traversal whose type is [Seq Scan] and whose
    estimated row count is greater than 1000, each the sentence naming the
    relation of its node; a node that occurs twice is advised twice. *)
Theorem index_recommendations_preorder (plan : Plan) :
  filter isIndexRecommendation (generateRecommendations plan)
  = map addIndexAdvice (sequentialScansAbove rowThreshold plan).
Proof.
  unfold sequentialScansAbove. rewrite generateRecommendations_flat.
  induction (preorder plan) as [|node nodes IH]; [reflexivity|].
  cbn [flat_map filter]. rewrite filter_app, filter_nodeRecommendations, IH.
  rewrite isLargeSeqScan_spec, indexRecommendation_advice.
  destruct (SequentialScanAbove_dec rowThreshold node); reflexivity.
Qed.

(** At the threshold itself nothing is advised; one row more is enough, and
    a scan without a relation name is advised under the name [undefined]. *)
Example threshold_is_exclusive :
  generateRecommendations (PlanNode "Seq Scan" (ofZ 1000) (Some "t") []) = []
  /\ generateRecommendations (PlanNode "Seq Scan" (ofZ 1001) (Some "t") [])
     = ["Consider adding an index on t to avoid sequential scan"]
  /\ generateRecommendations (PlanNode "Index Scan" (ofZ 5000) (Some "t") [])
     = []
  /\ generateRecommendations (PlanNode "Seq Scan" (ofZ 5000) None [])
     = ["Consider adding an index on undefined to avoid sequential scan"].
Proof. repeat split. Qed.

(** The same relation scanned in a parent and in a nested node is
    recommended twice. *)
Example nested_scans_recommended_twice :
  let scan := PlanNode "Seq Scan" (ofZ 5000) (Some "orders") [] in
  let plan :=
    PlanNode "Seq Scan" (ofZ 5000) (Some "orders")
      [PlanNode "Nested Loop" (ofZ 20000) None [scan];
       PlanNode "Seq Scan" (ofZ 10) (Some "users") []] in
  generateRecommendations plan
  = [indexRecommendation (Some "orders"); nestedLoopRecommendation;
     indexRecommendation (Some "orders")].
Proof. reflexivity. Qed.

End Recommendations.

(* ------------------------------------------------------------------ *)
(** ** Grouping catalog rows *)

Module Grouping.

(** [Set.add] on the keys seen so far. *)
Definition addKey {K} (eqb : K -> K -> bool) (seen : list K) (k : K)
  : list K :=
  if existsb (fun x => eqb x k) seen then seen else seen ++ [k].

(** The distinct keys of a list, in the order of their first occurrence. *)
Definition distinctKeys {K} (eqb : K -> K -> bool) (ks : list K) : list K :=
  fold_left (addKey eqb) ks [].

Lemma NoDup_snoc {A} (l : list A) (x : A) :
  NoDup l -> ~ In x l -> NoDup (l ++ [x]).
Proof.
  intros Hl Hx. apply NoDup_app; [exact Hl | repeat constructor; auto |].
  intros a Ha [<- | []]. exact (Hx Ha).
Qed.

Lemma filter_Permutation {A} (f : A -> bool) (l l' : list A) :
  Permutation l l' -> Permutation (filter f l) (filter f l').
Proof.
  induction 1 as [|x l l' _ IH|x y l|l l' l'' _ IH1 _ IH2]; cbn.
  - constructor.
  - destruct (f x); [constructor|]; exact IH.
  - destruct (f x), (f y); try reflexivity. constructor.
  - etransitivity; eassumption.
Qed.

Lemma combine_map_same {A B C} (f : A -> B) (g : A -> C) (l : list A) :
  combine (map f l) (map g l) = map (fun x => (f x, g x)) l.
Proof. induction l as [|x l IH]; cbn; [|rewrite IH]; reflexivity. Qed.

Section Facts.
Variables K V R : Type.
Variable eqb : K -> K -> bool.
Hypothesis eqb_spec : forall a c, eqb a c = true <-> a = c.
Variable key : R -> K.
Variable init : R -> V.
Variable push : R -> V -> V.

#[local] Abbreviation has := (JSMap.has eqb).
#[local] Abbreviation get := (JSMap.get eqb).
#[local] Abbreviation modify := (JSMap.modify eqb).
#[local] Abbreviation step := (JSMap.groupStep eqb key init push).
#[local] Abbreviation keys := (@JSMap.keys K V).
#[local] Abbreviation values := (@JSMap.values K V).

Lemma eqb_refl (a : K) : eqb a a = true.
Proof. apply eqb_spec; reflexivity. Qed.

Lemma eqb_false (a c : K) : eqb a c = false <-> a <> c.
Proof.
  split.
  - intros H E. apply eqb_spec in E. congruence.
  - intros H. destruct (eqb a c) eqn:E; [|reflexivity].
    apply eqb_spec in E. contradiction.
Qed.

Lemma has_In (m : JSMap.t K V) (k : K) : has m k = true <-> In k (keys m).
Proof.
  unfold JSMap.has, JSMap.keys. rewrite existsb_exists, in_map_iff. split.
  - intros [kv [Hin E]]. apply eqb_spec in E. exists kv; auto.
  - intros [kv [E Hin]]. exists kv. split; [exact Hin|].
    apply eqb_spec; exact E.
Qed.

Lemma has_false (m : JSMap.t K V) (k : K) :
  has m k = false <-> ~ In k (keys m).
Proof.
  rewrite <- has_In. destruct (has m k); split; congruence.
Qed.

Lemma keys_modify (m : JSMap.t K V) (k : K) (f : V -> V) :
  keys (modify m k f) = keys m.
Proof.
  unfold JSMap.keys, JSMap.modify. rewrite map_map. apply map_ext.
  intros kv. destruct (eqb (fst kv) k); reflexivity.
Qed.

Lemma set_new (m : JSMap.t K V) (k : K) (v : V) :
  has m k = false -> JSMap.set eqb m k v = m ++ [(k, v)].
Proof. unfold JSMap.set. intros ->. reflexivity. Qed.

Lemma step_has (m : JSMap.t K V) (r : R) :
  has m (key r) = true -> step m r = modify m (key r) (push r).
Proof. unfold JSMap.groupStep. intros ->. reflexivity. Qed.

Lemma step_new (m : JSMap.t K V) (r : R) :
  has m (key r) = false ->
  step m r = modify (m ++ [(key r, init r)]) (key r) (push r).
Proof.
  unfold JSMap.groupStep. intros H. rewrite H. cbn [negb].
  rewrite (set_new _ _ _ H). reflexivity.
Qed.

Lemma has_keys (m : JSMap.t K V) (k : K) :
  has m k = existsb (fun x => eqb x k) (keys m).
Proof.
  induction m as [|kv m IH]; cbn; [reflexivity|].
  f_equal. exact IH.
Qed.

Lemma keys_step (m : JSMap.t K V) (r : R) :
  keys (step m r) = addKey eqb (keys m) (key r).
Proof.
  unfold addKey. rewrite <- has_keys.
  destruct (has m (key r)) eqn:E.
  - rewrite (step_has _ _ E). apply keys_modify.
  - rewrite (step_new _ _ E), keys_modify. unfold JSMap.keys.
    rewrite map_app. reflexivity.
Qed.

Lemma keys_fold (rows : list R) (m : JSMap.t K V) :
  keys (fold_left step rows m) = fold_left (addKey eqb) (map key rows) (keys m).
Proof.
  revert m. induction rows as [|r rows IH]; intros m; cbn [fold_left map];
    [reflexivity|].
  rewrite IH, keys_step. reflexivity.
Qed.

Lemma addKey_In (seen : list K) (k x : K) :
  In x (addKey eqb seen k) <-> In x seen \/ x = k.
Proof.
  unfold addKey. destruct (existsb _ seen) eqn:E.
  - split; [auto|]. intros [H | ->]; [exact H|].
    apply existsb_exists in E. destruct E as [y [Hy Ey]].
    apply eqb_spec in Ey. subst; exact Hy.
  - rewrite in_app_iff. cbn. intuition congruence.
Qed.

Lemma addKey_NoDup (seen : list K) (k : K) :
  NoDup seen -> NoDup (addKey eqb seen k).
Proof.
  intros H. unfold addKey. destruct (existsb _ seen) eqn:E; [exact H|].
  apply NoDup_snoc; [exact H|]. intros Hin.
  assert (existsb (fun x => eqb x k) seen = true) as E'.
  { apply existsb_exists. exists k. split; [exact Hin | apply eqb_refl]. }
  congruence.
Qed.

Lemma fold_addKey_In (ks seen : list K) (x : K) :
  In x (fold_left (addKey eqb) ks seen) <-> In x seen \/ In x ks.
Proof.
  revert seen. induction ks as [|k ks IH]; intros seen; cbn [fold_left].
  - cbn. tauto.
  - rewrite IH, addKey_In. cbn. intuition congruence.
Qed.

Lemma fold_addKey_NoDup (ks seen : list K) :
  NoDup seen -> NoDup (fold_left (addKey eqb) ks seen).
Proof.
  revert seen. induction ks as [|k ks IH]; intros seen H; cbn; [exact H|].
  apply IH, addKey_NoDup, H.
Qed.

Lemma distinctKeys_Permutation (ks ks' : list K) :
  Permutation ks ks' ->
  Permutation (distinctKeys eqb ks) (distinctKeys eqb ks').
Proof.
  intros HP. unfold distinctKeys.
  apply NoDup_Permutation; try (apply fold_addKey_NoDup; constructor).
  intros x. rewrite !fold_addKey_In. split; intros [[] | H]; right.
  - apply (Permutation_in _ HP H).
  - apply (Permutation_in _ (Permutation_sym HP) H).
Qed.

(** An invariant of the entries that holds for a fresh entry and is
    kept by every push holds for all entries of the result. *)
Section Invariant.
Variable Q : K -> V -> Prop.
Hypothesis Q_init : forall r, Q (key r) (init r).
Hypothesis Q_push : forall r k v, Q k v -> Q k (push r v).

Definition entriesOK (m : JSMap.t K V) : Prop :=
  Forall (fun kv => Q (fst kv) (snd kv)) m.

Lemma modify_entriesOK (m : JSMap.t K V) (r : R) :
  entriesOK m -> entriesOK (modify m (key r) (push r)).
Proof.
  unfold entriesOK, JSMap.modify. intros H. rewrite Forall_map.
  apply (Forall_impl _ (P := fun kv => Q (fst kv) (snd kv))); [|exact H].
  intros kv Hkv. destruct (eqb (fst kv) (key r)); cbn; auto.
Qed.

Lemma step_entriesOK (m : JSMap.t K V) (r : R) :
  entriesOK m -> entriesOK (step m r).
Proof.
  intros H. destruct (has m (key r)) eqn:E.
  - rewrite (step_has _ _ E). apply modify_entriesOK, H.
  - rewrite (step_new _ _ E). apply modify_entriesOK.
    apply Forall_app; split; [exact H|].
    constructor; [apply Q_init | constructor].
Qed.

Lemma fold_entriesOK (rows : list R) (m : JSMap.t K V) :
  entriesOK m -> entriesOK (fold_left step rows m).
Proof.
  revert m. induction rows as [|r rows IH]; intros m H; cbn [fold_left];
    [exact H|].
  apply IH, step_entriesOK, H.
Qed.

Lemma group_entriesOK (rows : list R) :
  entriesOK (JSMap.group eqb key init push rows).
Proof. apply fold_entriesOK. constructor. Qed.

End Invariant.

(** What the entry of a key has collected is what the rows of that key
    pushed, in the order of the rows. *)
Section Columns.
Variable C : Type.
Variable proj : V -> list C.
Variable col : R -> C.
Hypothesis proj_init : forall r, proj (init r) = [].
Hypothesis proj_push : forall r v, proj (push r v) = proj v ++ [col r].

Definition collect (m : JSMap.t K V) (k : K) : list C :=
  match get m k with Some v => proj v | None => [] end.

Lemma get_cons (a : K) (v : V) (m : JSMap.t K V) (k : K) :
  get ((a, v) :: m) k = if eqb a k then Some v else get m k.
Proof. unfold JSMap.get. cbn. destruct (eqb a k); reflexivity. Qed.

Lemma get_modify (m : JSMap.t K V) (k k' : K) (f : V -> V) :
  get (modify m k f) k'
  = if eqb k k' then option_map f (get m k') else get m k'.
Proof.
  induction m as [|[a v] m IH].
  - cbn. destruct (eqb k k'); reflexivity.
  - cbn [JSMap.modify map fst snd]. fold (modify m k f).
    destruct (eqb a k) eqn:Eak; rewrite !get_cons;
      destruct (eqb a k') eqn:Eak'; rewrite ?IH;
      destruct (eqb k k') eqn:Ekk'; try reflexivity; exfalso.
    + apply eqb_spec in Eak, Eak'. apply eqb_false in Ekk'. congruence.
    + apply eqb_spec in Eak', Ekk'. apply eqb_false in Eak. congruence.
Qed.

Lemma get_snoc (m : JSMap.t K V) (k k' : K) (v : V) :
  get (m ++ [(k, v)]) k'
  = match get m k' with
    | Some x => Some x
    | None => if eqb k k' then Some v else None
    end.
Proof.
  induction m as [|[a w] m IH].
  - cbn [app]. rewrite get_cons. reflexivity.
  - cbn [app]. rewrite !get_cons. destruct (eqb a k'); [reflexivity | exact IH].
Qed.

Lemma has_get (m : JSMap.t K V) (k : K) :
  has m k = match get m k with Some _ => true | None => false end.
Proof.
  induction m as [|[a v] m IH]; [reflexivity|].
  rewrite get_cons. cbn. destruct (eqb a k); [reflexivity | exact IH].
Qed.

Lemma collect_step (m : JSMap.t K V) (r : R) (k : K) :
  collect (step m r) k
  = collect m k ++ (if eqb (key r) k then [col r] else []).
Proof.
  unfold collect. destruct (has m (key r)) eqn:E.
  - rewrite (step_has _ _ E), get_modify.
    destruct (eqb (key r) k) eqn:Ek; [|rewrite app_nil_r; reflexivity].
    apply eqb_spec in Ek. subst k. rewrite has_get in E.
    destruct (get m (key r)) as [v|]; [|discriminate].
    cbn. apply proj_push.
  - rewrite (step_new _ _ E), get_modify, get_snoc.
    destruct (eqb (key r) k) eqn:Ek.
    + apply eqb_spec in Ek. subst k. rewrite has_get in E.
      destruct (get m (key r)) as [v|]; [discriminate|].
      cbn. rewrite proj_push, proj_init. reflexivity.
    + destruct (get m k); rewrite app_nil_r; reflexivity.
Qed.

Lemma collect_fold (rows : list R) (m : JSMap.t K V) (k : K) :
  collect (fold_left step rows m) k
  = collect m k ++ map col (filter (fun r => eqb (key r) k) rows).
Proof.
  revert m. induction rows as [|r rows IH]; intros m; cbn [fold_left filter].
  - cbn. rewrite app_nil_r. reflexivity.
  - rewrite IH, collect_step, <- app_assoc. f_equal.
    destruct (eqb (key r) k); reflexivity.
Qed.

Lemma get_In (m : JSMap.t K V) (k : K) (v : V) :
  NoDup (keys m) -> In (k, v) m -> get m k = Some v.
Proof.
  induction m as [|[a w] m IH]; intros Hnd Hin; [destruct Hin|].
  cbn in Hnd. inversion Hnd as [|? ? Ha Hm]; subst.
  rewrite get_cons. destruct Hin as [[= -> ->] | Hin].
  - rewrite eqb_refl. reflexivity.
  - destruct (eqb a k) eqn:E; [|apply IH; assumption].
    apply eqb_spec in E. subst a. exfalso. apply Ha.
    change k with (fst (k, v)). apply in_map. exact Hin.
Qed.

Lemma group_keys_NoDup (rows : list R) :
  NoDup (keys (JSMap.group eqb key init push rows)).
Proof.
  unfold JSMap.group. rewrite keys_fold.
  apply fold_addKey_NoDup. constructor.
Qed.

Lemma group_collect (rows : list R) (k : K) (v : V) :
  In (k, v) (JSMap.group eqb key init push rows) ->
  proj v = map col (filter (fun r => eqb (key r) k) rows).
Proof.
  intros Hin.
  pose proof (get_In _ _ _ (group_keys_NoDup rows) Hin) as Hget.
  pose proof (collect_fold rows (@JSMap.empty K V) k) as Hc.
  unfold collect in Hc. fold (JSMap.group eqb key init push rows) in Hc.
  rewrite Hget in Hc. exact Hc.
Qed.

End Columns.
End Facts.
End Grouping.

(* ------------------------------------------------------------------ *)
(** ** Foreign keys and indexes *)

Module ForeignKeys.

(** As many local columns as referenced columns. *)
Definition balanced (fk : ForeignKeyConstraint) : Prop :=
  length (fk_columns fk) = length (fk_referencedColumns fk).

Lemma group_balanced {K R} (eqb : K -> K -> bool) (key : R -> K)
  (init : R -> ForeignKeyConstraint)
  (push : R -> ForeignKeyConstraint -> ForeignKeyConstraint) :
  (forall r, balanced (init r)) ->
  (forall r fk, balanced fk -> balanced (push r fk)) ->
  forall rows fk,
    In fk (JSMap.values (JSMap.group eqb key init push rows)) -> balanced fk.
Proof.
  intros Hinit Hpush rows fk Hin.
  pose proof (Grouping.group_entriesOK eqb key init push
                (fun _ v => balanced v) Hinit
                (fun r _ v H => Hpush r v H) rows) as H.
  unfold Grouping.entriesOK in H. rewrite Forall_forall in H.
  unfold JSMap.values in Hin. apply in_map_iff in Hin.
  destruct Hin as [kv [<- Hkv]]. exact (H kv Hkv).
Qed.

Lemma push_balanced (cols refs : list string) (c r : string) :
  length cols = length refs -> length (cols ++ [c]) = length (refs ++ [r]).
Proof. intros H. rewrite !length_app, H. reflexivity. Qed.

(** C7: every foreign key that the MySQL, the SQLite or the PostgreSQL
    adapter builds from catalog rows has as many local columns as referenced
    columns. *)
Theorem foreign_key_cardinality (fk : ForeignKeyConstraint)
  (mysqlRows : list MySQLClient.ForeignKeyRow)
  (table : string) (sqliteRows : list SQLiteClient.ForeignKeyRow)
  (pgRows : list PostgreSQLClient.ForeignKeyRow) :
  In fk (MySQLClient.introspectForeignKeys mysqlRows)
  \/ In fk (SQLiteClient.introspectForeignKeys table sqliteRows)
  \/ In fk (PostgreSQLClient.introspectForeignKeys pgRows) ->
  length (fk_columns fk) = length (fk_referencedColumns fk).
Proof.
  intros [H | [H | H]]; revert H; apply group_balanced;
    try (intros r; reflexivity);
    intros r c Hc; apply push_balanced; exact Hc.
Qed.

(** A composite foreign key, one catalog row per column. *)
Definition orderItemRows : list MySQLClient.ForeignKeyRow :=
  [ MySQLClient.mkForeignKeyRow "fk_item_order" "order_id" "shop" "orders"
      "id" "CASCADE" "CASCADE";
    MySQLClient.mkForeignKeyRow "fk_item_product" "product_id" "shop"
      "products" "id" "NO ACTION" "RESTRICT";
    MySQLClient.mkForeignKeyRow "fk_item_order" "order_region" "shop" "orders"
      "region" "CASCADE" "CASCADE" ].

Definition itemOrderKey : ForeignKeyConstraint :=
  mkForeignKey "fk_item_order" ["order_id"; "order_region"] "orders" "shop"
    ["id"; "region"] "CASCADE" "CASCADE".

Lemma foreign_key_cardinality_witness :
  In itemOrderKey (MySQLClient.introspectForeignKeys orderItemRows)
  /\ length (fk_columns itemOrderKey)
     = length (fk_referencedColumns itemOrderKey).
Proof.
  assert (In itemOrderKey (MySQLClient.introspectForeignKeys orderItemRows))
    as H by (left; reflexivity).
  split; [exact H|].
  exact (foreign_key_cardinality itemOrderKey orderItemRows "items" [] []
           (or_introl H)).
Defined.

End ForeignKeys.

Module CatalogOrder.
Import MySQLClient.

(** The indexes follow the rows: one index per distinct name, in the order of
    first occurrence, with the columns of its rows in the order of the
    rows. *)
Definition indexesFollow (rows : list IndexRow) (ixs : list IndexSchema)
  : Prop :=
  map ix_name ixs = Grouping.distinctKeys String.eqb (map INDEX_NAME rows)
  /\ forall ix, In ix ixs ->
       ix_columns ix
       = map indexColumn
           (filter (fun r => String.eqb (INDEX_NAME r) (ix_name ix)) rows).

Definition foreignKeysFollow (rows : list ForeignKeyRow)
  (fks : list ForeignKeyConstraint) : Prop :=
  map fk_name fks
  = Grouping.distinctKeys String.eqb (map CONSTRAINT_NAME rows)
  /\ forall fk, In fk fks ->
       let mine :=
         filter (fun r => String.eqb (CONSTRAINT_NAME r) (fk_name fk)) rows in
       fk_columns fk = map FK_COLUMN_NAME mine
       /\ fk_referencedColumns fk = map REFERENCED_COLUMN_NAME mine.

(** The same index names, and under each name the same columns, up to
    order. *)
Definition sameIndexes (a c : list IndexSchema) : Prop :=
  Permutation (map ix_name a) (map ix_name c)
  /\ forall ix ix', In ix a -> In ix' c -> ix_name ix = ix_name ix' ->
       Permutation (ix_columns ix) (ix_columns ix').

(** The same constraint names, and under each name the same pairs of local
    and referenced column, up to order. *)
Definition sameForeignKeys (a c : list ForeignKeyConstraint) : Prop :=
  Permutation (map fk_name a) (map fk_name c)
  /\ forall fk fk', In fk a -> In fk' c -> fk_name fk = fk_name fk' ->
       Permutation (combine (fk_columns fk) (fk_referencedColumns fk))
                   (combine (fk_columns fk') (fk_referencedColumns fk')).

Lemma values_names {V} (name : V -> string) (m : JSMap.t string V) :
  Grouping.entriesOK (fun k v => name v = k) m ->
  map name (JSMap.values m) = JSMap.keys m.
Proof.
  unfold Grouping.entriesOK, JSMap.values, JSMap.keys.
  induction 1 as [|kv m Hkv _ IH]; cbn; [reflexivity|].
  rewrite Hkv, IH. reflexivity.
Qed.

Lemma values_entry {V} (name : V -> string) (m : JSMap.t string V) (v : V) :
  Grouping.entriesOK (fun k v => name v = k) m ->
  In v (JSMap.values m) -> In (name v, v) m.
Proof.
  unfold Grouping.entriesOK, JSMap.values. rewrite Forall_forall.
  intros H Hin. apply in_map_iff in Hin. destruct Hin as [[k w] [E Hkv]].
  cbn in E. subst w. pose proof (H _ Hkv) as E. cbn in E.
  rewrite E. exact Hkv.
Qed.

Lemma indexes_named (rows : list IndexRow) :
  Grouping.entriesOK (fun k ix => ix_name ix = k)
    (JSMap.group String.eqb INDEX_NAME newIndex pushIndexColumn rows).
Proof. apply Grouping.group_entriesOK; intros; cbn; auto. Qed.

Lemma foreignKeys_named (rows : list ForeignKeyRow) :
  Grouping.entriesOK (fun k fk => fk_name fk = k)
    (JSMap.group String.eqb CONSTRAINT_NAME newForeignKey
       pushForeignKeyColumn rows).
Proof. apply Grouping.group_entriesOK; intros; cbn; auto. Qed.

Lemma introspectIndexes_follow (rows : list IndexRow) :
  indexesFollow rows (introspectIndexes rows).
Proof.
  unfold indexesFollow, introspectIndexes. split.
  - rewrite (values_names ix_name (indexes_named rows)).
    unfold JSMap.group. rewrite Grouping.keys_fold. reflexivity.
  - intros ix Hin.
    apply (values_entry ix_name ix (indexes_named rows)) in Hin.
    apply (@Grouping.group_collect _ _ _ String.eqb String.eqb_eq INDEX_NAME
             newIndex pushIndexColumn _ ix_columns indexColumn)
      with (rows := rows); [intros; reflexivity .. | exact Hin].
Qed.

Lemma introspectForeignKeys_follow (rows : list ForeignKeyRow) :
  foreignKeysFollow rows (introspectForeignKeys rows).
Proof.
  unfold foreignKeysFollow, introspectForeignKeys. split.
  - rewrite (values_names fk_name (foreignKeys_named rows)).
    unfold JSMap.group. rewrite Grouping.keys_fold. reflexivity.
  - intros fk Hin.
    apply (values_entry fk_name fk (foreignKeys_named rows)) in Hin.
    split.
    + apply (@Grouping.group_collect _ _ _ String.eqb String.eqb_eq
               CONSTRAINT_NAME newForeignKey pushForeignKeyColumn _
               fk_columns FK_COLUMN_NAME)
        with (rows := rows); [intros; reflexivity .. | exact Hin].
    + apply (@Grouping.group_collect _ _ _ String.eqb String.eqb_eq
               CONSTRAINT_NAME newForeignKey pushForeignKeyColumn _
               fk_referencedColumns REFERENCED_COLUMN_NAME)
        with (rows := rows); [intros; reflexivity .. | exact Hin].
Qed.

Definition abFirst : IndexRow :=
  mkIndexRow "idx_ab" 1 "a" 1 (Some "A") "BTREE" 0.
Definition abSecond : IndexRow :=
  mkIndexRow "idx_ab" 1 "b" 2 (Some "A") "BTREE" 0.

(** C4 as stated fails: with the two rows of a two-column index in the other
    order, the index has its columns in the other order. *)
Lemma index_columns_follow_row_order :
  ~ (forall (rows rows' : list IndexRow) (frows frows' : list ForeignKeyRow),
       Permutation rows rows' -> Permutation frows frows' ->
       introspectIndexes rows = introspectIndexes rows'
       /\ introspectForeignKeys frows = introspectForeignKeys frows').
Proof.
  intros H.
  destruct (H [abFirst; abSecond] [abSecond; abFirst] [] []
              (perm_swap _ _ _) (perm_nil _)) as [Hix _].
  vm_compute in Hix. discriminate Hix.
Qed.

(** C4, amended: the grouping fold yields one index (foreign key) per
    distinct name, in the order in which the names first occur in the rows,
    and each has the columns of its rows in the order of the rows; for every
    permutation of the rows the names are the same and, under each name, the
    columns (for a foreign key, the pairs of local and referenced column) are
    the same up to order. *)
Theorem grouping_up_to_order (rows rows' : list IndexRow)
  (frows frows' : list ForeignKeyRow) :
  Permutation rows rows' -> Permutation frows frows' ->
  indexesFollow rows (introspectIndexes rows)
  /\ foreignKeysFollow frows (introspectForeignKeys frows)
  /\ sameIndexes (introspectIndexes rows) (introspectIndexes rows')
  /\ sameForeignKeys (introspectForeignKeys frows)
       (introspectForeignKeys frows').
Proof.
  intros HP HF.
  destruct (introspectIndexes_follow rows) as [Hn Hc].
  destruct (introspectIndexes_follow rows') as [Hn' Hc'].
  destruct (introspectForeignKeys_follow frows) as [Fn Fc].
  destruct (introspectForeignKeys_follow frows') as [Fn' Fc'].
  split; [split; assumption|]. split; [split; assumption|]. split; split.
  - rewrite Hn, Hn'.
    apply (@Grouping.distinctKeys_Permutation _ String.eqb String.eqb_eq).
    apply Permutation_map, HP.
  - intros ix ix' Hin Hin' E. rewrite (Hc _ Hin), (Hc' _ Hin'), E.
    apply Permutation_map, Grouping.filter_Permutation, HP.
  - rewrite Fn, Fn'.
    apply (@Grouping.distinctKeys_Permutation _ String.eqb String.eqb_eq).
    apply Permutation_map, HF.
  - intros fk fk' Hin Hin' E.
    destruct (Fc _ Hin) as [-> ->]. destruct (Fc' _ Hin') as [-> ->].
    rewrite E, !Grouping.combine_map_same.
    apply Permutation_map, Grouping.filter_Permutation, HF.
Qed.

Lemma grouping_up_to_order_witness :
  Permutation [abFirst; abSecond] [abSecond; abFirst]
  /\ sameIndexes (introspectIndexes [abFirst; abSecond])
       (introspectIndexes [abSecond; abFirst]).
Proof.
  split; [apply perm_swap|].
  exact (proj1 (proj2 (proj2
           (@grouping_up_to_order [abFirst; abSecond] [abSecond; abFirst]
              [] [] (perm_swap abSecond abFirst []) (perm_nil _))))).
Defined.

End CatalogOrder.

(* ================================================================== *)
(** * Further properties of the validator and the base client *)

Module StrFacts.
Import Str.

Lemma upperChar_idem (c : ascii) : upperChar (upperChar c) = upperChar c.
Proof. destruct c as [[] [] [] [] [] [] [] []]; reflexivity. Qed.

Lemma upperChar_space (c : ascii) :
  isWhiteSpace (upperChar c) = isWhiteSpace c.
Proof. destruct c as [[] [] [] [] [] [] [] []]; reflexivity. Qed.

Lemma toUpperCase_idem (s : string) :
  toUpperCase (toUpperCase s) = toUpperCase s.
Proof.
  induction s as [|c s IH]; cbn; [reflexivity|].
  rewrite upperChar_idem, IH. reflexivity.
Qed.

Lemma trimStart_upper (s : string) :
  trimStart (toUpperCase s) = toUpperCase (trimStart s).
Proof.
  induction s as [|c s IH]; cbn; [reflexivity|].
  rewrite upperChar_space. destruct (isWhiteSpace c); [exact IH | reflexivity].
Qed.

Lemma trimEnd_upper (s : string) :
  trimEnd (toUpperCase s) = toUpperCase (trimEnd s).
Proof.
  induction s as [|c s IH]; cbn [toUpperCase trimEnd]; [reflexivity|].
  rewrite IH, upperChar_space.
  destruct (trimEnd s); cbn [toUpperCase]; [|reflexivity].
  destruct (isWhiteSpace c); reflexivity.
Qed.

Lemma trim_upper (s : string) : trim (toUpperCase s) = toUpperCase (trim s).
Proof. unfold trim. rewrite trimStart_upper, trimEnd_upper. reflexivity. Qed.

(** A string that does not begin with white space. *)
Definition startsClean (s : string) : Prop :=
  match s with
  | EmptyString => True
  | String c _ => isWhiteSpace c = false
  end.

Lemma trimStart_clean (s : string) : startsClean (trimStart s).
Proof.
  induction s as [|c s IH]; cbn; [exact I|].
  destruct (isWhiteSpace c) eqn:E; [exact IH | exact E].
Qed.

Lemma trimStart_of_clean (s : string) : startsClean s -> trimStart s = s.
Proof. destruct s as [|c s]; cbn; [reflexivity|]. intros ->. reflexivity. Qed.

Lemma trimEnd_clean (s : string) : startsClean s -> startsClean (trimEnd s).
Proof.
  destruct s as [|c s]; cbn [trimEnd startsClean]; [auto|]. intros H.
  destruct (trimEnd s); [rewrite H|]; exact H.
Qed.

Lemma trimEnd_idem (s : string) : trimEnd (trimEnd s) = trimEnd s.
Proof.
  induction s as [|c s IH]; [reflexivity|]. cbn [trimEnd].
  destruct (trimEnd s) as [|d t] eqn:E.
  - destruct (isWhiteSpace c) eqn:Ec; [reflexivity|].
    cbn [trimEnd]. rewrite Ec. reflexivity.
  - cbn [trimEnd] in IH |- *. rewrite IH. reflexivity.
Qed.

Lemma trim_idem (s : string) : trim (trim s) = trim s.
Proof.
  unfold trim.
  rewrite (trimStart_of_clean _ (trimEnd_clean _ (trimStart_clean s))).
  apply trimEnd_idem.
Qed.

(** The texts on which [trim] and [toUpperCase] are those of JavaScript:
    every code unit is below 128. *)
Definition isAsciiChar (c : ascii) : bool := (code c <? 128)%nat.

Fixpoint isAscii (s : string) : bool :=
  match s with
  | EmptyString => true
  | String c s' => isAsciiChar c && isAscii s'
  end.

Lemma upperChar_ascii (c : ascii) :
  isAsciiChar c = true -> isAsciiChar (upperChar c) = true.
Proof.
  destruct c as [[] [] [] [] [] [] [] []]; intros H;
    try reflexivity; discriminate H.
Qed.

Lemma toUpperCase_ascii (s : string) :
  isAscii s = true -> isAscii (toUpperCase s) = true.
Proof.
  induction s as [|c s IH]; cbn [isAscii toUpperCase]; [auto|].
  rewrite !andb_true_iff. intros [Hc Hs].
  split; [apply upperChar_ascii, Hc | apply IH, Hs].
Qed.

Lemma trimStart_ascii (s : string) :
  isAscii s = true -> isAscii (trimStart s) = true.
Proof.
  induction s as [|c s IH]; cbn [trimStart]; [auto|].
  destruct (isWhiteSpace c); [|auto].
  cbn [isAscii]. rewrite andb_true_iff. intros [_ Hs]. apply IH, Hs.
Qed.

Lemma trimEnd_ascii (s : string) :
  isAscii s = true -> isAscii (trimEnd s) = true.
Proof.
  induction s as [|c s IH]; cbn [trimEnd]; [auto|].
  cbn [isAscii]. rewrite andb_true_iff. intros [Hc Hs].
  specialize (IH Hs). destruct (trimEnd s) as [|d t].
  - destruct (isWhiteSpace c); cbn [isAscii]; [reflexivity|].
    rewrite Hc. reflexivity.
  - cbn [isAscii] in IH |- *. rewrite Hc. exact IH.
Qed.

Lemma trim_ascii (s : string) : isAscii s = true -> isAscii (trim s) = true.
Proof. intros H. apply trimEnd_ascii, trimStart_ascii, H. Qed.

Lemma startsWith_itself (p s : string) : startsWith (p ++ s) p = true.
Proof.
  induction p as [|c p IH]; cbn; [destruct s; reflexivity|].
  rewrite Ascii.eqb_refl. exact IH.
Qed.

End StrFacts.

Module ValidatorVerdict.
Import QueryValidator ValidatorFacts.

(** The part of a verdict that decides whether a query may run. *)
Definition verdict (r : ValidationResult)
  : bool * list Finding * QueryType * bool * Complexity * bool :=
  (isValid r, errors r, queryType (metadata r), isMutation (metadata r),
   estimatedComplexity (metadata r), requiresConfirmation (metadata r)).

Lemma verdict_of_normalized (q q' : string) :
  normalize q = normalize q' -> verdict (validate q) = verdict (validate q').
Proof.
  unfold normalize. intros H.
  unfold verdict, validate, detectQueryType.
  cbn [isValid errors metadata queryType isMutation estimatedComplexity
       requiresConfirmation].
  rewrite H. reflexivity.
Qed.

Lemma normalize_upper (q : string) : normalize (Str.toUpperCase q) = normalize q.
Proof.
  unfold normalize. rewrite StrFacts.trim_upper. apply StrFacts.toUpperCase_idem.
Qed.

Lemma normalize_trim (q : string) : normalize (Str.trim q) = normalize q.
Proof. unfold normalize. rewrite StrFacts.trim_idem. reflexivity. Qed.

(** X1: for a query of ASCII characters, on which the string primitives
    are those of JavaScript, the upper-cased and the trimmed query are again
    ASCII, and letter case and surrounding white space change neither the
    validity, the errors, the statement kind, the mutation flag, the
    complexity nor the confirmation flag of the verdict. *)
Theorem verdict_ignores_case_and_margin (q : string) :
  StrFacts.isAscii q = true ->
  (StrFacts.isAscii (Str.toUpperCase q) = true
   /\ verdict (validate (Str.toUpperCase q)) = verdict (validate q))
  /\ (StrFacts.isAscii (Str.trim q) = true
      /\ verdict (validate (Str.trim q)) = verdict (validate q))
  /\ (StrFacts.isAscii (normalize q) = true
      /\ verdict (validate (normalize q)) = verdict (validate q)).
Proof.
  intros Hq. split; [|split]; split.
  - apply StrFacts.toUpperCase_ascii, Hq.
  - apply verdict_of_normalized, normalize_upper.
  - apply StrFacts.trim_ascii, Hq.
  - apply verdict_of_normalized, normalize_trim.
  - apply StrFacts.toUpperCase_ascii, StrFacts.trim_ascii, Hq.
  - apply verdict_of_normalized.
    change (normalize (Str.toUpperCase (Str.trim q)) = normalize q).
    rewrite normalize_upper. apply normalize_trim.
Qed.

Lemma verdict_ignores_case_and_margin_witness :
  StrFacts.isAscii "  delete from Users " = true
  /\ verdict (validate "  DELETE FROM USERS ")
     = verdict (validate "  delete from Users ")
  /\ verdict (validate "delete from Users")
     = verdict (validate "  delete from Users ").
Proof.
  split; [reflexivity|].
  pose proof (@verdict_ignores_case_and_margin "  delete from Users " eq_refl)
    as [[_ Hupper] [[_ Htrim] _]].
  split; [exact Hupper | exact Htrim].
Defined.

Lemma isValid_spec (q : string) :
  isValid (validate q) = true
  <-> detectDangerousOperations (normalize q) = []
      /\ ~ (detectQueryType q = DELETE
            /\ Str.includes (normalize q) "WHERE" = false).
Proof.
  unfold validate, normalize. cbn [isValid].
  rewrite Nat.eqb_eq, length_zero_iff_nil.
  set (d := detectDangerousOperations _).
  set (w := Str.includes _ "WHERE").
  destruct (detectQueryType q) eqn:Et; cbn [isMutationQuery existsb
    QueryType_eqb orb andb negb when];
  destruct d as [|op d]; cbn [length Nat.ltb Nat.leb when map app];
  destruct w; cbn [negb andb when app];
  split; intros H; try discriminate; try reflexivity;
  try (split; [reflexivity|]; intros [? ?]; discriminate);
  try (destruct H as [H _]; discriminate H);
  try (destruct H as [_ H]; exfalso; apply H; split; reflexivity).
Qed.

(** X2: a query is valid exactly when no dangerous pattern matches its
    normalized text and it is not a DELETE whose text lacks [WHERE]. *)
Theorem isValid_iff (q : string) :
  isValid (validate q) = true
  <-> detectDangerousOperations (normalize q) = []
      /\ ~ (detectQueryType q = DELETE
            /\ Str.includes (normalize q) "WHERE" = false).
Proof. apply isValid_spec. Qed.

End ValidatorVerdict.

Module BaseClientTimeout.
Import Num.

(** [BaseDatabaseClient.normalizeTimeout]. *)
Definition normalizeTimeout (timeout : option number) : number :=
  let defaultTimeout := ofZ 30000 in
  let maxTimeout := ofZ 300000 in
  match timeout with
  | None => defaultTimeout
  | Some timeout =>
      if negb (truthy timeout) then defaultTimeout
      else if ltb timeout (ofZ 0) then defaultTimeout
      else if gtb timeout maxTimeout then maxTimeout
      else timeout
  end.

End BaseClientTimeout.

Module Limits.
Import Num BaseDatabaseClient BaseClientTimeout.

(** The shape both normalizations share. *)
Definition clamp (dflt mx : Z) (x : option number) : number :=
  match x with
  | None => ofZ dflt
  | Some x =>
      if negb (truthy x) then ofZ dflt
      else if ltb x (ofZ 0) then ofZ dflt
      else if gtb x (ofZ mx) then ofZ mx
      else x
  end.

Definition within (mx : Z) (r : number) : Prop :=
  exists q, r = Fin q /\ (0 < q)%Q /\ (q <= inject_Z mx)%Q.

Lemma clamp_within (dflt mx : Z) (x : option number) :
  (0 < dflt <= mx)%Z -> within mx (clamp dflt mx x).
Proof.
  intros [Hd Hm].
  assert (within mx (ofZ dflt)) as Hdflt.
  { exists (inject_Z dflt). split; [reflexivity|].
    split; [|rewrite <- Zle_Qle; assumption].
    change (inject_Z 0 < inject_Z dflt)%Q. rewrite <- Zlt_Qlt. assumption. }
  assert (within mx (ofZ mx)) as Hmax.
  { exists (inject_Z mx). split; [reflexivity|].
    split; [|apply Qle_refl].
    change (inject_Z 0 < inject_Z mx)%Q. rewrite <- Zlt_Qlt. lia. }
  destruct x as [x|]; [|exact Hdflt]. unfold clamp.
  destruct (truthy x) eqn:Et; cbn [negb]; [|exact Hdflt].
  destruct (ltb x (ofZ 0)) eqn:E0; [exact Hdflt|].
  destruct (gtb x (ofZ mx)) eqn:E1; [exact Hmax|].
  destruct x as [| | |q]; cbn in Et, E0, E1; try discriminate.
  apply negb_false_iff in E0, E1. apply negb_true_iff in Et.
  apply Qle_bool_iff in E0, E1.
  exists q. split; [reflexivity|]. split; [|exact E1].
  apply Qle_lteq in E0. destruct E0 as [H | H]; [exact H|].
  exfalso. symmetry in H. apply Qeq_bool_iff in H.
  change (inject_Z 0) with 0%Q in H. congruence.
Qed.

Lemma clamp_fixed (dflt mx : Z) (r : number) :
  within mx r -> clamp dflt mx (Some r) = r.
Proof.
  intros (q & -> & Hpos & Hle). unfold clamp. cbn [truthy ltb gtb ofZ].
  assert (Qeq_bool q 0 = false) as ->.
  { destruct (Qeq_bool q 0) eqn:E; [|reflexivity].
    apply Qeq_bool_iff in E. rewrite E in Hpos.
    exfalso. exact (Qlt_irrefl _ Hpos). }
  assert (Qle_bool (inject_Z 0) q = true) as ->.
  { apply Qle_bool_iff, Qlt_le_weak. exact Hpos. }
  assert (Qle_bool q (inject_Z mx) = true) as ->.
  { apply Qle_bool_iff. exact Hle. }
  reflexivity.
Qed.

(** X3: whatever timeout is requested (none, NaN, an infinity, a negative or
    a huge number), [normalizeTimeout] answers a finite timeout above 0 and
    at most 300000 ms, and normalizing twice changes nothing. *)
Theorem normalizeTimeout_bounds (timeout : option number) :
  (exists q, normalizeTimeout timeout = Fin q
             /\ (0 < q)%Q /\ (q <= inject_Z 300000)%Q)
  /\ normalizeTimeout (Some (normalizeTimeout timeout))
     = normalizeTimeout timeout.
Proof.
  assert (within 300000 (normalizeTimeout timeout)) as H
    by (apply (@clamp_within 30000%Z 300000%Z timeout); lia).
  split; [exact H|]. apply (@clamp_fixed 30000%Z 300000%Z _ H).
Qed.

(** X4: whatever row limit is requested, [normalizeMaxRows] answers a finite
    limit above 0 and at most 10000, and normalizing twice changes
    nothing. *)
Theorem normalizeMaxRows_bounds (maxRows : option number) :
  (exists q, normalizeMaxRows maxRows = Fin q
             /\ (0 < q)%Q /\ (q <= inject_Z 10000)%Q)
  /\ normalizeMaxRows (Some (normalizeMaxRows maxRows))
     = normalizeMaxRows maxRows.
Proof.
  assert (within 10000 (normalizeMaxRows maxRows)) as H
    by (apply (@clamp_within 1000%Z 10000%Z maxRows); lia).
  split; [exact H|]. apply (@clamp_fixed 1000%Z 10000%Z _ H).
Qed.

End Limits.

Module QualifiedNames.
Import BaseDatabaseClient.

Lemma split_first_piece (a r : string) :
  Str.includes a "." = false ->
  Str.split "." (a ++ "." ++ r) = a :: Str.split "." r.
Proof.
  induction a as [|c a IH]; intros H; [reflexivity|].
  apply TableNames.includes_dot_cons in H. destruct H as [Hc Ha].
  specialize (IH Ha). cbn [append] in IH |- *.
  cbn [Str.split]. rewrite Hc, IH. reflexivity.
Qed.

Lemma split_nonempty (r : string) : (1 <= length (Str.split "." r))%nat.
Proof.
  induction r as [|c r IH]; cbn [Str.split]; [cbn; lia|].
  destruct (Ascii.eqb c "."); [cbn; lia|].
  destruct (Str.split "." r); cbn in *; lia.
Qed.

Lemma split_with_separator (r : string) :
  Str.includes r "." = true -> (2 <= length (Str.split "." r))%nat.
Proof.
  induction r as [|c r IH]; intros H; [discriminate H|].
  cbn [Str.split]. destruct (Ascii.eqb c ".") eqn:Ec.
  - pose proof (split_nonempty r). cbn [length]. lia.
  - assert (Str.includes r "." = true) as Hr.
    { cbn [Str.includes Str.startsWith] in H.
      rewrite Ascii.eqb_sym, Ec in H. destruct r; exact H. }
    specialize (IH Hr). destruct (Str.split "." r); cbn in *; lia.
Qed.

(** X5: a schema and a table name without dots, joined by a dot, are parsed
    back into that schema and that table; the MySQL adapter then binds the
    schema (or [public] when it is empty) and the table. *)
Theorem parseTableName_qualified (s t : string) :
  Str.includes s "." = false -> Str.includes t "." = false ->
  parseTableName (s ++ "." ++ t) = mkTableName s t
  /\ MySQLClient.statisticsParams (s ++ "." ++ t) = [orString (Some s) "public"; t].
Proof.
  intros Hs Ht.
  assert (parseTableName (s ++ "." ++ t) = mkTableName s t) as Hp.
  { unfold parseTableName.
    rewrite (@split_first_piece s t Hs), (@TableNames.split_without_separator t Ht).
    reflexivity. }
  split; [exact Hp|].
  unfold MySQLClient.statisticsParams. rewrite Hp. reflexivity.
Qed.

Lemma parseTableName_qualified_witness :
  Str.includes "shop" "." = false /\ Str.includes "orders" "." = false
  /\ parseTableName "shop.orders" = mkTableName "shop" "orders".
Proof.
  split; [reflexivity|]. split; [reflexivity|].
  exact (proj1 (@parseTableName_qualified "shop" "orders" eq_refl eq_refl)).
Defined.

(** X6: a name with two or more dots is not taken apart: the schema is
    [public] and the table is the text before the first dot. *)
Theorem parseTableName_three_parts (a r : string) :
  Str.includes a "." = false -> Str.includes r "." = true ->
  parseTableName (a ++ "." ++ r) = mkTableName "public" a.
Proof.
  intros Ha Hr. unfold parseTableName. rewrite (@split_first_piece a r Ha).
  pose proof (@split_with_separator r Hr) as Hlen.
  cbn [length nth].
  destruct (Nat.eqb_spec (S (length (Str.split "." r))) 2) as [E|_];
    [lia | reflexivity].
Qed.

Lemma parseTableName_three_parts_witness :
  Str.includes "db" "." = false /\ Str.includes "shop.orders" "." = true
  /\ parseTableName "db.shop.orders" = mkTableName "public" "db".
Proof.
  split; [reflexivity|]. split; [reflexivity|].
  exact (@parseTableName_three_parts "db" "shop.orders" eq_refl eq_refl).
Defined.

End QualifiedNames.

(* ================================================================== *)
(** * The server: request framing ([MCPServer.setupStdio]) *)

Module Stdio.

Definition newline : ascii := ascii_of_nat 10.

(** [s.indexOf(c)] for a character: [None] stands for [-1]. *)
Fixpoint indexOf (c : ascii) (s : string) : option nat :=
  match s with
  | EmptyString => None
  | String x s' =>
      if Ascii.eqb x c then Some 0%nat
      else option_map S (indexOf c s')
  end.

(** [s.slice(0, n)] and [s.slice(n)] for an index [n] inside the string. *)
Fixpoint sliceTo (n : nat) (s : string) : string :=
  match n, s with
  | S n', String x s' => String x (sliceTo n' s')
  | _, _ => EmptyString
  end.

Fixpoint sliceFrom (n : nat) (s : string) : string :=
  match n, s with
  | S n', String _ s' => sliceFrom n' s'
  | _, _ => s
  end.

Definition blank (s : string) : bool :=
  match s with EmptyString => true | String _ _ => false end.

(** The loop of the [data] handler: as long as the buffer holds a newline,
    the line before it is cut off and, unless it is blank, handed over
    trimmed.  The result is the list of lines handed to [handleRequest] and
    the buffer that is left.  Every turn removes a newline, so a counter
    above the length of the buffer lets the loop run to its end. *)
Fixpoint drain (turns : nat) (buffer : string) : list string * string :=
  match turns with
  | O => ([], buffer)
  | S turns' =>
      match indexOf newline buffer with
      | None => ([], buffer)
      | Some newlineIndex =>
          let line := sliceTo newlineIndex buffer in
          let buffer := sliceFrom (newlineIndex + 1) buffer in
          let '(lines, rest) := drain turns' buffer in
          (if blank (Str.trim line) then lines else Str.trim line :: lines,
           rest)
      end
  end.

(** One [data] event: the chunk is appended to the buffer and the buffer is
    drained. *)
Definition onData (buffer chunk : string) : list string * string :=
  let buffer := (buffer ++ chunk)%string in
  drain (S (String.length buffer)) buffer.

End Stdio.

Module StdioFacts.
Import Stdio.

(** The complete lines of a text and what follows the last newline. *)
Fixpoint cut (s : string) : list string * string :=
  match s with
  | EmptyString => ([], EmptyString)
  | String c s' =>
      let '(ls, r) := cut s' in
      if Ascii.eqb c newline then (EmptyString :: ls, r)
      else match ls with
           | [] => ([], String c r)
           | l :: ls' => (String c l :: ls', r)
           end
  end.

(** What is handed over of a list of lines. *)
Fixpoint dispatched (ls : list string) : list string :=
  match ls with
  | [] => []
  | l :: ls' =>
      if blank (Str.trim l) then dispatched ls'
      else Str.trim l :: dispatched ls'
  end.

Lemma dispatched_app (a c : list string) :
  dispatched (a ++ c) = dispatched a ++ dispatched c.
Proof.
  induction a as [|l a IH]; cbn; [reflexivity|].
  destruct (blank (Str.trim l)); cbn; rewrite IH; reflexivity.
Qed.

Lemma indexOf_None (s : string) :
  indexOf newline s = None -> cut s = ([], s).
Proof.
  induction s as [|c s IH]; cbn [indexOf cut]; [reflexivity|].
  destruct (Ascii.eqb c newline); [discriminate|].
  destruct (indexOf newline s); [discriminate|].
  intros _. rewrite (IH eq_refl). reflexivity.
Qed.

Lemma indexOf_Some (s : string) (i : nat) :
  indexOf newline s = Some i ->
  cut s = (sliceTo i s :: fst (cut (sliceFrom (i + 1) s)),
           snd (cut (sliceFrom (i + 1) s)))
  /\ (String.length (sliceFrom (i + 1) s) < String.length s)%nat.
Proof.
  revert i. induction s as [|c s IH]; intros i; cbn [indexOf]; [discriminate|].
  destruct (Ascii.eqb c newline) eqn:Ec.
  - intros [= <-]. cbn [cut sliceTo sliceFrom Nat.add String.length].
    rewrite Ec. destruct (cut s) as [ls r]. split; [reflexivity | lia].
  - destruct (indexOf newline s) as [j|]; [|discriminate].
    intros [= <-]. destruct (IH j eq_refl) as [Hc Hl].
    cbn [cut sliceTo sliceFrom Nat.add String.length].
    rewrite Hc, Ec. split; [reflexivity | lia].
Qed.

Lemma drain_cut (turns : nat) (s : string) :
  (String.length s < turns)%nat ->
  drain turns s = (dispatched (fst (cut s)), snd (cut s)).
Proof.
  revert s. induction turns as [|turns IH]; intros s Hlen; [lia|].
  cbn [drain]. destruct (indexOf newline s) as [i|] eqn:Ei.
  - destruct (indexOf_Some _ Ei) as [Hc Hl].
    rewrite (IH (sliceFrom (i + 1) s)) by lia.
    rewrite Hc. cbn [fst snd dispatched].
    destruct (blank (Str.trim (sliceTo i s))); reflexivity.
  - rewrite (indexOf_None _ Ei). reflexivity.
Qed.

Lemma onData_cut (buffer chunk : string) :
  onData buffer chunk
  = (dispatched (fst (cut (buffer ++ chunk))), snd (cut (buffer ++ chunk))).
Proof. unfold onData. apply drain_cut. lia. Qed.

Lemma cut_app (x y : string) :
  cut (x ++ y)
  = (fst (cut x) ++ fst (cut (snd (cut x) ++ y)),
     snd (cut (snd (cut x) ++ y))).
Proof.
  induction x as [|c x IH]; cbn [append cut fst snd app].
  - destruct (cut y); reflexivity.
  - rewrite IH. destruct (cut x) as [l1 r1]. cbn [fst snd].
    destruct (Ascii.eqb c newline) eqn:Ec; cbn [fst snd app].
    + reflexivity.
    + destruct l1 as [|l l1]; cbn [fst snd app append cut].
      * rewrite Ec. destruct (cut (r1 ++ y)) as [l2 r2]. cbn [fst snd].
        destruct l2; reflexivity.
      * reflexivity.
Qed.

Lemma cut_rest (s : string) : indexOf newline (snd (cut s)) = None.
Proof.
  induction s as [|c s IH]; cbn [cut]; [reflexivity|].
  destruct (cut s) as [ls r]. cbn [snd] in IH.
  destruct (Ascii.eqb c newline) eqn:Ec; [exact IH|].
  destruct ls; cbn [snd indexOf]; [rewrite Ec, IH; reflexivity | exact IH].
Qed.

Lemma dispatched_clean (ls : list string) :
  Forall (fun l => l <> EmptyString /\ Str.trim l = l) (dispatched ls).
Proof.
  induction ls as [|l ls IH]; cbn; [constructor|].
  destruct (blank (Str.trim l)) eqn:E; [exact IH|].
  constructor; [|exact IH]. split.
  - intros H. rewrite H in E. discriminate E.
  - apply StrFacts.trim_idem.
Qed.

(** X7: the requests handed over do not depend on how the input is cut into
    chunks: two [data] events with the chunks [c1] and [c2] hand over the
    lines, and leave the buffer, that one event with [c1 ++ c2] does.  The
    buffer left behind never holds a newline, and every line handed over is
    non-empty and trimmed. *)
Theorem framing_ignores_chunking (buffer c1 c2 : string) :
  let '(lines1, buffer1) := onData buffer c1 in
  let '(lines2, buffer2) := onData buffer1 c2 in
  onData buffer (c1 ++ c2) = (lines1 ++ lines2, buffer2)
  /\ indexOf newline buffer2 = None
  /\ Forall (fun l => l <> EmptyString /\ Str.trim l = l) (lines1 ++ lines2).
Proof.
  rewrite (onData_cut buffer c1), (onData_cut _ c2), (onData_cut buffer).
  assert ((buffer ++ c1 ++ c2)%string = ((buffer ++ c1) ++ c2)%string) as ->.
  { induction buffer as [|c b IH]; cbn; [reflexivity | rewrite IH; reflexivity]. }
  rewrite (cut_app (buffer ++ c1) c2). cbn [fst snd].
  split; [|split].
  - rewrite dispatched_app. reflexivity.
  - apply cut_rest.
  - rewrite <- dispatched_app. apply dispatched_clean.
Qed.

(** A request split in the middle, followed by a blank line and the start of
    the next request. *)
Example two_chunks :
  let nl := String newline EmptyString in
  onData "" ("{a" ++ "}" ++ nl ++ "  " ++ nl ++ "{b")%string
  = (["{a}"], "{b")
  /\ onData "" "{a" = ([], "{a")
  /\ onData "{a" ("}" ++ nl ++ "  " ++ nl ++ "{b")%string = (["{a}"], "{b").
Proof. repeat split; reflexivity. Qed.

End StdioFacts.

(* ================================================================== *)
(** * PostgreSQL: the plan tree of [explain] *)

Module PostgreSQLExplain.
Import Num PostgreSQLClient.

(** The properties of a node of the JSON plan that [parseExplainNode]
    reads, under the names of the plan ([Node Type], [Relation Name], ...). *)
Record PlanProps : Type := mkPlanProps {
  Node_Type : string;
  Relation_Name : option string;
  Alias : option string;
  Startup_Cost : number;
  Total_Cost : number;
  Plan_Rows : number;
  Plan_Width : number;
  Actual_Total_Time : option number;
  Actual_Rows : option number;
  Actual_Loops : option number;
  Filter : option string;
  Join_Type : option string;
  Index_Name : option string;
  Index_Cond : option string
}.

#[local] Unset Elimination Schemes.
(** A node of the JSON plan; [Plans] may be absent. *)
Inductive PlanObject : Type :=
| PlanObj (props : PlanProps) (Plans : option (list PlanObject)).

(** [ExplainNode] of [types.ts]. *)
Inductive ExplainNode : Type :=
| ENode (nodeType : string) (relationName : option string)
    (alias : option string) (startupCost totalCost planRows planWidth : number)
    (actualTimeMs actualRows loops : option number)
    (filter joinType indexName indexCondition : option string)
    (children : list ExplainNode).
#[local] Set Elimination Schemes.

Definition e_nodeType (n : ExplainNode) : string :=
  match n with ENode t _ _ _ _ _ _ _ _ _ _ _ _ _ _ => t end.
Definition e_relationName (n : ExplainNode) : option string :=
  match n with ENode _ r _ _ _ _ _ _ _ _ _ _ _ _ _ => r end.
Definition e_planRows (n : ExplainNode) : number :=
  match n with ENode _ _ _ _ _ r _ _ _ _ _ _ _ _ _ => r end.
Definition e_children (n : ExplainNode) : list ExplainNode :=
  match n with ENode _ _ _ _ _ _ _ _ _ _ _ _ _ _ c => c end.

Fixpoint parseExplainNode (node : PlanObject) : ExplainNode :=
  match node with
  | PlanObj p plans =>
      ENode (Node_Type p) (Relation_Name p) (Alias p) (Startup_Cost p)
        (Total_Cost p) (Plan_Rows p) (Plan_Width p) (Actual_Total_Time p)
        (Actual_Rows p) (Actual_Loops p) (Filter p) (Join_Type p)
        (Index_Name p) (Index_Cond p)
        (match plans with
         | Some ps => map parseExplainNode ps
         | None => []
         end)
  end.

(** The same node as the recommendation pass reads it. *)
Fixpoint asPlan (node : PlanObject) : Plan :=
  match node with
  | PlanObj p plans =>
      PlanNode (Node_Type p) (Plan_Rows p) (Relation_Name p)
        (match plans with
         | Some ps => map asPlan ps
         | None => []
         end)
  end.

(** The fields [nodes] and [recommendations] of what [explain] returns for
    the plan [plan.Plan]. *)
Definition explainNodes (plan : PlanObject) : list ExplainNode :=
  [parseExplainNode plan].

Definition explainRecommendations (plan : PlanObject) : list string :=
  generateRecommendations (asPlan plan).

End PostgreSQLExplain.

Module PostgreSQLExplainFacts.
Import Num PostgreSQLClient PostgreSQLExplain Recommendations.

Fixpoint PlanObject_ind (P : PlanObject -> Prop)
  (H : forall p plans,
         match plans with Some ps => Forall P ps | None => True end ->
         P (PlanObj p plans))
  (node : PlanObject) {struct node} : P node :=
  match node with
  | PlanObj p plans =>
      H p plans
        (match plans
               return match plans with Some ps => Forall P ps | None => True end
         with
         | Some ps =>
             (fix all (l : list PlanObject) : Forall P l :=
                match l with
                | [] => Forall_nil P
                | x :: l' => Forall_cons x (@PlanObject_ind P H x) (all l')
                end) ps
         | None => I
         end)
  end.

Definition objectChildren (node : PlanObject) : list PlanObject :=
  match node with
  | PlanObj _ (Some ps) => ps
  | PlanObj _ None => []
  end.

(** The nodes of a JSON plan and of a parsed plan, parent first, children
    from left to right. *)
Fixpoint preorderObject (node : PlanObject) : list PlanObject :=
  match node with
  | PlanObj _ plans =>
      node :: match plans with
              | Some ps => flat_map preorderObject ps
              | None => []
              end
  end.

Fixpoint preorderNode (n : ExplainNode) : list ExplainNode :=
  match n with
  | ENode _ _ _ _ _ _ _ _ _ _ _ _ _ _ children =>
      n :: flat_map preorderNode children
  end.

Lemma flat_map_map {A B C} (f : A -> B) (g : B -> list C) (l : list A) :
  flat_map g (map f l) = flat_map (fun x => g (f x)) l.
Proof. induction l as [|x l IH]; cbn; [|rewrite IH]; reflexivity. Qed.

Lemma flat_map_Forall_ext {A B} (f g : A -> list B) (l : list A) :
  Forall (fun x => f x = g x) l -> flat_map f l = flat_map g l.
Proof. induction 1 as [|x l Hx _ IH]; cbn; [|rewrite Hx, IH]; reflexivity. Qed.

Lemma map_flat_map {A B C} (f : B -> C) (g : A -> list B) (l : list A) :
  map f (flat_map g l) = flat_map (fun x => map f (g x)) l.
Proof.
  induction l as [|x l IH]; cbn; [|rewrite map_app, IH]; reflexivity.
Qed.

(** *** What keeping a node means

    The fields of an [ExplainNode], by their names in [types.ts], and the
    property of the JSON plan that each must hold. *)
Definition objectProps (node : PlanObject) : PlanProps :=
  match node with PlanObj p _ => p end.

Definition e_alias (n : ExplainNode) : option string :=
  match n with ENode _ _ alias _ _ _ _ _ _ _ _ _ _ _ _ => alias end.
Definition e_startupCost (n : ExplainNode) : number :=
  match n with ENode _ _ _ startupCost _ _ _ _ _ _ _ _ _ _ _ => startupCost end.
Definition e_totalCost (n : ExplainNode) : number :=
  match n with ENode _ _ _ _ totalCost _ _ _ _ _ _ _ _ _ _ => totalCost end.
Definition e_planWidth (n : ExplainNode) : number :=
  match n with ENode _ _ _ _ _ _ planWidth _ _ _ _ _ _ _ _ => planWidth end.
Definition e_actualTimeMs (n : ExplainNode) : option number :=
  match n with ENode _ _ _ _ _ _ _ actualTimeMs _ _ _ _ _ _ _ => actualTimeMs end.
Definition e_actualRows (n : ExplainNode) : option number :=
  match n with ENode _ _ _ _ _ _ _ _ actualRows _ _ _ _ _ _ => actualRows end.
Definition e_loops (n : ExplainNode) : option number :=
  match n with ENode _ _ _ _ _ _ _ _ _ loops _ _ _ _ _ => loops end.
Definition e_filter (n : ExplainNode) : option string :=
  match n with ENode _ _ _ _ _ _ _ _ _ _ filter _ _ _ _ => filter end.
Definition e_joinType (n : ExplainNode) : option string :=
  match n with ENode _ _ _ _ _ _ _ _ _ _ _ joinType _ _ _ => joinType end.
Definition e_indexName (n : ExplainNode) : option string :=
  match n with ENode _ _ _ _ _ _ _ _ _ _ _ _ indexName _ _ => indexName end.
Definition e_indexCondition (n : ExplainNode) : option string :=
  match n with
  | ENode _ _ _ _ _ _ _ _ _ _ _ _ _ indexCondition _ => indexCondition
  end.

Record Mirrors (o : PlanObject) (n : ExplainNode) : Prop := mkMirrors {
  mirrors_nodeType : e_nodeType n = Node_Type (objectProps o);
  mirrors_relationName : e_relationName n = Relation_Name (objectProps o);
  mirrors_alias : e_alias n = Alias (objectProps o);
  mirrors_startupCost : e_startupCost n = Startup_Cost (objectProps o);
  mirrors_totalCost : e_totalCost n = Total_Cost (objectProps o);
  mirrors_planRows : e_planRows n = Plan_Rows (objectProps o);
  mirrors_planWidth : e_planWidth n = Plan_Width (objectProps o);
  mirrors_actualTimeMs : e_actualTimeMs n = Actual_Total_Time (objectProps o);
  mirrors_actualRows : e_actualRows n = Actual_Rows (objectProps o);
  mirrors_loops : e_loops n = Actual_Loops (objectProps o);
  mirrors_filter : e_filter n = Filter (objectProps o);
  mirrors_joinType : e_joinType n = Join_Type (objectProps o);
  mirrors_indexName : e_indexName n = Index_Name (objectProps o);
  mirrors_indexCondition : e_indexCondition n = Index_Cond (objectProps o);
  mirrors_children : length (e_children n) = length (objectChildren o)
}.

Lemma Forall2_flat_map {A B C D} (R : C -> D -> Prop) (f : A -> list C)
  (g : B -> list D) (h : A -> B) (l : list A) :
  Forall (fun x => Forall2 R (f x) (g (h x))) l ->
  Forall2 R (flat_map f l) (flat_map g (map h l)).
Proof.
  induction 1 as [|x l Hx _ IH]; cbn [flat_map map]; [constructor|].
  apply Forall2_app; assumption.
Qed.

(** X8: [parseExplainNode] keeps the plan: the parsed nodes in pre-order
    are as many as the plan's nodes in pre-order, and node by node each field
    holds the property of the JSON node it is named after ([startupCost] is
    [Startup Cost], [loops] is [Actual Loops], ...) and the node has as many
    children as [Plans] has entries, none when [Plans] is absent. *)
Theorem parseExplainNode_keeps_tree (plan : PlanObject) :
  Forall2 Mirrors (preorderObject plan) (preorderNode (parseExplainNode plan)).
Proof.
  induction plan as [p plans IH] using PlanObject_ind.
  cbn [parseExplainNode preorderNode preorderObject].
  constructor.
  - constructor; try reflexivity.
    destruct plans as [ps|]; cbn [e_children objectChildren];
      [apply length_map | reflexivity].
  - destruct plans as [ps|]; [|constructor].
    apply Forall2_flat_map. exact IH.
Qed.

(** The children keep the order of [Plans]. *)
Example parsed_children_in_order :
  let leaf name :=
    PlanObj (mkPlanProps "Seq Scan" (Some name) None (ofZ 0) (ofZ 1) (ofZ 2)
               (ofZ 3) None None None None None None None) None in
  let plan :=
    PlanObj (mkPlanProps "Hash Join" None None (ofZ 4) (ofZ 5) (ofZ 6) (ofZ 7)
               None None None None (Some "Inner") None None)
      (Some [leaf "orders"; leaf "users"]) in
  map e_relationName (e_children (parseExplainNode plan))
  = [Some "orders"; Some "users"]
  /\ e_startupCost (parseExplainNode plan) = ofZ 4
  /\ e_totalCost (parseExplainNode plan) = ofZ 5
  /\ e_joinType (parseExplainNode plan) = Some "Inner".
Proof. repeat split. Qed.

Lemma asPlan_view (plan : PlanObject) :
  map (fun q => (NodeType q, PlanRows q, RelationName q))
      (preorder (asPlan plan))
  = map (fun n => (e_nodeType n, e_planRows n, e_relationName n))
        (preorderNode (parseExplainNode plan)).
Proof.
  induction plan as [p plans IH] using PlanObject_ind.
  cbn [asPlan parseExplainNode preorder preorderNode map].
  f_equal. destruct plans as [ps|]; [|reflexivity].
  rewrite !flat_map_map, !map_flat_map.
  apply flat_map_Forall_ext. exact IH.
Qed.

Lemma filter_through_view {A B V C} (f : A -> V) (g : B -> V)
  (p : V -> bool) (h : V -> C) (l1 : list A) :
  forall l2, map f l1 = map g l2 ->
    map (fun a => h (f a)) (filter (fun a => p (f a)) l1)
    = map (fun c => h (g c)) (filter (fun c => p (g c)) l2).
Proof.
  induction l1 as [|a l1 IH]; intros [|c l2] H; cbn in H; try discriminate;
    [reflexivity|].
  injection H as Hac Hl. cbn [filter]. rewrite <- Hac.
  destruct (p (f a)); cbn [map]; rewrite <- ?Hac, (IH _ Hl); reflexivity.
Qed.

Definition isLargeSeqScanNode (n : ExplainNode) : bool :=
  String.eqb (e_nodeType n) "Seq Scan" && gtb (e_planRows n) (ofZ 1000).

(** X9: the index recommendations that [explain] returns can be read off
    the nodes it returns: they are, in pre-order, one per returned node of
    type [Seq Scan] with more than 1000 plan rows, naming that node's
    relation. *)
Theorem recommendations_match_nodes (plan : PlanObject) :
  filter isIndexRecommendation (explainRecommendations plan)
  = map (fun n => indexRecommendation (e_relationName n))
        (filter isLargeSeqScanNode
           (flat_map preorderNode (explainNodes plan))).
Proof.
  unfold explainRecommendations, explainNodes. cbn [flat_map].
  rewrite app_nil_r, generateRecommendations_flat.
  transitivity
    (map (fun q => indexRecommendation (RelationName q))
         (filter isLargeSeqScan (preorder (asPlan plan)))).
  - induction (preorder (asPlan plan)) as [|node nodes IH]; [reflexivity|].
    cbn [flat_map filter].
    rewrite filter_app, filter_nodeRecommendations, IH.
    destruct (isLargeSeqScan node); reflexivity.
  - apply (filter_through_view
             (fun q => (NodeType q, PlanRows q, RelationName q))
             (fun n => (e_nodeType n, e_planRows n, e_relationName n))
             (fun v => String.eqb (fst (fst v)) "Seq Scan"
                       && gtb (snd (fst v)) (ofZ 1000))
             (fun v => indexRecommendation (snd v))).
    apply asPlan_view.
Qed.

End PostgreSQLExplainFacts.

(* ================================================================== *)
(** * MySQL: recommendations from the JSON plan *)

Module Json.

#[local] Unset Elimination Schemes.
(** A parsed JSON value.  An object is the list of its properties in the
    order in which [Object.values] enumerates them; its keys are distinct. *)
Inductive json : Type :=
| JNull
| JBool (b : bool)
| JNumber (n : Num.number)
| JString (s : string)
| JArray (items : list json)
| JObject (props : list (string * json)).
#[local] Set Elimination Schemes.

(** [if (v)] for a property that may be absent. *)
Definition truthy (v : option json) : bool :=
  match v with
  | None | Some JNull => false
  | Some (JBool b) => b
  | Some (JNumber n) => Num.truthy n
  | Some (JString s) => negb (String.eqb s "")
  | Some (JArray _) | Some (JObject _) => true
  end.

Fixpoint assoc (props : list (string * json)) (key : string) : option json :=
  match props with
  | [] => None
  | (k, v) :: props' => if String.eqb k key then Some v else assoc props' key
  end.

(** [v.key] for one of the property names of the plan, on a value that is
    not null: only an object has such a property. *)
Definition prop (v : json) (key : string) : option json :=
  match v with
  | JObject props => assoc props key
  | _ => None
  end.

(** [typeof v === 'object']: also true of null and of arrays. *)
Definition typeofObject (v : json) : bool :=
  match v with
  | JNull | JArray _ | JObject _ => true
  | JBool _ | JNumber _ | JString _ => false
  end.

End Json.

Module MySQLPlan.
Import Json.

Section Recommendations.

(** How a number is printed in a template literal. *)
Variable showNumber : Num.number -> string.

Fixpoint joinWith (sep : string) (l : list string) : string :=
  match l with
  | [] => ""
  | [x] => x
  | x :: l' => x ++ sep ++ joinWith sep l'
  end.

(** [String(v)]: an array prints its elements joined by commas, null
    elements as nothing; an object prints as [[object Object]]. *)
Fixpoint display (v : json) : string :=
  match v with
  | JNull => "null"
  | JBool true => "true"
  | JBool false => "false"
  | JNumber n => showNumber n
  | JString s => s
  | JArray items =>
      joinWith ","
        (map (fun item => match item with JNull => "" | _ => display item end)
           items)
  | JObject _ => "[object Object]"
  end.

Definition displayProp (v : option json) : string :=
  match v with Some v => display v | None => "undefined" end.

Definition fullScan (table : json) : string :=
  "Full table scan detected on " ++ displayProp (prop table "table_name")
  ++ ". Consider adding an index.".

Definition filesort : string :=
  "Using filesort. Consider adding an index to match the ORDER BY clause.".

Definition temporaryTable : string :=
  "Using temporary table. This may impact performance for large result sets.".

Definition isALL (v : option json) : bool :=
  match v with Some (JString s) => String.eqb s "ALL" | _ => false end.

(** What [checkNode] pushes for the node itself; the node is not null. *)
Definition ownRecommendations (node : json) : list string :=
  if truthy (prop node "table") then
    match prop node "table" with
    | Some table =>
        (if isALL (prop table "access_type") then [fullScan table] else [])
        ++ (if truthy (prop node "ordering_operation") then [filesort] else [])
        ++ (if truthy (prop node "using_temporary_table")
            then [temporaryTable] else [])
    | None => []
    end
  else [].

(** Reading a property of null. *)
Definition nullError : string :=
  "Cannot read properties of null (reading 'table')".

(** One call after another: the pushes of both, unless one throws. *)
Definition andThen (a c : Outcome (list string)) : Outcome (list string) :=
  match a with
  | Throws msg => Throws msg
  | Returns ra =>
      match c with
      | Throws msg => Throws msg
      | Returns rc => Returns (ra ++ rc)
      end
  end.

(** [checkNode]: the recommendations it pushes, in order, or the error it
    throws.  The loop over [Object.values(node)] visits every element of an
    array value that is an object, an array or null, and every value that
    is an object. *)
Fixpoint checkNode (node : json) {struct node} : Outcome (list string) :=
  match node with
  | JNull => Throws nullError
  | JBool _ | JNumber _ | JString _ => Returns []
  | JArray items =>
      (fix eachValue (values : list json) : Outcome (list string) :=
         match values with
         | [] => Returns []
         | value :: values' =>
             andThen
               (match value with
                | JArray elements =>
                    (fix eachItem (l : list json) : Outcome (list string) :=
                       match l with
                       | [] => Returns []
                       | item :: l' =>
                           andThen
                             (if typeofObject item then checkNode item
                              else Returns [])
                             (eachItem l')
                       end) elements
                | JObject _ => checkNode value
                | _ => Returns []
                end)
               (eachValue values')
         end) items
  | JObject props =>
      andThen (Returns (ownRecommendations node))
        ((fix eachValue (values : list (string * json))
            : Outcome (list string) :=
            match values with
            | [] => Returns []
            | (_, value) :: values' =>
                andThen
                  (match value with
                   | JArray elements =>
                       (fix eachItem (l : list json) : Outcome (list string) :=
                          match l with
                          | [] => Returns []
                          | item :: l' =>
                              andThen
                                (if typeofObject item then checkNode item
                                 else Returns [])
                                (eachItem l')
                          end) elements
                   | JObject _ => checkNode value
                   | _ => Returns []
                   end)
                  (eachValue values')
            end) props)
  end.

(** [generateMySQLRecommendations(queryBlock)]. *)
Definition generateMySQLRecommendations (queryBlock : json)
  : Outcome (list string) :=
  checkNode queryBlock.

End Recommendations.
End MySQLPlan.

Module MySQLPlanFacts.
Import Json MySQLPlan.

Fixpoint json_induction (P : json -> Prop)
  (Hnull : P JNull) (Hbool : forall b, P (JBool b))
  (Hnumber : forall n, P (JNumber n)) (Hstring : forall s, P (JString s))
  (Harray : forall items, Forall P items -> P (JArray items))
  (Hobject : forall props, Forall (fun kv => P (snd kv)) props ->
                           P (JObject props))
  (v : json) {struct v} : P v :=
  match v with
  | JNull => Hnull
  | JBool b => Hbool b
  | JNumber n => Hnumber n
  | JString s => Hstring s
  | JArray items =>
      Harray items
        ((fix all (l : list json) : Forall P l :=
            match l with
            | [] => Forall_nil P
            | x :: l' =>
                Forall_cons x
                  (@json_induction P Hnull Hbool Hnumber Hstring Harray
                     Hobject x)
                  (all l')
            end) items)
  | JObject props =>
      Hobject props
        ((fix all (l : list (string * json))
            : Forall (fun kv => P (snd kv)) l :=
            match l with
            | [] => Forall_nil _
            | kv :: l' =>
                Forall_cons kv
                  (@json_induction P Hnull Hbool Hnumber Hstring Harray
                     Hobject (snd kv))
                  (all l')
            end) props)
  end.

(** The nodes on which [checkNode] is called, in the order of the calls. *)
Fixpoint visited (node : json) {struct node} : list json :=
  node ::
  match node with
  | JArray items =>
      flat_map
        (fun value =>
           match value with
           | JArray elements =>
               flat_map
                 (fun item => if typeofObject item then visited item else [])
                 elements
           | JObject _ => visited value
           | _ => []
           end) items
  | JObject props =>
      flat_map
        (fun kv =>
           match snd kv with
           | JArray elements =>
               flat_map
                 (fun item => if typeofObject item then visited item else [])
                 elements
           | JObject _ => visited (snd kv)
           | _ => []
           end) props
  | _ => []
  end.

Definition isNull (v : json) : bool :=
  match v with JNull => true | _ => false end.

Section Facts.
Variable showNumber : Num.number -> string.

#[local] Abbreviation check := (checkNode showNumber).
#[local] Abbreviation own := (ownRecommendations showNumber).

(** What a call amounts to, given the nodes it visits. *)
Definition outcomeOf (nodes : list json) : Outcome (list string) :=
  if existsb isNull nodes then Throws nullError
  else Returns (flat_map own nodes).

Definition seqAll (l : list (Outcome (list string)))
  : Outcome (list string) :=
  fold_right andThen (Returns []) l.

Definition visitItem (item : json) : Outcome (list string) :=
  if typeofObject item then check item else Returns [].

Definition visitValue (value : json) : Outcome (list string) :=
  match value with
  | JArray elements => seqAll (map visitItem elements)
  | JObject _ => check value
  | _ => Returns []
  end.

Definition visitedItem (item : json) : list json :=
  if typeofObject item then visited item else [].

Definition visitedValue (value : json) : list json :=
  match value with
  | JArray elements => flat_map visitedItem elements
  | JObject _ => visited value
  | _ => []
  end.

Lemma seqAll_cons (x : Outcome (list string))
  (l : list (Outcome (list string))) :
  seqAll (x :: l) = andThen x (seqAll l).
Proof. reflexivity. Qed.

Lemma eachItem_seqAll (elements : list json) :
  (fix eachItem (l : list json) : Outcome (list string) :=
     match l with
     | [] => Returns []
     | item :: l' =>
         andThen (if typeofObject item then check item else Returns [])
           (eachItem l')
     end) elements
  = seqAll (map visitItem elements).
Proof.
  induction elements as [|item l IH]; [reflexivity|].
  cbn [map]. rewrite seqAll_cons, <- IH. reflexivity.
Qed.

Lemma checkNode_array (items : list json) :
  check (JArray items) = seqAll (map visitValue items).
Proof.
  induction items as [|value l IH]; [reflexivity|].
  cbn [map]. rewrite seqAll_cons, <- IH. unfold visitValue.
  destruct value; try reflexivity.
  rewrite <- eachItem_seqAll. reflexivity.
Qed.

Lemma eachValue_seqAll (props : list (string * json)) :
  (fix eachValue (values : list (string * json)) : Outcome (list string) :=
     match values with
     | [] => Returns []
     | (_, value) :: values' =>
         andThen
           (match value with
            | JArray elements =>
                (fix eachItem (l : list json) : Outcome (list string) :=
                   match l with
                   | [] => Returns []
                   | item :: l' =>
                       andThen
                         (if typeofObject item then check item
                          else Returns [])
                         (eachItem l')
                   end) elements
            | JObject _ => check value
            | _ => Returns []
            end)
           (eachValue values')
     end) props
  = seqAll (map (fun kv => visitValue (snd kv)) props).
Proof.
  induction props as [|[k value] l IH]; [reflexivity|].
  cbn [map snd]. rewrite seqAll_cons, <- IH. unfold visitValue.
  destruct value; try reflexivity.
  rewrite <- eachItem_seqAll. reflexivity.
Qed.

Lemma checkNode_object (props : list (string * json)) :
  check (JObject props)
  = andThen (Returns (own (JObject props)))
      (seqAll (map (fun kv => visitValue (snd kv)) props)).
Proof. rewrite <- eachValue_seqAll. reflexivity. Qed.

Lemma visited_array (items : list json) :
  visited (JArray items) = JArray items :: flat_map visitedValue items.
Proof. reflexivity. Qed.

Lemma visited_object (props : list (string * json)) :
  visited (JObject props)
  = JObject props :: flat_map (fun kv => visitedValue (snd kv)) props.
Proof. reflexivity. Qed.

Lemma outcomeOf_app (a c : list json) :
  outcomeOf (a ++ c) = andThen (outcomeOf a) (outcomeOf c).
Proof.
  unfold outcomeOf. rewrite existsb_app, flat_map_app.
  destruct (existsb isNull a), (existsb isNull c); reflexivity.
Qed.

Lemma seqAll_outcome {A} (f : A -> Outcome (list string))
  (vis : A -> list json) (l : list A) :
  Forall (fun x => f x = outcomeOf (vis x)) l ->
  seqAll (map f l) = outcomeOf (flat_map vis l).
Proof.
  induction 1 as [|x l Hx _ IH]; [reflexivity|].
  cbn [map flat_map]. rewrite seqAll_cons, outcomeOf_app, Hx, IH.
  reflexivity.
Qed.

Definition agrees (node : json) : Prop :=
  check node = outcomeOf (visited node).

Definition agreesDeep (node : json) : Prop :=
  agrees node
  /\ match node with
     | JArray elements => Forall agrees elements
     | _ => True
     end.

Lemma visitItem_agrees (item : json) :
  agrees item -> visitItem item = outcomeOf (visitedItem item).
Proof.
  unfold visitItem, visitedItem. destruct (typeofObject item); auto.
Qed.

Lemma visitValue_agrees (value : json) :
  agreesDeep value -> visitValue value = outcomeOf (visitedValue value).
Proof.
  intros [H Hdeep]. destruct value; try reflexivity; [|exact H].
  cbn [visitValue visitedValue]. apply seqAll_outcome.
  apply (Forall_impl _ visitItem_agrees Hdeep).
Qed.

Lemma own_of_array (items : list json) : own (JArray items) = [].
Proof. reflexivity. Qed.

Lemma checkNode_agreesDeep (node : json) : agreesDeep node.
Proof.
  induction node as [|b|n|s|items IH|props IH] using json_induction;
    try (split; [reflexivity | exact I]).
  - assert (Forall agrees items) as Hitems.
    { apply (Forall_impl _ (fun v (H : agreesDeep v) => proj1 H) IH). }
    split; [|exact Hitems].
    unfold agrees. rewrite checkNode_array, visited_array.
    rewrite (seqAll_outcome visitValue visitedValue).
    + unfold outcomeOf. cbn [existsb isNull flat_map orb].
      rewrite own_of_array. reflexivity.
    + apply (Forall_impl _ visitValue_agrees IH).
  - split; [|exact I].
    unfold agrees. rewrite checkNode_object, visited_object.
    rewrite (seqAll_outcome (fun kv => visitValue (snd kv))
               (fun kv => visitedValue (snd kv))).
    + unfold outcomeOf. cbn [existsb isNull flat_map orb].
      destruct (existsb isNull _); reflexivity.
    + apply (Forall_impl _ (fun kv H => visitValue_agrees H) IH).
Qed.

(** X10: [generateMySQLRecommendations] throws exactly when one of the nodes
    it visits is null (a null element of an array-valued property, or a null
    query block); otherwise it returns, in visiting order, what each
    visited node contributes. *)
Theorem generateMySQLRecommendations_outcome (queryBlock : json) :
  generateMySQLRecommendations showNumber queryBlock
  = if existsb isNull (visited queryBlock) then Throws nullError
    else Returns (flat_map own (visited queryBlock)).
Proof. exact (proj1 (checkNode_agreesDeep queryBlock)). Qed.

End Facts.

(** A query block whose table is read by a full scan, below a
    [nested_loop] array; with a null element in that array the call throws. *)
Definition scanBlock (tail : list json) : json :=
  JObject
    [("select_id", JNumber (Num.ofZ 1));
     ("nested_loop",
      JArray
        (JObject
           [("table",
             JObject [("table_name", JString "orders");
                      ("access_type", JString "ALL")])]
         :: tail))].

Example full_scan_recommended :
  generateMySQLRecommendations (fun _ => "1") (scanBlock [])
  = Returns ["Full table scan detected on orders. Consider adding an index."]
  /\ generateMySQLRecommendations (fun _ => "1") (scanBlock [JNull])
     = Throws nullError.
Proof. split; reflexivity. Qed.

End MySQLPlanFacts.

(* ================================================================== *)
(** * The server: [execute_query] *)

Module Server.
Import Num QueryValidator.
(** String concatenation, as [+] and template literals. *)
#[local] Infix "+++" := String.append (at level 60, right associativity).

(** [ExplainPlan] of [types.ts]. *)
Record ExplainPlan : Type := mkExplainPlan {
  ep_raw : string;
  ep_formatted : string;
  ep_totalCost : number;
  ep_planRows : number;
  ep_actualRows : option number;
  ep_actualTimeMs : option number;
  ep_nodes : list PostgreSQLExplain.ExplainNode;
  ep_warnings : list string;
  ep_recommendations : list string
}.

Record QueryOptions : Type := mkQueryOptions {
  o_maxRows : option number;
  o_timeout : option number;
  o_explain : option bool;
  o_analyze : option bool
}.

Definition nl : string := String (ascii_of_nat 10) EmptyString.

Definition join (sep : string) (l : list string) : string :=
  MySQLPlan.joinWith sep l.

Definition formatMarkdown (content : string) : string := Str.trim content.

Definition notConnected : string :=
  "Not connected to database. Use connect_database tool first.".

Definition showQueryType (t : QueryType) : string :=
  match t with
  | SELECT => "SELECT" | INSERT => "INSERT" | UPDATE => "UPDATE"
  | DELETE => "DELETE" | DDL => "DDL" | TRANSACTION => "TRANSACTION"
  | OTHER => "OTHER"
  end.

Section Tools.

(** The values of cells and parameters, the rows, and what JavaScript does
    with them: [row[h]], [value === null], [typeof value === 'object'],
    [JSON.stringify(value)], [String(value)] and the printing of a number in
    a template literal. *)
Variables Value Row : Type.
Variable cell : Row -> string -> option Value.
Variable isNull : Value -> bool.
Variable isObject : Value -> bool.
Variable stringify : Value -> string.
Variable toString : option Value -> string.
Variable showNumber : number -> string.

Record QueryRequest : Type := mkQueryRequest {
  r_query : string;
  r_params : option (list Value);
  r_options : option QueryOptions
}.

(** What [client.query] resolves to. *)
Record ClientResult : Type := mkClientResult {
  cr_result : QueryResult Row;
  cr_executionTimeMs : number;
  cr_explainPlan : option ExplainPlan
}.

(** The client as the server sees it: whether it is connected, and how it
    answers a request. *)
Record DatabaseClient : Type := mkDatabaseClient {
  isConnected : bool;
  clientQuery : QueryRequest -> Outcome ClientResult
}.

(** The arguments of the [execute_query] tool. *)
Record ExecuteArgs : Type := mkExecuteArgs {
  a_query : string;
  a_params : option (list Value);
  a_maxRows : option number;
  a_timeout : option number;
  a_explain : option bool;
  a_analyze : option bool
}.

Definition ensureConnected (client : option DatabaseClient) : Outcome unit :=
  match client with
  | None => Throws notConnected
  | Some c => if isConnected c then Returns tt else Throws notConnected
  end.

Definition validationFailed (errors : list Finding) : string :=
  let errorMessages := join nl (map (fun e => "- " +++ message e) errors) in
  formatMarkdown
    (nl +++ "# ❌ Query Validation Failed" +++ nl +++ nl +++ "**Errors:**" +++ nl
     +++ errorMessages +++ nl +++ nl
     +++ "Please fix these errors before executing the query." +++ nl
     +++ "      ").

Definition warningsText (warnings : list Finding) : string :=
  if (0 <? length warnings)%nat
  then nl +++ "**⚠️ Warnings:**" +++ nl
       +++ join nl (map (fun w => "- " +++ message w) warnings) +++ nl
  else "".

Definition showCell (row : Row) (h : string) : string :=
  match cell row h with
  | Some value =>
      if isNull value then "NULL"
      else if isObject value then stringify value
      else toString (Some value)
  | None => toString None
  end.

Definition resultSections (result : QueryResult Row) : list string :=
  if (0 <? length (rows result))%nat then
    let headers := map fi_name (fields result) in
    (["## Results" +++ nl;
      "| " +++ join " | " headers +++ " |";
      "| " +++ join " | " (map (fun _ => "---") headers) +++ " |"]
     ++ map (fun row =>
               "| " +++ join " | " (map (showCell row) headers) +++ " |")
          (firstn 20 (rows result))
     ++ (if (20 <? length (rows result))%nat
         then [nl +++ "*...and "
               +++ showNumber (ofNat (length (rows result) - 20))
               +++ " more rows*"]
         else []))
  else [].

Definition planSections (plan : option ExplainPlan) : list string :=
  match plan with
  | Some plan =>
      ([nl +++ "## 📊 Query Execution Plan" +++ nl; "```"; ep_formatted plan;
        "```"]
       ++ (if (0 <? length (ep_recommendations plan))%nat
           then (nl +++ "**Recommendations:**")
                :: map (fun rec => "- " +++ rec) (ep_recommendations plan)
           else []))
  | None => []
  end.

Definition executed (validation : ValidationResult) (answer : ClientResult)
  : string :=
  let warnings := warningsText (QueryValidator.warnings validation) in
  formatMarkdown
    (join nl
       (["# ✅ Query Executed Successfully" +++ nl]
        ++ (if String.eqb warnings "" then [] else [warnings])
        ++ ["**Query Type:** "
            +++ showQueryType (queryType (metadata validation));
            "**Execution Time:** " +++ showNumber (cr_executionTimeMs answer)
            +++ "ms";
            "**Rows Returned:** " +++ showNumber (rowCount (cr_result answer));
            ""]
        ++ resultSections (cr_result answer)
        ++ planSections (cr_explainPlan answer))).

(** [executeQuery]: the requests sent to the client, and the reply or the
    error. *)
Definition executeQuery (client : option DatabaseClient) (args : ExecuteArgs)
  : list QueryRequest * Outcome string :=
  match ensureConnected client, client with
  | Throws msg, _ => ([], Throws msg)
  | Returns _, None => ([], Throws notConnected)
  | Returns _, Some c =>
      let query := a_query args in
      let params :=
        match a_params args with Some p => p | None => [] end in
      let validation := validate query in
      if negb (isValid validation)
      then ([], Returns (validationFailed (errors validation)))
      else
        let request :=
          mkQueryRequest query (Some params)
            (Some (mkQueryOptions (a_maxRows args) (a_timeout args)
                     (a_explain args) (a_analyze args))) in
        ([request],
         match clientQuery c request with
         | Throws msg => Throws msg
         | Returns answer => Returns (executed validation answer)
         end)
  end.

End Tools.
End Server.

Module ServerFacts.
Import Num QueryValidator ValidatorFacts Server.

Section Gate.
Variables Value Row : Type.
Variable cell : Row -> string -> option Value.
Variable isNull : Value -> bool.
Variable isObject : Value -> bool.
Variable stringify : Value -> string.
Variable toString : option Value -> string.
Variable showNumber : number -> string.

#[local] Abbreviation run :=
  (executeQuery cell isNull isObject stringify toString showNumber).

(** X11: [execute_query] sends at most one request to the database client,
    and only when the server is connected and the query passed validation:
    the request carries the query text unchanged, no dangerous pattern
    matches it, and it is not a DELETE without [WHERE].  A query that fails
    validation is answered, when connected, with the list of its errors and
    nothing is sent. *)
Theorem executeQuery_gate (client : option (DatabaseClient Value Row))
  (args : ExecuteArgs Value) :
  let q := a_query args in
  let sent := fst (run client args) in
  (length sent <= 1)%nat
  /\ (forall r, In r sent ->
        r_query r = q
        /\ (exists c, client = Some c /\ isConnected c = true)
        /\ isValid (validate q) = true
        /\ detectDangerousOperations (normalize q) = []
        /\ ~ (detectQueryType q = DELETE
              /\ Str.includes (normalize q) "WHERE" = false))
  /\ (isValid (validate q) = false ->
      sent = []
      /\ (ensureConnected client = Returns tt ->
          snd (run client args)
          = Returns (validationFailed (errors (validate q))))).
Proof.
  intros q sent. subst sent q. unfold executeQuery, ensureConnected.
  assert (forall msg : string,
            (length (@nil (QueryRequest Value)) <= 1)%nat
            /\ (forall r, In r (@nil (QueryRequest Value)) ->
                  r_query r = a_query args
                  /\ (exists c, client = Some c /\ isConnected c = true)
                  /\ isValid (validate (a_query args)) = true
                  /\ detectDangerousOperations (normalize (a_query args)) = []
                  /\ ~ (detectQueryType (a_query args) = DELETE
                        /\ Str.includes (normalize (a_query args)) "WHERE"
                           = false))
            /\ (isValid (validate (a_query args)) = false ->
                @nil (QueryRequest Value) = []
                /\ (@Throws unit msg = Returns tt ->
                    @Throws string msg
                    = Returns (validationFailed
                                 (errors (validate (a_query args)))))))
    as Hidle.
  { intros msg. split; [cbn; lia|]. split; [intros r []|].
    intros _. split; [reflexivity | discriminate]. }
  destruct client as [c|]; [|apply Hidle].
  destruct (isConnected c) eqn:Ec; [|apply Hidle].
  destruct (isValid (validate (a_query args))) eqn:Ev; cbn [negb fst snd].
  - split; [cbn; lia|]. split; [|discriminate].
    intros r [<- | []]. cbn [r_query].
    split; [reflexivity|]. split; [exists c; split; [reflexivity | exact Ec]|].
    split; [reflexivity|].
    apply ValidatorVerdict.isValid_spec. exact Ev.
  - split; [cbn; lia|]. split; [intros r []|].
    intros _. split; reflexivity.
Qed.

End Gate.
End ServerFacts.

(* ================================================================== *)
(** * Tables and columns *)

Module Tables.
Import Num.

(** [ColumnSchema] of [types.ts]. *)
Record ColumnSchema : Type := mkColumnSchema {
  cs_name : string;
  cs_dataType : string;
  cs_nativeType : string;
  cs_isNullable : bool;
  cs_defaultValue : option string;
  cs_isAutoIncrement : bool;
  cs_maxLength : option number;
  cs_precision : option number;
  cs_scale : option number;
  cs_characterSet : option string;
  cs_collation : option string;
  cs_comment : option string;
  cs_enumValues : option (list string)
}.

Record PrimaryKeyConstraint : Type := mkPrimaryKey {
  pk_name : string;
  pk_columns : list string
}.

Record UniqueConstraint : Type := mkUniqueConstraint {
  uq_name : string;
  uq_columns : list string
}.

Record CheckConstraint : Type := mkCheckConstraint {
  cc_name : string;
  cc_expression : string
}.

Record TriggerSchema : Type := mkTriggerSchema {
  tr_name : string;
  tr_table : string;
  tr_timing : string;
  tr_events : list string;
  tr_forEachRow : bool;
  tr_condition : option string;
  tr_definition : string
}.

(** [TableSchema] of [types.ts]. *)
Record TableSchema : Type := mkTableSchema {
  t_name : string;
  t_schema : string;
  t_columns : list ColumnSchema;
  t_primaryKey : option PrimaryKeyConstraint;
  t_foreignKeys : list ForeignKeyConstraint;
  t_uniqueConstraints : list UniqueConstraint;
  t_checkConstraints : list CheckConstraint;
  t_indexes : list IndexSchema;
  t_triggers : list TriggerSchema;
  t_rowCount : option number;
  t_sizeBytes : option number;
  t_comment : option string
}.

(** The primary key of a table, as each adapter's [introspectTables] takes it
    from the indexes: the first index that is primary. *)
Definition primaryKeyOf (indexes : list IndexSchema)
  : option PrimaryKeyConstraint :=
  match find ix_isPrimary indexes with
  | Some idx => Some (mkPrimaryKey (ix_name idx) (map ic_name (ix_columns idx)))
  | None => None
  end.

(** The unique constraints: the indexes that are unique and not primary. *)
Definition uniqueConstraintsOf (indexes : list IndexSchema)
  : list UniqueConstraint :=
  map (fun idx => mkUniqueConstraint (ix_name idx)
                    (map ic_name (ix_columns idx)))
      (filter (fun idx => ix_isUnique idx && negb (ix_isPrimary idx)) indexes).

End Tables.

Module RegexExact.
Import Regex.

(** A literal character and a literal text of a pattern without the [i]
    flag. *)
Definition chrExact (c : ascii) : regex := Class (Ascii.eqb c).

Fixpoint litExact (s : string) : regex :=
  match s with
  | EmptyString => Empty
  | String c EmptyString => chrExact c
  | String c s' => Seq (chrExact c) (litExact s')
  end.

End RegexExact.

Module MySQLTables.
Import Num Tables MySQLClient Regex RegexExact.

(** A row of [information_schema.COLUMNS]. *)
Record ColumnRow : Type := mkColumnRow {
  C_COLUMN_NAME : string;
  DATA_TYPE : string;
  COLUMN_TYPE : string;
  IS_NULLABLE : string;
  COLUMN_DEFAULT : option string;
  CHARACTER_MAXIMUM_LENGTH : option number;
  NUMERIC_PRECISION : option number;
  NUMERIC_SCALE : option number;
  CHARACTER_SET_NAME : option string;
  COLLATION_NAME : option string;
  COLUMN_COMMENT : option string;
  EXTRA : string
}.

(** The pattern of an enum column type: the text [enum], an opening
    parenthesis, any characters but line terminators (greedy, captured) and
    a closing parenthesis; no flags. *)
Definition enumPattern : regex :=
  seq [litExact "enum("; Group (Star dot); chrExact ")"].

Fixpoint dropLastQuote (v : string) : string :=
  match v with
  | EmptyString => EmptyString
  | String c EmptyString => if Ascii.eqb c "'" then EmptyString else v
  | String c v' => String c (dropLastQuote v')
  end.

(** [v.replace(/^'|'$/g, '')]: a quote at the very start is removed, and
    so is a quote at the very end of what follows it. *)
Definition stripQuotes (v : string) : string :=
  match v with
  | String c v' => if Ascii.eqb c "'" then dropLastQuote v' else dropLastQuote v
  | EmptyString => EmptyString
  end.

(** The values of an [enum(...)] column type. *)
Definition parseEnum (columnType : string) : option (list string) :=
  match exec enumPattern columnType with
  | Some m =>
      Some (map (fun v => stripQuotes (Str.trim v))
              (Str.split ","
                 (match group1 m with Some g => g | None => "" end)))
  | None => None
  end.

Definition column (row : ColumnRow) : ColumnSchema :=
  let enumValues :=
    if String.eqb (DATA_TYPE row) "enum" then parseEnum (COLUMN_TYPE row)
    else None in
  mkColumnSchema (C_COLUMN_NAME row) (DATA_TYPE row) (COLUMN_TYPE row)
    (String.eqb (IS_NULLABLE row) "YES") (COLUMN_DEFAULT row)
    (Str.includes (EXTRA row) "auto_increment")
    (CHARACTER_MAXIMUM_LENGTH row) (NUMERIC_PRECISION row)
    (NUMERIC_SCALE row) (CHARACTER_SET_NAME row) (COLLATION_NAME row)
    (COLUMN_COMMENT row) enumValues.

(** [introspectColumns], after the catalog answered with [rows]. *)
Definition introspectColumns (rows : list ColumnRow) : list ColumnSchema :=
  map column rows.

(** A row of the table list of [introspectTables]. *)
Record TableListRow : Type := mkTableListRow {
  TABLE_SCHEMA : string;
  L_TABLE_NAME : string;
  TABLE_COMMENT : option string;
  L_TABLE_ROWS : option number;
  size_bytes : option number
}.

(** What the catalog answers for the columns, the indexes and the foreign
    keys of a table of a schema. *)
Record Catalog : Type := mkCatalog {
  columnRows : string -> string -> list ColumnRow;
  indexRows : string -> string -> list IndexRow;
  foreignKeyRows : string -> string -> list ForeignKeyRow
}.

Definition table (catalog : Catalog) (row : TableListRow) : TableSchema :=
  let columns :=
    introspectColumns (columnRows catalog (TABLE_SCHEMA row) (L_TABLE_NAME row)) in
  let indexes :=
    introspectIndexes (indexRows catalog (TABLE_SCHEMA row) (L_TABLE_NAME row)) in
  let foreignKeys :=
    introspectForeignKeys
      (foreignKeyRows catalog (TABLE_SCHEMA row) (L_TABLE_NAME row)) in
  mkTableSchema (L_TABLE_NAME row) (TABLE_SCHEMA row) columns
    (primaryKeyOf indexes) foreignKeys (uniqueConstraintsOf indexes) []
    indexes [] (L_TABLE_ROWS row) (size_bytes row) (TABLE_COMMENT row).

(** [introspectTables], after the catalog answered with the table list
    [rows]. *)
Definition introspectTables (catalog : Catalog) (rows : list TableListRow)
  : list TableSchema :=
  map (table catalog) rows.

End MySQLTables.

Module SQLiteColumns.
Import Num Tables.

(** A row of [PRAGMA table_info]. *)
Record TableInfoRow : Type := mkTableInfoRow {
  cid : Z;
  name : string;
  type : string;
  notnull : Z;
  dflt_value : option string;
  pk : Z
}.

Definition column (col : TableInfoRow) : ColumnSchema :=
  mkColumnSchema (name col) (SQLiteClient.normalizeSQLiteType (type col))
    (type col) (notnull col =? 0)%Z
    (match dflt_value col with
     | Some EmptyString | None => None
     | Some v => Some v
     end)
    ((pk col =? 1)%Z && String.eqb (Str.toUpperCase (type col)) "INTEGER")
    None None None None None None None.

(** [introspectColumns], after the pragma answered with [columns]. *)
Definition introspectColumns (columns : list TableInfoRow)
  : list ColumnSchema :=
  map column columns.

End SQLiteColumns.

Module TableFacts.
Import Num Tables MySQLClient.

Lemma same_key_same_element {A B} (f : A -> B) (l : list A) (x y : A) :
  NoDup (map f l) -> In x l -> In y l -> f x = f y -> x = y.
Proof.
  induction l as [|a l IH]; intros Hnd Hx Hy E; [destruct Hx|].
  cbn in Hnd. inversion Hnd as [|? ? Ha Hl]; subst.
  destruct Hx as [-> | Hx], Hy as [-> | Hy].
  - reflexivity.
  - exfalso. apply Ha. rewrite E. apply in_map, Hy.
  - exfalso. apply Ha. rewrite <- E. apply in_map, Hx.
  - apply IH; assumption.
Qed.

Lemma kept_keys_distinct {Item Key : Type} (keep : Item -> bool)
  (key : Item -> Key) (items : list Item)
  (Hdistinct : NoDup (map key items)) :
  NoDup (map key (filter keep items)).
Proof.
  revert Hdistinct. induction items as [|a l IH]; intros Hnd; [constructor|].
  cbn in Hnd. inversion Hnd as [|? ? Ha Hl]; subst. cbn [filter].
  destruct (keep a); [|apply IH, Hl]. cbn [map]. constructor; [|apply IH, Hl].
  intros Hin. apply Ha. apply in_map_iff in Hin.
  destruct Hin as [x [E Hx]]. apply filter_In in Hx.
  rewrite <- E. apply in_map, Hx.
Qed.

Lemma index_names_NoDup (rows : list IndexRow) :
  NoDup (map ix_name (introspectIndexes rows)).
Proof.
  destruct (CatalogOrder.introspectIndexes_follow rows) as [-> _].
  apply (@Grouping.fold_addKey_NoDup _ String.eqb String.eqb_eq).
  constructor.
Qed.

Lemma index_columns (rows : list IndexRow) (idx : IndexSchema) :
  In idx (introspectIndexes rows) ->
  In (ix_name idx) (map INDEX_NAME rows)
  /\ map ic_name (ix_columns idx)
     = map COLUMN_NAME
         (filter (fun r => String.eqb (INDEX_NAME r) (ix_name idx)) rows).
Proof.
  intros Hin.
  destruct (CatalogOrder.introspectIndexes_follow rows) as [Hn Hc].
  split.
  - assert (In (ix_name idx) (map ix_name (introspectIndexes rows))) as H
      by (apply in_map, Hin).
    rewrite Hn in H. unfold Grouping.distinctKeys in H.
    apply (@Grouping.fold_addKey_In _ String.eqb String.eqb_eq) in H.
    destruct H as [[] | H]. exact H.
  - rewrite (Hc _ Hin), map_map. reflexivity.
Qed.

Definition columnsNamed (rows : list IndexRow) (name : string)
  : list string :=
  map COLUMN_NAME (filter (fun r => String.eqb (INDEX_NAME r) name) rows).

(** X12: in a table that the MySQL adapter builds, the primary key (if
    any) carries the name of an index of the catalog rows and the columns of
    the rows of that index, in row order; the unique constraints have
    pairwise distinct names, none of them the name of the primary key, and
    each has the columns of the catalog rows of its name. *)
Theorem mysql_table_keys (catalog : MySQLTables.Catalog)
  (row : MySQLTables.TableListRow) :
  let t := MySQLTables.table catalog row in
  let rows :=
    MySQLTables.indexRows catalog (MySQLTables.TABLE_SCHEMA row)
      (MySQLTables.L_TABLE_NAME row) in
  (forall key, t_primaryKey t = Some key ->
     In (pk_name key) (map INDEX_NAME rows)
     /\ pk_columns key = columnsNamed rows (pk_name key))
  /\ NoDup (map uq_name (t_uniqueConstraints t))
  /\ (forall u, In u (t_uniqueConstraints t) ->
        uq_columns u = columnsNamed rows (uq_name u)
        /\ forall key, t_primaryKey t = Some key -> uq_name u <> pk_name key).
Proof.
  intros t rows. subst t. unfold MySQLTables.table.
  cbn [t_primaryKey t_uniqueConstraints]. fold rows.
  set (ixs := introspectIndexes rows).
  assert (forall key, primaryKeyOf ixs = Some key ->
            exists idx, In idx ixs /\ ix_isPrimary idx = true
                        /\ key = mkPrimaryKey (ix_name idx)
                                   (map ic_name (ix_columns idx))) as Hpk.
  { intros key. unfold primaryKeyOf.
    destruct (find ix_isPrimary ixs) as [idx|] eqn:Ef; [|discriminate].
    intros [= <-]. apply find_some in Ef. exists idx. tauto. }
  split; [|split].
  - intros key Hkey. destruct (Hpk key Hkey) as (idx & Hin & _ & ->).
    cbn [pk_name pk_columns]. apply index_columns, Hin.
  - unfold uniqueConstraintsOf. rewrite map_map. cbn [uq_name].
    apply kept_keys_distinct, index_names_NoDup.
  - intros u Hu. unfold uniqueConstraintsOf in Hu.
    apply in_map_iff in Hu. destruct Hu as (idx & <- & Hidx).
    apply filter_In in Hidx. destruct Hidx as [Hin Hp].
    apply andb_true_iff in Hp. destruct Hp as [_ Hnp].
    cbn [uq_name uq_columns]. split; [apply index_columns, Hin|].
    intros key Hkey E. destruct (Hpk key Hkey) as (idx' & Hin' & Hp' & ->).
    cbn [pk_name] in E.
    assert (idx = idx') as ->
      by (apply (same_key_same_element ix_name ixs);
          [apply index_names_NoDup | assumption..]).
    rewrite Hp' in Hnp. discriminate Hnp.
Qed.

Definition shopIndexRows : list IndexRow :=
  [ mkIndexRow "PRIMARY" 0 "id" 1 (Some "A") "BTREE" 1;
    mkIndexRow "uq_email" 0 "email" 1 (Some "A") "BTREE" 0 ].

Definition shopCatalog : MySQLTables.Catalog :=
  MySQLTables.mkCatalog (fun _ _ => []) (fun _ _ => shopIndexRows)
    (fun _ _ => []).

Definition usersRow : MySQLTables.TableListRow :=
  MySQLTables.mkTableListRow "shop" "users" None None None.

Lemma mysql_table_keys_witness :
  t_primaryKey (MySQLTables.table shopCatalog usersRow)
  = Some (mkPrimaryKey "PRIMARY" ["id"])
  /\ pk_columns (mkPrimaryKey "PRIMARY" ["id"])
     = columnsNamed shopIndexRows "PRIMARY"
  /\ In (mkUniqueConstraint "uq_email" ["email"])
        (t_uniqueConstraints (MySQLTables.table shopCatalog usersRow))
  /\ uq_columns (mkUniqueConstraint "uq_email" ["email"])
     = columnsNamed shopIndexRows "uq_email".
Proof.
  pose proof (mysql_table_keys shopCatalog usersRow) as (Hpk & _ & Huq).
  split; [reflexivity|].
  split; [exact (proj2 (Hpk (mkPrimaryKey "PRIMARY" ["id"]) eq_refl))|].
  assert (In (mkUniqueConstraint "uq_email" ["email"])
            (t_uniqueConstraints (MySQLTables.table shopCatalog usersRow)))
    as Hin by (left; reflexivity).
  split; [exact Hin|].
  exact (proj1 (Huq _ Hin)).
Defined.

(** X13: a column that the SQLite adapter marks as auto-increment always
    has the canonical type [integer] and the native type [INTEGER] (in any
    letter case), and the canonical type of every column is one of the seven
    categories of SQLite. *)
Theorem sqlite_auto_increment_is_integer
  (columns : list SQLiteColumns.TableInfoRow) (c : ColumnSchema) :
  In c (SQLiteColumns.introspectColumns columns) ->
  In (cs_dataType c)
     ["integer"; "text"; "real"; "blob"; "numeric"; "boolean"; "datetime"]
  /\ (cs_isAutoIncrement c = true ->
      cs_dataType c = "integer"
      /\ Str.toUpperCase (cs_nativeType c) = "INTEGER").
Proof.
  unfold SQLiteColumns.introspectColumns. intros Hin.
  apply in_map_iff in Hin. destruct Hin as (col & <- & _).
  cbn [SQLiteColumns.column cs_dataType cs_isAutoIncrement cs_nativeType].
  split; [apply TypeMapping.sqlite_category|].
  intros H. apply andb_true_iff in H. destruct H as [_ H].
  apply String.eqb_eq in H. split; [|exact H].
  unfold SQLiteClient.normalizeSQLiteType. rewrite H. reflexivity.
Qed.

Definition idColumn : SQLiteColumns.TableInfoRow :=
  SQLiteColumns.mkTableInfoRow 0 "id" "Integer" 1 None 1.

Lemma sqlite_auto_increment_is_integer_witness :
  In (SQLiteColumns.column idColumn)
     (SQLiteColumns.introspectColumns [idColumn])
  /\ cs_isAutoIncrement (SQLiteColumns.column idColumn) = true
  /\ cs_dataType (SQLiteColumns.column idColumn) = "integer".
Proof.
  assert (In (SQLiteColumns.column idColumn)
            (SQLiteColumns.introspectColumns [idColumn])) as Hin
    by (left; reflexivity).
  split; [exact Hin|]. split; [reflexivity|].
  exact (proj1 (proj2 (sqlite_auto_increment_is_integer [idColumn]
                         (SQLiteColumns.column idColumn) Hin) eq_refl)).
Defined.

End TableFacts.

(* ================================================================== *)
(** * Patterns with a greedy repetition *)

Module RegexRun.
Import Regex RegexFacts.

Lemma run_Seq (r1 r2 : regex) (st : state) (k : state -> option state) :
  run (Seq r1 r2) st k = run r1 st (fun st' => run r2 st' k).
Proof. reflexivity. Qed.

Lemma run_Group (r : regex) (st : state) (k : state -> option state) :
  run (Group r) st k
  = run r st (fun st' =>
      k (mkState (prev st') (rest st') (pos st')
           (Some (firstn (pos st' - pos st) (rest st))))).
Proof. reflexivity. Qed.

Lemma run_Class_hit (p : ascii -> bool) (pv : option ascii) (c : ascii)
  (l : list ascii) (i : nat) (cp : option (list ascii))
  (k : state -> option state) :
  p c = true ->
  run (Class p) (mkState pv (c :: l) i cp) k = k (mkState (Some c) l (S i) cp).
Proof. intros H. cbn. rewrite H. reflexivity. Qed.

Lemma run_Class_miss (p : ascii -> bool) (pv : option ascii)
  (l : list ascii) (i : nat) (cp : option (list ascii))
  (k : state -> option state) :
  match l with [] => True | c :: _ => p c = false end ->
  run (Class p) (mkState pv l i cp) k = None.
Proof. destruct l as [|c l]; cbn; [reflexivity|]. intros ->. reflexivity. Qed.

Lemma star_class_cons (p : ascii -> bool) (pv : option ascii) (c : ascii)
  (l : list ascii) (i : nat) (cp : option (list ascii))
  (k : state -> option state) :
  p c = true ->
  run (Star (Class p)) (mkState pv (c :: l) i cp) k
  = orElse (run (Star (Class p)) (mkState (Some c) l (S i) cp) k)
      (k (mkState pv (c :: l) i cp)).
Proof.
  intros H. rewrite !run_Star. cbn [rest length]. rewrite iterate_S.
  rewrite run_Class_hit by exact H. cbn [rest length].
  assert ((length l <? S (length l))%nat = true) as ->
    by (apply Nat.ltb_lt; lia).
  reflexivity.
Qed.

Lemma star_class_stop (p : ascii -> bool) (pv : option ascii)
  (l : list ascii) (i : nat) (cp : option (list ascii))
  (k : state -> option state) :
  match l with [] => True | c :: _ => p c = false end ->
  run (Star (Class p)) (mkState pv l i cp) k = k (mkState pv l i cp).
Proof.
  intros H. rewrite run_Star. destruct l as [|c l]; [reflexivity|].
  cbn [rest length]. rewrite iterate_S.
  rewrite run_Class_miss by exact H. reflexivity.
Qed.

(** The state after the characters [u] have been consumed. *)
Fixpoint after (pv : option ascii) (u t : list ascii) (i : nat)
  (cp : option (list ascii)) : state :=
  match u with
  | [] => mkState pv t i cp
  | c :: u' => after (Some c) u' t (S i) cp
  end.

Lemma after_cons (pv : option ascii) (c : ascii) (u t : list ascii) (i : nat)
  (cp : option (list ascii)) :
  after pv (c :: u) t i cp = after (Some c) u t (S i) cp.
Proof. reflexivity. Qed.

Lemma after_nil (pv : option ascii) (t : list ascii) (i : nat)
  (cp : option (list ascii)) :
  after pv [] t i cp = mkState pv t i cp.
Proof. reflexivity. Qed.

Lemma after_fields (u t : list ascii) (cp : option (list ascii)) :
  forall pv i,
    rest (after pv u t i cp) = t
    /\ pos (after pv u t i cp) = (i + length u)%nat
    /\ cap (after pv u t i cp) = cp.
Proof.
  induction u as [|c u IH]; intros pv i; cbn [after length].
  - cbn. repeat split. lia.
  - destruct (IH (Some c) (S i)) as (Hr & Hp & Hc).
    repeat split; [exact Hr | rewrite Hp; lia | exact Hc].
Qed.

(** Greedy repetition of a class takes all the characters of the class, up
    to the first character outside it, when the continuation accepts what
    follows. *)
Lemma star_takes_all (p : ascii -> bool) (u t : list ascii)
  (cp : option (list ascii)) (k : state -> option state) (r : state) :
  forallb p u = true ->
  match t with [] => True | x :: _ => p x = false end ->
  forall pv i,
    k (after pv u t i cp) = Some r ->
    run (Star (Class p)) (mkState pv (u ++ t) i cp) k = Some r.
Proof.
  intros Hu Ht. induction u as [|c u IH]; intros pv i Hk.
  - rewrite after_nil in Hk. cbn [app].
    rewrite star_class_stop by exact Ht. exact Hk.
  - cbn [forallb] in Hu. apply andb_true_iff in Hu. destruct Hu as [Hc Hu].
    rewrite after_cons in Hk. cbn [app].
    rewrite star_class_cons by exact Hc.
    rewrite (IH Hu _ _ Hk). reflexivity.
Qed.

(** When the continuation rejects the end of the input and accepts the
    position before the last character, greedy repetition over a whole
    input of the class gives the last character back. *)
Lemma star_gives_back_one (p : ascii -> bool) (u : list ascii) (x : ascii)
  (cp : option (list ascii)) (k : state -> option state) (r : state) :
  forallb p u = true -> p x = true ->
  (forall pv i, k (mkState pv [] i cp) = None) ->
  forall pv i,
    k (after pv u [x] i cp) = Some r ->
    run (Star (Class p)) (mkState pv (u ++ [x]) i cp) k = Some r.
Proof.
  intros Hu Hx Hend. induction u as [|c u IH]; intros pv i Hk.
  - rewrite after_nil in Hk. cbn [app].
    rewrite star_class_cons by exact Hx.
    rewrite star_class_stop by exact I. rewrite Hend, Hk. reflexivity.
  - cbn [forallb] in Hu. apply andb_true_iff in Hu. destruct Hu as [Hc Hu].
    rewrite after_cons in Hk. cbn [app].
    rewrite star_class_cons by exact Hc.
    rewrite (IH Hu _ _ Hk). reflexivity.
Qed.

Lemma chars_app (a c : string) :
  Str.chars (a ++ c) = Str.chars a ++ Str.chars c.
Proof.
  unfold Str.chars. induction a as [|x a IH]; cbn; [|rewrite IH]; reflexivity.
Qed.

Lemma ofChars_chars (s : string) : Str.ofChars (Str.chars s) = s.
Proof. apply string_of_list_ascii_of_string. Qed.

Lemma firstn_exact {A} (l t : list A) : firstn (length l) (l ++ t) = l.
Proof. induction l as [|x l IH]; cbn; [|rewrite IH]; reflexivity. Qed.

End RegexRun.

Module MySQLEnum.
Import Regex RegexFacts RegexExact RegexRun MySQLTables.

Definition quoteValue (v : string) : string := ("'" ++ v ++ "'")%string.

(** The column type MySQL reports for an enum with the values [vs]. *)
Definition renderEnum (vs : list string) : string :=
  ("enum(" ++ MySQLPlan.joinWith "," (map quoteValue vs) ++ ")")%string.

(** A value without a comma and without a line terminator. *)
Definition plain (v : string) : bool :=
  forallb (fun c => negb (Ascii.eqb c "," || Str.isLineTerminator c))
    (Str.chars v).

Definition noComma (s : string) : bool :=
  forallb (fun c => negb (Ascii.eqb c ",")) (Str.chars s).

Definition noBreak (s : string) : bool :=
  forallb (fun c => negb (Str.isLineTerminator c)) (Str.chars s).

Lemma plain_split (v : string) :
  plain v = true -> noComma v = true /\ noBreak v = true.
Proof.
  unfold plain, noComma, noBreak.
  induction (Str.chars v) as [|c l IH]; cbn [forallb]; [auto|].
  intros H. apply andb_true_iff in H. destruct H as [Hc Hl].
  apply negb_true_iff, orb_false_iff in Hc. destruct Hc as [H1 H2].
  destruct (IH Hl) as [-> ->]. rewrite H1, H2. auto.
Qed.

Lemma noComma_app (a c : string) :
  noComma (a ++ c) = noComma a && noComma c.
Proof. unfold noComma. rewrite chars_app. apply forallb_app. Qed.

Lemma noBreak_app (a c : string) :
  noBreak (a ++ c) = noBreak a && noBreak c.
Proof. unfold noBreak. rewrite chars_app. apply forallb_app. Qed.

Lemma split_single (s : string) :
  noComma s = true -> Str.split "," s = [s].
Proof.
  unfold noComma. induction s as [|c s IH]; [reflexivity|].
  cbn [Str.chars list_ascii_of_string forallb]. intros H.
  apply andb_true_iff in H. destruct H as [Hc Hs].
  apply negb_true_iff in Hc. cbn [Str.split]. rewrite Hc, (IH Hs).
  reflexivity.
Qed.

Lemma split_piece (a r : string) :
  noComma a = true ->
  Str.split "," (a ++ String "," r) = a :: Str.split "," r.
Proof.
  unfold noComma. induction a as [|c a IH]; [reflexivity|].
  cbn [Str.chars list_ascii_of_string forallb]. intros H.
  apply andb_true_iff in H. destruct H as [Hc Ha].
  apply negb_true_iff in Hc. cbn [append Str.split]. rewrite Hc, (IH Ha).
  reflexivity.
Qed.

Lemma quoteValue_noComma (v : string) :
  noComma v = true -> noComma (quoteValue v) = true.
Proof.
  intros H. unfold quoteValue.
  rewrite !noComma_app, H. reflexivity.
Qed.

Lemma quoteValue_noBreak (v : string) :
  noBreak v = true -> noBreak (quoteValue v) = true.
Proof.
  intros H. unfold quoteValue.
  rewrite !noBreak_app, H. reflexivity.
Qed.

Lemma joinWith_cons (x y : string) (l : list string) :
  MySQLPlan.joinWith "," (x :: y :: l)
  = (x ++ String "," (MySQLPlan.joinWith "," (y :: l)))%string.
Proof. reflexivity. Qed.

Lemma split_join (vs : list string) :
  vs <> [] -> forallb noComma vs = true ->
  Str.split "," (MySQLPlan.joinWith "," vs) = vs.
Proof.
  induction vs as [|x vs IH]; intros Hne H; [contradiction|].
  cbn [forallb] in H. apply andb_true_iff in H. destruct H as [Hx Hvs].
  destruct vs as [|y vs].
  - cbn [MySQLPlan.joinWith]. apply split_single, Hx.
  - rewrite joinWith_cons, (split_piece _ _ Hx), IH;
      [reflexivity | discriminate | exact Hvs].
Qed.

Lemma join_noBreak (vs : list string) :
  forallb noBreak vs = true -> noBreak (MySQLPlan.joinWith "," vs) = true.
Proof.
  induction vs as [|x vs IH]; intros H; [reflexivity|].
  cbn [forallb] in H. apply andb_true_iff in H. destruct H as [Hx Hvs].
  destruct vs as [|y vs]; [exact Hx|].
  rewrite joinWith_cons.
  change (String "," (MySQLPlan.joinWith "," (y :: vs)))
    with ("," ++ MySQLPlan.joinWith "," (y :: vs))%string.
  rewrite !noBreak_app, Hx, (IH Hvs). reflexivity.
Qed.

Lemma trimEnd_keeps (s : string) (c : ascii) :
  Str.isWhiteSpace c = false ->
  Str.trimEnd (s ++ String c EmptyString) = (s ++ String c EmptyString)%string.
Proof.
  intros Hc. induction s as [|x s IH]; cbn [append Str.trimEnd].
  - rewrite Hc. reflexivity.
  - rewrite IH. destruct s; reflexivity.
Qed.

Lemma dropLastQuote_app (v : string) : dropLastQuote (v ++ "'") = v.
Proof.
  induction v as [|c v IH]; [reflexivity|].
  cbn [append]. destruct v as [|d v]; [reflexivity|].
  cbn [append dropLastQuote] in IH |- *. rewrite IH. reflexivity.
Qed.

Lemma strip_quoted (v : string) :
  stripQuotes (Str.trim (quoteValue v)) = v.
Proof.
  unfold quoteValue, Str.trim. cbn [append Str.trimStart].
  change (Str.isWhiteSpace "'") with false. cbn iota.
  change (String "'" (v ++ "'")) with ((String "'" v) ++ "'")%string.
  rewrite trimEnd_keeps by reflexivity.
  cbn [append stripQuotes]. apply dropLastQuote_app.
Qed.

Lemma enum_run (body : string) :
  noBreak body = true ->
  run enumPattern
    (mkState None
       ("e" :: "n" :: "u" :: "m" :: "(" :: Str.chars body ++ [")"])%char
       0 None)
    (fun st' => Some st')
  = Some (mkState (Some ")"%char) [] (S (5 + length (Str.chars body)))
            (Some (Str.chars body))).
Proof.
  intros Hbody. unfold enumPattern. cbn [seq litExact]. unfold chrExact.
  rewrite run_Seq.
  do 4 (rewrite run_Seq; rewrite run_Class_hit by reflexivity; cbv beta).
  rewrite run_Class_hit by reflexivity. cbv beta.
  rewrite run_Seq, run_Group. unfold dot.
  apply star_gives_back_one; [exact Hbody | reflexivity | reflexivity |].
  destruct (after_fields (Str.chars body) [")"%char] None (Some "("%char) 5)
    as (Hr & Hp & _).
  rewrite Hr, Hp. cbn [rest pos].
  rewrite run_Class_hit by reflexivity.
  replace (5 + length (Str.chars body) - 5)%nat
    with (length (Str.chars body)) by lia.
  rewrite firstn_exact. reflexivity.
Qed.

Lemma enum_match (body : string) :
  noBreak body = true ->
  option_map group1 (exec enumPattern ("enum(" ++ body ++ ")"))
  = Some (Some body).
Proof.
  intros Hbody. unfold exec.
  assert (Str.chars ("enum(" ++ body ++ ")")
          = ("e" :: "n" :: "u" :: "m" :: "(" :: Str.chars body ++ [")"])%char)
    as ->.
  { cbn [append Str.chars list_ascii_of_string].
    change (list_ascii_of_string (body ++ ")"))
      with (Str.chars (body ++ ")")).
    rewrite chars_app. reflexivity. }
  cbn [search]. unfold matchAt. rewrite (enum_run _ Hbody).
  cbn [option_map cap group1]. rewrite ofChars_chars. reflexivity.
Qed.

(** X14: the values of an enum column are recovered from the column type
    MySQL reports: for a non-empty list of values without commas and line
    terminators, a column of data type [enum] whose column type is
    [enum('v1','v2',...)] gets exactly these values, in this order. *)
Theorem enum_values_round_trip (row : ColumnRow) (vs : list string) :
  vs <> [] -> forallb plain vs = true ->
  DATA_TYPE row = "enum" -> COLUMN_TYPE row = renderEnum vs ->
  Tables.cs_enumValues (column row) = Some vs.
Proof.
  intros Hne Hplain Hdt Hct.
  unfold column. cbn [Tables.cs_enumValues]. rewrite Hdt, Hct.
  cbn [String.eqb Ascii.eqb Bool.eqb andb]. unfold parseEnum, renderEnum.
  assert (forallb noComma vs = true /\ forallb noBreak vs = true) as [Hc Hb].
  { clear -Hplain. induction vs as [|v vs IH]; [auto|].
    cbn [forallb] in *. apply andb_true_iff in Hplain.
    destruct Hplain as [Hv Hvs]. destruct (plain_split _ Hv) as [-> ->].
    destruct (IH Hvs) as [-> ->]. auto. }
  assert (forallb noComma (map quoteValue vs) = true) as Hqc.
  { clear -Hc. induction vs as [|v vs IH]; [reflexivity|].
    cbn [forallb map] in *. apply andb_true_iff in Hc. destruct Hc as [Hv Hvs].
    rewrite (quoteValue_noComma _ Hv), (IH Hvs). reflexivity. }
  assert (forallb noBreak (map quoteValue vs) = true) as Hqb.
  { clear -Hb. induction vs as [|v vs IH]; [reflexivity|].
    cbn [forallb map] in *. apply andb_true_iff in Hb. destruct Hb as [Hv Hvs].
    rewrite (quoteValue_noBreak _ Hv), (IH Hvs). reflexivity. }
  pose proof (enum_match _ (join_noBreak _ Hqb)) as Hm.
  destruct (exec enumPattern _) as [m|]; [|discriminate Hm].
  cbn [option_map] in Hm. injection Hm as ->.
  rewrite split_join; [|destruct vs; [contradiction | discriminate] | exact Hqc].
  rewrite map_map. f_equal.
  clear. induction vs as [|v vs IH]; [reflexivity|].
  cbn [map]. rewrite strip_quoted, IH. reflexivity.
Qed.

Definition statusRow : ColumnRow :=
  mkColumnRow "status" "enum" "enum('new','paid')" "NO" None None None None
    None None None "".

Lemma enum_values_round_trip_witness :
  forallb plain ["new"; "paid"] = true
  /\ COLUMN_TYPE statusRow = renderEnum ["new"; "paid"]
  /\ Tables.cs_enumValues (column statusRow) = Some ["new"; "paid"].
Proof.
  split; [reflexivity|]. split; [reflexivity|].
  refine (@enum_values_round_trip statusRow ["new"; "paid"] _ eq_refl eq_refl
            eq_refl).
  discriminate.
Defined.

End MySQLEnum.

(* ================================================================== *)
(** * SQLite: recommendations from the query plan *)

Module SQLiteExplain.
Import Regex RegexExact.

(** A row of [EXPLAIN QUERY PLAN]. *)
Record PlanRow : Type := mkPlanRow {
  p_id : Z;
  p_parent : Z;
  p_notused : Z;
  detail : string
}.

(** The pattern of a scanned table: the text [SCAN TABLE], a space and one
    or more word characters (captured); no flags. *)
Definition scanPattern : regex :=
  seq [litExact "SCAN TABLE "; Group (Plus w)].

Definition fullScan (table : option string) : string :=
  "Full table scan detected on " ++ showString table
  ++ ". Consider adding an index.".

Definition temporaryBTree : string :=
  "Using temporary B-tree for sorting. Consider adding an index to match ORDER BY.".

(** What the loop of [explain] pushes for one row. *)
Definition rowRecommendations (row : PlanRow) : list string :=
  (if Str.includes (detail row) "SCAN TABLE" then
     match exec scanPattern (detail row) with
     | Some m => [fullScan (group1 m)]
     | None => []
     end
   else [])
  ++ (if Str.includes (detail row) "USING TEMP B-TREE"
      then [temporaryBTree] else []).

(** The field [recommendations] of what [explain] returns. *)
Definition explainRecommendations (rows : list PlanRow) : list string :=
  flat_map rowRecommendations rows.

End SQLiteExplain.

Module SQLiteExplainFacts.
Import Regex RegexFacts RegexExact RegexRun SQLiteExplain.

Lemma scan_run (c : ascii) (name tl : list ascii) :
  Str.isWordChar c = true -> forallb Str.isWordChar name = true ->
  match tl with [] => True | x :: _ => Str.isWordChar x = false end ->
  exists st',
    run scanPattern
      (mkState None (Str.chars "SCAN TABLE " ++ c :: name ++ tl) 0 None)
      (fun st => Some st) = Some st'
    /\ cap st' = Some (c :: name).
Proof.
  intros Hc Hname Hrest. unfold scanPattern.
  cbn [seq litExact Str.chars list_ascii_of_string app]. unfold chrExact.
  rewrite run_Seq.
  do 10 (rewrite run_Seq; rewrite run_Class_hit by reflexivity; cbv beta).
  rewrite run_Class_hit by reflexivity. cbv beta.
  rewrite run_Group, run_Plus. unfold w.
  rewrite run_Class_hit by exact Hc. cbn [Regex.rest Regex.pos].
  rewrite <- run_Star with (st := mkState (Some c) (name ++ tl) 12 None).
  destruct (after_fields name tl None (Some c) 12) as (Hr & Hp & Hcap).
  eexists. split.
  - apply star_takes_all; [exact Hname | exact Hrest | reflexivity].
  - cbn [cap]. rewrite Hp.
    replace (12 + length name - 11)%nat with (length (c :: name))
      by (cbn [length]; lia).
    change (c :: name ++ tl) with ((c :: name) ++ tl).
    rewrite (firstn_exact (c :: name) tl). reflexivity.
Qed.

(** X15: for a plan row whose detail is [SCAN TABLE], a space, a table name
    of word characters, and then nothing or something that starts with
    another character, the SQLite adapter recommends an index on exactly
    that table; a temporary B-tree in the same row adds its own
    recommendation after it. *)
Theorem sqlite_scan_names_table (row : PlanRow) (table rest : string) :
  table <> EmptyString ->
  forallb Str.isWordChar (Str.chars table) = true ->
  match rest with
  | EmptyString => True
  | String x _ => Str.isWordChar x = false
  end ->
  detail row = ("SCAN TABLE " ++ table ++ rest)%string ->
  rowRecommendations row
  = fullScan (Some table)
    :: (if Str.includes (detail row) "USING TEMP B-TREE"
        then [temporaryBTree] else []).
Proof.
  intros Hne Hword Hrest Hd. unfold rowRecommendations. rewrite Hd.
  assert (Str.includes ("SCAN TABLE " ++ table ++ rest) "SCAN TABLE" = true)
    as -> by reflexivity.
  destruct table as [|c name]; [contradiction|].
  cbn [Str.chars list_ascii_of_string forallb] in Hword.
  apply andb_true_iff in Hword. destruct Hword as [Hc Hname].
  assert (match Str.chars rest with
          | [] => True
          | x :: _ => Str.isWordChar x = false
          end) as Hrest' by (destruct rest; exact Hrest).
  destruct (scan_run c _ _ Hc Hname Hrest') as (st' & Hrun & Hcap).
  unfold exec.
  assert (Str.chars ("SCAN TABLE " ++ String c name ++ rest)
          = Str.chars "SCAN TABLE " ++ c :: list_ascii_of_string name
            ++ Str.chars rest) as ->.
  { rewrite chars_app. f_equal.
    change (String c name ++ rest)%string with (String c (name ++ rest)).
    cbn [Str.chars list_ascii_of_string]. f_equal. apply chars_app. }
  cbn [Str.chars list_ascii_of_string app search] in Hrun |- *.
  unfold matchAt. rewrite Hrun, Hcap.
  cbn [option_map group1 app]. f_equal.
  unfold Str.ofChars. cbn [string_of_list_ascii].
  rewrite string_of_list_ascii_of_string. reflexivity.
Qed.

Definition scanUsers : PlanRow :=
  mkPlanRow 2 0 0 "SCAN TABLE users USING INDEX idx_name".

Lemma sqlite_scan_names_table_witness :
  detail scanUsers = ("SCAN TABLE " ++ "users" ++ " USING INDEX idx_name")%string
  /\ rowRecommendations scanUsers
     = ["Full table scan detected on users. Consider adding an index."].
Proof.
  split; [reflexivity|].
  refine (@sqlite_scan_names_table scanUsers "users" " USING INDEX idx_name"
            _ eq_refl eq_refl eq_refl).
  discriminate.
Defined.

(** A detail in the wording of newer SQLite versions, without [TABLE]. *)
Example scan_without_table_keyword :
  explainRecommendations [mkPlanRow 2 0 0 "SCAN users"] = [].
Proof. reflexivity. Qed.

End SQLiteExplainFacts.

(* ================================================================== *)
(** * The default row limit, and foreign keys of SQLite and PostgreSQL *)

Module DefaultLimit.
Import Num BaseDatabaseClient.

Lemma slice0_thousand {A} (arr : list A) :
  Arr.slice0 arr (ofZ 1000) = firstn 1000 arr.
Proof.
  unfold Arr.slice0, ofZ. 
  change (truncate (inject_Z 1000)) with 1000%Z. cbn [Z.ltb Z.compare].
  destruct (Z.le_ge_cases 1000 (Z.of_nat (length arr))) as [H | H].
  - rewrite Z.min_l by exact H. reflexivity.
  - rewrite Z.min_r by lia. rewrite Nat2Z.id.
    rewrite !firstn_all2; [reflexivity | lia | lia].
Qed.

(** A request that [normalizeMaxRows] replaces by the default: none, zero,
    NaN, or a negative number. *)
Definition unusable (maxRows : option number) : Prop :=
  match maxRows with
  | None => True
  | Some x => truthy x = false \/ ltb x (ofZ 0) = true
  end.

(** X16: without a usable [maxRows] (none, 0, NaN or negative) each adapter
    returns exactly the first 1000 rows the engine produced, in their order,
    or all of them when there are fewer. *)
Theorem default_limit_keeps_first_rows (Row : Type) (maxRows : option number)
  (mysqlRows : list Row) (mysqlFields : list MySQLClient.FieldPacket)
  (queryText : string) (stmt : SQLiteClient.Statement Row)
  (result : PostgreSQLClient.PgQueryResult Row) :
  unusable maxRows ->
  rows (MySQLClient.query maxRows mysqlRows mysqlFields)
  = firstn 1000 mysqlRows
  /\ (Str.startsWith (Str.toUpperCase (Str.trim queryText)) "SELECT" = true ->
      rows (SQLiteClient.query queryText maxRows stmt)
      = firstn 1000 (SQLiteClient.all stmt))
  /\ rows (PostgreSQLClient.query maxRows result)
     = firstn 1000 (PostgreSQLClient.pg_rows result).
Proof.
  intros H. pose proof (RowLimit.normalizeMaxRows_default maxRows H) as Hd.
  unfold MySQLClient.query, SQLiteClient.query, PostgreSQLClient.query.
  rewrite Hd. cbn [rows]. split; [apply slice0_thousand|].
  split; [|apply slice0_thousand].
  intros ->. cbn [rows]. apply slice0_thousand.
Qed.

Lemma default_limit_keeps_first_rows_witness :
  unusable (Some (ofZ 0))
  /\ rows (MySQLClient.query (Some (ofZ 0)) [1; 2; 3]%nat [])
     = firstn 1000 [1; 2; 3]%nat.
Proof.
  assert (unusable (Some (ofZ 0))) as H by (left; reflexivity).
  split; [exact H|].
  exact (proj1 (@default_limit_keeps_first_rows nat (Some (ofZ 0))
                  [1; 2; 3]%nat [] "SELECT 1"
                  (SQLiteClient.mkStatement [1; 2; 3]%nat (ofZ 0) [])
                  (PostgreSQLClient.mkPgQueryResult [1; 2; 3]%nat None [])
                  H)).
Defined.

End DefaultLimit.

Module OtherForeignKeys.

Definition pairs (fk : ForeignKeyConstraint) : list (string * string) :=
  combine (fk_columns fk) (fk_referencedColumns fk).

Lemma postgres_named (rows : list PostgreSQLClient.ForeignKeyRow) :
  Grouping.entriesOK (fun k fk => fk_name fk = k)
    (JSMap.group String.eqb PostgreSQLClient.constraint_name
       PostgreSQLClient.newForeignKey PostgreSQLClient.pushForeignKeyColumn
       rows).
Proof. apply Grouping.group_entriesOK; intros; cbn; auto. Qed.

(** X17: the PostgreSQL adapter yields one foreign key per distinct
    constraint name, in the order in which the names first occur in the
    catalog rows, and each has the pairs of local and referenced column of
    the rows of its name, in the order of the rows. *)
Theorem postgres_foreign_keys_follow_rows
  (rows : list PostgreSQLClient.ForeignKeyRow) :
  let fks := PostgreSQLClient.introspectForeignKeys rows in
  map fk_name fks
  = Grouping.distinctKeys String.eqb
      (map PostgreSQLClient.constraint_name rows)
  /\ forall fk, In fk fks ->
       pairs fk
       = map (fun r => (PostgreSQLClient.column_name r,
                        PostgreSQLClient.foreign_column_name r))
           (filter (fun r => String.eqb (PostgreSQLClient.constraint_name r)
                               (fk_name fk)) rows).
Proof.
  intros fks. subst fks. unfold PostgreSQLClient.introspectForeignKeys.
  split.
  - rewrite (CatalogOrder.values_names fk_name (postgres_named rows)).
    unfold JSMap.group. rewrite Grouping.keys_fold. reflexivity.
  - intros fk Hin.
    apply (CatalogOrder.values_entry fk_name fk (postgres_named rows)) in Hin.
    unfold pairs.
    rewrite (@Grouping.group_collect _ _ _ String.eqb String.eqb_eq
               PostgreSQLClient.constraint_name PostgreSQLClient.newForeignKey
               PostgreSQLClient.pushForeignKeyColumn _ fk_columns
               PostgreSQLClient.column_name (fun _ => eq_refl)
               (fun _ _ => eq_refl) rows _ _ Hin).
    rewrite (@Grouping.group_collect _ _ _ String.eqb String.eqb_eq
               PostgreSQLClient.constraint_name PostgreSQLClient.newForeignKey
               PostgreSQLClient.pushForeignKeyColumn _ fk_referencedColumns
               PostgreSQLClient.foreign_column_name (fun _ => eq_refl)
               (fun _ _ => eq_refl) rows _ _ Hin).
    apply Grouping.combine_map_same.
Qed.

Definition sqliteName (table : string) (id : Z) : string :=
  "fk_" ++ table ++ "_" ++ SQLiteClient.showZ id.

Lemma sqlite_named (table : string) (fks : list SQLiteClient.ForeignKeyRow) :
  Grouping.entriesOK (fun k fk => fk_name fk = sqliteName table k)
    (JSMap.group Z.eqb SQLiteClient.id (SQLiteClient.newForeignKey table)
       SQLiteClient.pushForeignKeyColumn fks).
Proof. apply Grouping.group_entriesOK; intros; cbn; auto. Qed.

Lemma values_by_key {K V} (name : K -> string) (field : V -> string)
  (m : JSMap.t K V) :
  Grouping.entriesOK (fun k v => field v = name k) m ->
  map field (JSMap.values m) = map name (JSMap.keys m).
Proof.
  unfold Grouping.entriesOK, JSMap.values, JSMap.keys.
  induction 1 as [|kv m Hkv _ IH]; cbn; [reflexivity|].
  rewrite Hkv, IH. reflexivity.
Qed.

(** X18: the SQLite adapter yields one foreign key per distinct id of the
    pragma rows, in the order in which the ids first occur, named
    [fk_<table>_<id>]; the foreign key of an id has the pairs of [from] and
    [to] column of the rows of that id, in the order of the rows. *)
Theorem sqlite_foreign_keys_follow_rows (table : string)
  (fks : list SQLiteClient.ForeignKeyRow) :
  let ids := Grouping.distinctKeys Z.eqb (map SQLiteClient.id fks) in
  let result := SQLiteClient.introspectForeignKeys table fks in
  map fk_name result = map (sqliteName table) ids
  /\ length result = length ids
  /\ forall n id fk,
       nth_error ids n = Some id -> nth_error result n = Some fk ->
       pairs fk
       = map (fun r => (SQLiteClient.from r, SQLiteClient.to r))
           (filter (fun r => Z.eqb (SQLiteClient.id r) id) fks).
Proof.
  intros ids result. subst ids result.
  unfold SQLiteClient.introspectForeignKeys.
  set (m := JSMap.group Z.eqb SQLiteClient.id
              (SQLiteClient.newForeignKey table)
              SQLiteClient.pushForeignKeyColumn fks).
  assert (JSMap.keys m
          = Grouping.distinctKeys Z.eqb (map SQLiteClient.id fks)) as Hk.
  { unfold m, JSMap.group. rewrite Grouping.keys_fold. reflexivity. }
  rewrite <- Hk. split; [|split].
  - apply values_by_key, sqlite_named.
  - unfold JSMap.values, JSMap.keys. rewrite !length_map. reflexivity.
  - intros n id fk Hid Hfk.
    assert (In (id, fk) m) as Hin.
    { unfold JSMap.values, JSMap.keys in *.
      rewrite nth_error_map in Hid, Hfk.
      destruct (nth_error m n) as [[k v]|] eqn:E; [|discriminate].
      cbn in Hid, Hfk. injection Hid as <-. injection Hfk as <-.
      apply (nth_error_In _ _ E). }
    unfold pairs, m in *.
    rewrite (@Grouping.group_collect _ _ _ Z.eqb Z.eqb_eq
               SQLiteClient.id (SQLiteClient.newForeignKey table)
               SQLiteClient.pushForeignKeyColumn _ fk_columns
               SQLiteClient.from (fun _ => eq_refl)
               (fun _ _ => eq_refl) fks _ _ Hin).
    rewrite (@Grouping.group_collect _ _ _ Z.eqb Z.eqb_eq
               SQLiteClient.id (SQLiteClient.newForeignKey table)
               SQLiteClient.pushForeignKeyColumn _ fk_referencedColumns
               SQLiteClient.to (fun _ => eq_refl)
               (fun _ _ => eq_refl) fks _ _ Hin).
    apply Grouping.combine_map_same.
Qed.

Definition itemRows : list SQLiteClient.ForeignKeyRow :=
  [ SQLiteClient.mkForeignKeyRow 0 0 "orders" "order_id" "id"
      "NO ACTION" "CASCADE" "NONE";
    SQLiteClient.mkForeignKeyRow 0 1 "orders" "order_region" "region"
      "NO ACTION" "CASCADE" "NONE" ].

Definition itemKey : ForeignKeyConstraint :=
  mkForeignKey "fk_items_0" ["order_id"; "order_region"] "orders" "main"
    ["id"; "region"] "CASCADE" "NO ACTION".

Lemma sqlite_foreign_keys_follow_rows_witness :
  nth_error (Grouping.distinctKeys Z.eqb (map SQLiteClient.id itemRows)) 0
  = Some 0%Z
  /\ nth_error (SQLiteClient.introspectForeignKeys "items" itemRows) 0
     = Some itemKey
  /\ pairs itemKey = [("order_id", "id"); ("order_region", "region")].
Proof.
  split; [reflexivity|]. split; [reflexivity|].
  exact (proj2 (proj2 (sqlite_foreign_keys_follow_rows "items" itemRows))
           0%nat 0%Z itemKey eq_refl eq_refl).
Defined.

End OtherForeignKeys.
